(** * ft_transcendence: lobby manager and game engine

    A shallow embedding of [packages/backend/src/game]: the [LobbyManager]
    (registry, matchmaking queue, invitations, expiry) and the [Game] engine
    (fixed-timestep pong simulation with its count-downs), in the variant
    that uses the circle/rectangle collision test, the speed ramp-up and the
    pause between points.

    Numbers that the engine uses for geometry are modelled as exact rationals
    [Q]; scores are JavaScript numbers that only ever hold integers or [NaN].
    Asynchronous code is modelled as a state machine whose steps are the
    synchronous segments between two suspension points of the event loop. *)

From Stdlib Require Import ZArith QArith Lqa Lia.
From stdpp Require Import base option list gmap strings.

Local Open Scope Z_scope.

(** ** JavaScript values *)

(** A score cell: [scores[id]++] on a key that was never assigned stores
    [NaN]; every other score is an integer. *)
Inductive JsNum : Type :=
| Num (n : Z)
| NaN.

(** [v++] on the content of a property ([None] is [undefined]). *)
Definition js_incr (v : option JsNum) : JsNum :=
  match v with
  | Some (Num n) => Num (n + 1)
  | Some NaN => NaN
  | None => NaN
  end.

(** [v === k] for a numeric constant [k]. *)
Definition js_strict_eq (v : option JsNum) (k : Z) : bool :=
  match v with
  | Some (Num n) => Z.eqb n k
  | Some NaN => false
  | None => false
  end.

Inductive Exn : Type :=
| WsException (message : string)
| TypeError.

(** [error.message]. The only [TypeError] of the engine and the manager is
    the read of a property of a player that is [undefined]
    ([this.lobby.player1.data], [this.lobby.player2.data]); its message is
    the one of the runtime (V8). *)
Definition error_message (e : Exn) : string :=
  match e with
  | WsException message => message
  | TypeError => "Cannot read properties of undefined (reading 'data')"
  end.

Inductive Res (A : Type) : Type :=
| Ok (a : A)
| Throw (e : Exn).
Arguments Ok {A} a.
Arguments Throw {A} e.

(** Comparisons of the geometry, on rationals. *)
Definition Qltb (a b : Q) : bool := negb (Qle_bool b a).
Definition Qgtb (a b : Q) : bool := Qltb b a.
Definition Qgeb (a b : Q) : bool := Qle_bool b a.

(** ** Configuration

    [src/config/game.config] and [../constants] are not part of the sources
    at hand: their values are parameters of the development. *)
Record GameConfig : Type := {
  cfg_width : Q;
  cfg_height : Q;
  cfg_paddleMargin : Q;
  cfg_paddleWidth : Q;
  cfg_paddleHeight : Q;
  cfg_paddleSpeedPerSecond : Q;
  cfg_ballRadius : Q;
  cfg_ballSpeedPerSecond : Q;
  cfg_speedUp : Q;
  cfg_timeStep : Q;
  cfg_maxScore : Z;
  cfg_pointCountDownDuration : Z;
  COUNT_DOWN_TIME : Z;
  LOBBY_MAX_LIFETIME : Z
}.

(** Modelled from the spec: the constant [MAX_PLAYERS] of [../constants] is
    missing; the spec fixes the number of seats of a session to 2. *)
Definition MAX_PLAYERS : nat := 2.

(** ** Data model *)

Inductive PaddleDirection : Type := UP | DOWN | NONE.

Record Paddle : Type := {
  paddle_x : Q;
  paddle_y : Q;
  paddle_width : Q;
  paddle_height : Q;
  paddle_velocity_y : Q;
  paddle_direction : PaddleDirection
}.

Record Ball : Type := {
  ball_x : Q;
  ball_y : Q;
  ball_radius : Q;
  ball_velocity_x : Q;
  ball_velocity_y : Q
}.

(** The three objects [paddle1], [paddle2], [ball] of a [Game]: they are
    unassigned until [initializeGameObjects] assigns the three at once. *)
Record GameObjects : Type := {
  paddle1 : Paddle;
  paddle2 : Paddle;
  ball : Ball
}.

(** A user as the user service returns it; [blockedUsers] holds the ids of
    the related entities, the only field the lobby manager reads of them. *)
Record UserEntity : Type := {
  user_id : string;
  blockedUsers : list string
}.

(** The immutable part of a connection: the socket id, and the [data.id]
    (user id) and [data.username] set at authentication. The mutable
    back-reference [data.lobby] lives in the manager's state. *)
Record AuthenticatedSocket : Type := {
  sock_id : string;
  data_id : string;
  data_username : string
}.

#[global] Instance AuthenticatedSocket_eq_dec : EqDecision AuthenticatedSocket.
Proof. solve_decision. Defined.

(** Modelled from the spec: the enum [LobbyMode] is missing; a session is
    Queued (matchmaking) or Custom (explicit creation, invite list). *)
Inductive LobbyMode : Type := Queued | Custom.

#[global] Instance LobbyMode_eq_dec : EqDecision LobbyMode.
Proof. solve_decision. Defined.

Record MatchEntity : Type := {
  match_mode : LobbyMode;
  match_winner : UserEntity;
  match_loser : UserEntity;
  match_winnerScore : option JsNum;
  match_loserScore : option JsNum
}.

Record Game : Type := {
  playersReady : gmap string bool;
  hasStarted : bool;
  hasFinished : bool;
  stop : bool;
  gamePaused : bool;
  scores : gmap string JsNum;
  objects : option GameObjects;
  ballSpeedPerSecond : Q;
  ballDirection : Z;
  game_match : option MatchEntity
}.

(** A lobby with the engine it owns ([instance]); [players] is the seat map
    in insertion order, keyed by socket id. *)
Record Lobby : Type := {
  lobby_id : string;
  mode : LobbyMode;
  createdAt : Z;
  players : list AuthenticatedSocket;
  invitedPlayers : list string;
  instance : Game
}.

(** ** Events sent to clients *)

Inductive ServerEvent : Type :=
| GameMessage (message : string)
| GameStart (player1 player2 : string) (cfg : GameConfig)
    (paddle1Coordinates paddle2Coordinates ballCoordinates : Q * Q)
| GameCountdown (seconds : Z)
| GameState (p1 p2 : Paddle) (b : Ball)
| GameScore (player1Score player2Score : option JsNum)
| GameFinish (winner : option string) (player1Score player2Score : option JsNum)
| InviteToLobby (userId lobbyId : string).

(** One call of a send primitive: the addressed sockets (or user) and the
    event. *)
Record Emission : Type := {
  recipients : list string;
  event : ServerEvent
}.

Definition isFinish (e : Emission) : bool :=
  match event e with
  | GameFinish _ _ _ => true
  | _ => false
  end.

(** ** A state, exception and output monad

    [M S A] is a computation on a mutable state [S] that returns an [A] or
    throws, and sends events on the way. What was written before a throw
    stays written. *)
Definition M (S A : Type) : Type := S -> Res A * S * list Emission.

Definition ret {S A : Type} (a : A) : M S A :=
  fun s => (Ok a, s, []).

Definition bind {S A B : Type} (m : M S A) (k : A -> M S B) : M S B :=
  fun s =>
    match m s with
    | (Ok a, s1, out1) =>
        match k a s1 with
        | (r, s2, out2) => (r, s2, out1 ++ out2)
        end
    | (Throw e, s1, out1) => (Throw e, s1, out1)
    end.

Definition throw {S A : Type} (e : Exn) : M S A :=
  fun s => (Throw e, s, []).

Definition get {S : Type} : M S S :=
  fun s => (Ok s, s, []).

Definition modify {S : Type} (f : S -> S) : M S unit :=
  fun s => (Ok tt, f s, []).

Definition emit {S : Type} (out : list Emission) : M S unit :=
  fun s => (Ok tt, s, out).

(** [try { m } catch (error) { h error }]: what [m] wrote and sent before it
    threw stays written and sent. *)
Definition try_catch {S A : Type} (m : M S A) (h : Exn -> M S A) : M S A :=
  fun s =>
    match m s with
    | (Ok a, s1, out1) => (Ok a, s1, out1)
    | (Throw e, s1, out1) =>
        match h e s1 with
        | (r, s2, out2) => (r, s2, out1 ++ out2)
        end
    end.

Notation "x <- m ;; k" := (bind m (fun x => k))
  (at level 100, m at next level, right associativity).
Notation "m ;;; k" := (bind m (fun _ => k))
  (at level 100, right associativity).

(** ** Field updates *)

Definition set_paddle_y (v : Q) (p : Paddle) : Paddle :=
  {| paddle_x := paddle_x p; paddle_y := v; paddle_width := paddle_width p;
     paddle_height := paddle_height p; paddle_velocity_y := paddle_velocity_y p;
     paddle_direction := paddle_direction p |}.

Definition set_paddle_direction (d : PaddleDirection) (p : Paddle) : Paddle :=
  {| paddle_x := paddle_x p; paddle_y := paddle_y p; paddle_width := paddle_width p;
     paddle_height := paddle_height p; paddle_velocity_y := paddle_velocity_y p;
     paddle_direction := d |}.

Definition set_ball_position (vx vy : Q) (b : Ball) : Ball :=
  {| ball_x := vx; ball_y := vy; ball_radius := ball_radius b;
     ball_velocity_x := ball_velocity_x b; ball_velocity_y := ball_velocity_y b |}.

Definition set_ball_velocity (vx vy : Q) (b : Ball) : Ball :=
  {| ball_x := ball_x b; ball_y := ball_y b; ball_radius := ball_radius b;
     ball_velocity_x := vx; ball_velocity_y := vy |}.

Definition set_paddle1 (p : Paddle) (o : GameObjects) : GameObjects :=
  {| paddle1 := p; paddle2 := paddle2 o; ball := ball o |}.

Definition set_paddle2 (p : Paddle) (o : GameObjects) : GameObjects :=
  {| paddle1 := paddle1 o; paddle2 := p; ball := ball o |}.

Definition set_ball (b : Ball) (o : GameObjects) : GameObjects :=
  {| paddle1 := paddle1 o; paddle2 := paddle2 o; ball := b |}.

Definition set_playersReady (v : gmap string bool) (g : Game) : Game :=
  {| playersReady := v; hasStarted := hasStarted g; hasFinished := hasFinished g;
     stop := stop g; gamePaused := gamePaused g; scores := scores g;
     objects := objects g; ballSpeedPerSecond := ballSpeedPerSecond g;
     ballDirection := ballDirection g; game_match := game_match g |}.

Definition set_hasStarted (v : bool) (g : Game) : Game :=
  {| playersReady := playersReady g; hasStarted := v; hasFinished := hasFinished g;
     stop := stop g; gamePaused := gamePaused g; scores := scores g;
     objects := objects g; ballSpeedPerSecond := ballSpeedPerSecond g;
     ballDirection := ballDirection g; game_match := game_match g |}.

Definition set_hasFinished (v : bool) (g : Game) : Game :=
  {| playersReady := playersReady g; hasStarted := hasStarted g; hasFinished := v;
     stop := stop g; gamePaused := gamePaused g; scores := scores g;
     objects := objects g; ballSpeedPerSecond := ballSpeedPerSecond g;
     ballDirection := ballDirection g; game_match := game_match g |}.

Definition set_stop (v : bool) (g : Game) : Game :=
  {| playersReady := playersReady g; hasStarted := hasStarted g;
     hasFinished := hasFinished g; stop := v; gamePaused := gamePaused g;
     scores := scores g; objects := objects g;
     ballSpeedPerSecond := ballSpeedPerSecond g;
     ballDirection := ballDirection g; game_match := game_match g |}.

Definition set_gamePaused (v : bool) (g : Game) : Game :=
  {| playersReady := playersReady g; hasStarted := hasStarted g;
     hasFinished := hasFinished g; stop := stop g; gamePaused := v;
     scores := scores g; objects := objects g;
     ballSpeedPerSecond := ballSpeedPerSecond g;
     ballDirection := ballDirection g; game_match := game_match g |}.

Definition set_scores (v : gmap string JsNum) (g : Game) : Game :=
  {| playersReady := playersReady g; hasStarted := hasStarted g;
     hasFinished := hasFinished g; stop := stop g; gamePaused := gamePaused g;
     scores := v; objects := objects g;
     ballSpeedPerSecond := ballSpeedPerSecond g;
     ballDirection := ballDirection g; game_match := game_match g |}.

Definition set_objects (v : option GameObjects) (g : Game) : Game :=
  {| playersReady := playersReady g; hasStarted := hasStarted g;
     hasFinished := hasFinished g; stop := stop g; gamePaused := gamePaused g;
     scores := scores g; objects := v;
     ballSpeedPerSecond := ballSpeedPerSecond g;
     ballDirection := ballDirection g; game_match := game_match g |}.

Definition set_ballSpeedPerSecond (v : Q) (g : Game) : Game :=
  {| playersReady := playersReady g; hasStarted := hasStarted g;
     hasFinished := hasFinished g; stop := stop g; gamePaused := gamePaused g;
     scores := scores g; objects := objects g; ballSpeedPerSecond := v;
     ballDirection := ballDirection g; game_match := game_match g |}.

Definition set_ballDirection (v : Z) (g : Game) : Game :=
  {| playersReady := playersReady g; hasStarted := hasStarted g;
     hasFinished := hasFinished g; stop := stop g; gamePaused := gamePaused g;
     scores := scores g; objects := objects g;
     ballSpeedPerSecond := ballSpeedPerSecond g;
     ballDirection := v; game_match := game_match g |}.

Definition set_game_match (v : option MatchEntity) (g : Game) : Game :=
  {| playersReady := playersReady g; hasStarted := hasStarted g;
     hasFinished := hasFinished g; stop := stop g; gamePaused := gamePaused g;
     scores := scores g; objects := objects g;
     ballSpeedPerSecond := ballSpeedPerSecond g;
     ballDirection := ballDirection g; game_match := v |}.

Definition set_players (v : list AuthenticatedSocket) (l : Lobby) : Lobby :=
  {| lobby_id := lobby_id l; mode := mode l; createdAt := createdAt l;
     players := v; invitedPlayers := invitedPlayers l; instance := instance l |}.

Definition set_invitedPlayers (v : list string) (l : Lobby) : Lobby :=
  {| lobby_id := lobby_id l; mode := mode l; createdAt := createdAt l;
     players := players l; invitedPlayers := v; instance := instance l |}.

Definition set_instance (v : Game) (l : Lobby) : Lobby :=
  {| lobby_id := lobby_id l; mode := mode l; createdAt := createdAt l;
     players := players l; invitedPlayers := invitedPlayers l; instance := v |}.

(** ** The lobby, as far as the engine and the manager use it

    [lobby.ts] is not part of the sources at hand. *)

(** Modelled from the spec: the getter [player1] of [Lobby] is missing; the
    seat map is ordered and the start event carries the first seated player
    as player 1, so it is the first entry of the seat map. *)
Definition player1 (l : Lobby) : option AuthenticatedSocket := players l !! 0%nat.

(** Modelled from the spec: the getter [player2] of [Lobby] is missing; it is
    the second entry of the seat map. *)
Definition player2 (l : Lobby) : option AuthenticatedSocket := players l !! 1%nat.

(** Modelled from the spec: [Lobby.dispatchToLobby] is missing; a broadcast
    sends the event to every currently seated player. *)
Definition dispatchToLobby (ev : ServerEvent) : M Lobby unit :=
  fun l => (Ok tt, l, [ {| recipients := sock_id <$> players l; event := ev |} ]).

(** Modelled from the spec: [Lobby.addPlayer] is missing; it inserts the
    connection into the seat map under its socket id ([Map.set]: a key that
    is already present keeps its place). *)
Definition seat (c : AuthenticatedSocket) (ps : list AuthenticatedSocket)
  : list AuthenticatedSocket :=
  if bool_decide (sock_id c ∈ sock_id <$> ps)
  then (fun p => if bool_decide (sock_id p = sock_id c) then c else p) <$> ps
  else ps ++ [c].

(** Modelled from the spec: [Lobby.removePlayer] is missing; it removes the
    connection's entry from the seat map and does not stop the engine. *)
Definition unseat (c : AuthenticatedSocket) (ps : list AuthenticatedSocket)
  : list AuthenticatedSocket :=
  filter (fun p => sock_id p ≠ sock_id c) ps.

(** Modelled from the spec: the default of the mode in the constructor of
    [Lobby] is missing; a session that matchmaking creates, without naming a
    mode, is in Queued mode. *)
Definition defaultMode : LobbyMode := Queued.

(** [lobby.players.has(key)]. *)
Definition players_has (l : Lobby) (key : string) : bool :=
  bool_decide (key ∈ sock_id <$> players l).

(** [player.emit(event, payload)] for each seated player. *)
Definition emitToPlayers (ev : ServerEvent) : M Lobby unit :=
  fun l => (Ok tt, l,
            (fun p => {| recipients := [sock_id p]; event := ev |}) <$> players l).

(** Reading a property of a value that may be [undefined]. *)
Definition required {S A : Type} (v : option A) : M S A :=
  match v with
  | Some a => ret a
  | None => throw TypeError
  end.

Definition modGame (f : Game -> Game) : M Lobby unit :=
  modify (fun l => set_instance (f (instance l)) l).

Definition getGame : M Lobby Game :=
  fun l => (Ok (instance l), l, []).

Definition getObjects : M Lobby GameObjects :=
  g <- getGame ;; required (objects g).

Definition putObjects (o : GameObjects) : M Lobby unit :=
  modGame (set_objects (Some o)).

(** [this.scores[p?.data.id]]: the property of an absent player is absent. *)
Definition scoreOf (g : Game) (p : option AuthenticatedSocket) : option JsNum :=
  match p with
  | Some s => scores g !! data_id s
  | None => None
  end.

(** ** The engine *)

Inductive PaddleRef : Type := Paddle1 | Paddle2.

(** What [Math.cos(angle)] and [Math.sin(angle)] return for the random
    launch angle of one call of [initializeGameObjects]. *)
Record Launch : Type := {
  launch_cos : Q;
  launch_sin : Q
}.

Section Engine.

Variable cfg : GameConfig.

(** [new Game(...)]: [direction] is the initial random [ballDirection]. *)
Definition newGame (direction : Z) : Game :=
  {| playersReady := ∅; hasStarted := false; hasFinished := false;
     stop := false; gamePaused := false; scores := ∅; objects := None;
     ballSpeedPerSecond := cfg_ballSpeedPerSecond cfg;
     ballDirection := direction; game_match := None |}.

Definition initializeGameObjects (a : Launch) (g : Game) : Game :=
  let p1 :=
    {| paddle_x := cfg_paddleMargin cfg;
       paddle_y := (cfg_height cfg / 2 - cfg_paddleHeight cfg / 2)%Q;
       paddle_width := cfg_paddleWidth cfg;
       paddle_height := cfg_paddleHeight cfg;
       paddle_velocity_y := 0%Q;
       paddle_direction := NONE |} in
  let p2 :=
    {| paddle_x := (cfg_width cfg - cfg_paddleMargin cfg - cfg_paddleWidth cfg)%Q;
       paddle_y := (cfg_height cfg / 2 - cfg_paddleHeight cfg / 2)%Q;
       paddle_width := cfg_paddleWidth cfg;
       paddle_height := cfg_paddleHeight cfg;
       paddle_velocity_y := 0%Q;
       paddle_direction := NONE |} in
  let b :=
    {| ball_x := (cfg_width cfg / 2)%Q;
       ball_y := (cfg_height cfg / 2)%Q;
       ball_radius := cfg_ballRadius cfg;
       ball_velocity_x :=
         (launch_cos a * ballSpeedPerSecond g * inject_Z (ballDirection g))%Q;
       ball_velocity_y := (launch_sin a * ballSpeedPerSecond g)%Q |} in
  set_ballSpeedPerSecond (ballSpeedPerSecond g + cfg_speedUp cfg)%Q
    (set_ballDirection (ballDirection g * -1)
       (set_objects (Some {| paddle1 := p1; paddle2 := p2; ball := b |}) g)).

Definition triggerFinish : M Lobby unit :=
  modGame (set_hasFinished true) ;;;
  l <- get ;;
  let g := instance l in
  let winner :=
    match game_match g with
    | Some m => Some (user_id (match_winner m))
    | None => None
    end in
  dispatchToLobby
    (GameFinish winner (scoreOf g (player1 l)) (scoreOf g (player2 l))).

(** [userService.findOneById] reads the table [users]. *)
Definition getUserById (users : gmap string UserEntity) (id : option string)
  : M Lobby UserEntity :=
  match id ≫= (fun i => users !! i) with
  | Some u => ret u
  | None => throw (WsException "User not found")
  end.

Definition setLoser (users : gmap string UserEntity) (playerId : string)
  : M Lobby UserEntity :=
  l <- get ;;
  winner <- getUserById users
              (if bool_decide (Some playerId = data_id <$> player1 l)
               then data_id <$> player2 l
               else data_id <$> player1 l) ;;
  loser <- getUserById users (Some playerId) ;;
  g <- getGame ;;
  modGame (set_game_match
             (Some {| match_mode := mode l;
                      match_winner := winner;
                      match_loser := loser;
                      match_winnerScore := scores g !! user_id winner;
                      match_loserScore := scores g !! user_id loser |})) ;;;
  ret loser.

Definition checkGameFinish (users : gmap string UserEntity) : M Lobby unit :=
  l <- get ;;
  p1 <- required (player1 l) ;;
  if js_strict_eq (scores (instance l) !! data_id p1) (cfg_maxScore cfg) then
    modGame (set_hasFinished true) ;;;
    p2 <- required (player2 l) ;;
    setLoser users (data_id p2) ;;;
    ret tt
  else
    p2 <- required (player2 l) ;;
    if js_strict_eq (scores (instance l) !! data_id p2) (cfg_maxScore cfg) then
      modGame (set_hasFinished true) ;;;
      setLoser users (data_id p1) ;;;
      ret tt
    else ret tt.

Definition checkPaddleBounds (p : Paddle) : Paddle :=
  if Qltb (paddle_y p) (cfg_paddleMargin cfg) then
    set_paddle_y (cfg_paddleMargin cfg) p
  else if Qgtb (paddle_y p)
               (cfg_height cfg - paddle_height p - cfg_paddleMargin cfg)%Q then
    set_paddle_y (cfg_height cfg - paddle_height p - cfg_paddleMargin cfg)%Q p
  else p.

(** The block that [updatePaddlePosition] runs for each of the two paddles:
    the move in the paddle's direction, then [checkPaddleBounds]. *)
Definition updatePaddle (timeStep : Q) (p : Paddle) : Paddle :=
  checkPaddleBounds
    match paddle_direction p with
    | UP => set_paddle_y (paddle_y p - cfg_paddleSpeedPerSecond cfg * timeStep)%Q p
    | DOWN => set_paddle_y (paddle_y p + cfg_paddleSpeedPerSecond cfg * timeStep)%Q p
    | NONE => p
    end.

Definition updatePaddlePosition (timeStep : Q) (o : GameObjects) : GameObjects :=
  let o1 := set_paddle1 (updatePaddle timeStep (paddle1 o)) o in
  set_paddle2 (updatePaddle timeStep (paddle2 o1)) o1.

Definition updateBallPosition (timeStep : Q) (o : GameObjects) : GameObjects :=
  let b := ball o in
  set_ball
    (set_ball_position (ball_x b + ball_velocity_x b * timeStep)%Q
                       (ball_y b + ball_velocity_y b * timeStep)%Q b) o.

Definition ballCollidesWithPaddle (b : Ball) (p : Paddle) : bool :=
  let halfPaddleWidth := (paddle_width p / 2)%Q in
  let halfPaddleHeight := (paddle_height p / 2)%Q in
  let ballRadius_sq := (ball_radius b * ball_radius b)%Q in
  let distX := (ball_x b - (paddle_x p + halfPaddleWidth))%Q in
  let distY := (ball_y b - (paddle_y p + halfPaddleHeight))%Q in
  let distX_sq := (distX * distX)%Q in
  let distY_sq := (distY * distY)%Q in
  let distWidthRadius := (halfPaddleWidth + ball_radius b)%Q in
  let distHeightRadius := (halfPaddleHeight + ball_radius b)%Q in
  if Qgtb distX_sq (distWidthRadius * distWidthRadius)%Q
     || Qgtb distY_sq (distHeightRadius * distHeightRadius)%Q
  then false
  else if Qle_bool distX_sq (halfPaddleWidth * halfPaddleWidth)%Q
          || Qle_bool distY_sq (halfPaddleHeight * halfPaddleHeight)%Q
  then true
  else
    let cornerDistance_sq :=
      (distX_sq + distY_sq - halfPaddleWidth * halfPaddleWidth
       - halfPaddleHeight * halfPaddleHeight)%Q in
    Qle_bool cornerDistance_sq ballRadius_sq.

(** [speed] is the field [this.ballSpeedPerSecond] of the game. *)
Definition handleBallPaddleCollision (speed : Q) (p : Paddle) (b : Ball) : Ball :=
  let normalizedIntersectionY :=
    ((ball_y b - (paddle_y p + paddle_height p)) / paddle_height p)%Q in
  set_ball_velocity (- ball_velocity_x b)%Q (normalizedIntersectionY * speed)%Q b.

(** The first statement of [handleCollisions]: the paddle the ball moves
    towards is tested, and a hit is resolved. *)
Definition resolvePaddleCollision (speed : Q) (o : GameObjects) : GameObjects :=
  if Qltb (ball_velocity_x (ball o)) 0 && ballCollidesWithPaddle (ball o) (paddle1 o)
  then set_ball (handleBallPaddleCollision speed (paddle1 o) (ball o)) o
  else if Qgtb (ball_velocity_x (ball o)) 0
          && ballCollidesWithPaddle (ball o) (paddle2 o)
  then set_ball (handleBallPaddleCollision speed (paddle2 o) (ball o)) o
  else o.

Definition dispatchScore : M Lobby unit :=
  l <- get ;;
  dispatchToLobby
    (GameScore (scoreOf (instance l) (player1 l)) (scoreOf (instance l) (player2 l))).

Definition incrementScore (id : string) (g : Game) : Game :=
  set_scores (<[id := js_incr (scores g !! id)]> (scores g)) g.

Definition handleScreenBoundsCollision (users : gmap string UserEntity) (a : Launch)
  : M Lobby unit :=
  o <- getObjects ;;
  l <- get ;;
  (if Qle_bool (ball_x (ball o)) (ball_radius (ball o)) then
     p2 <- required (player2 l) ;;
     modGame (incrementScore (data_id p2))
   else
     p1 <- required (player1 l) ;;
     modGame (incrementScore (data_id p1))) ;;;
  modGame (initializeGameObjects a) ;;;
  dispatchScore ;;;
  checkGameFinish users ;;;
  g <- getGame ;;
  if hasFinished g then ret tt
  else modGame (set_gamePaused true).

Definition handleCollisions (users : gmap string UserEntity) (a : Launch)
  : M Lobby unit :=
  o0 <- getObjects ;;
  g <- getGame ;;
  let o := resolvePaddleCollision (ballSpeedPerSecond g) o0 in
  putObjects o ;;;
  let b := ball o in
  if Qle_bool (ball_y b) (ball_radius b)
     || Qgeb (ball_y b) (cfg_height cfg - ball_radius b)%Q
  then
    putObjects
      (set_ball (set_ball_velocity (ball_velocity_x b) (- ball_velocity_y b)%Q b) o)
  else if Qle_bool (ball_x b) (ball_radius b)
          || Qgeb (ball_x b) (cfg_width cfg - ball_radius b)%Q
  then handleScreenBoundsCollision users a
  else ret tt.

Definition updateGameState (users : gmap string UserEntity) (a : Launch)
    (timeStep : Q) : M Lobby unit :=
  o <- getObjects ;;
  putObjects (updatePaddlePosition timeStep o) ;;;
  o <- getObjects ;;
  putObjects (updateBallPosition timeStep o) ;;;
  handleCollisions users a.

Definition sendGameState : M Lobby unit :=
  o <- getObjects ;;
  dispatchToLobby (GameState (paddle1 o) (paddle2 o) (ball o)).

(** [getPaddle] returns a reference to one of the two paddle objects. *)
Definition getPaddle (playerId : string) : M Lobby PaddleRef :=
  l <- get ;;
  p1 <- required (player1 l) ;;
  if bool_decide (playerId = sock_id p1) then ret Paddle1
  else
    p2 <- required (player2 l) ;;
    if bool_decide (playerId = sock_id p2) then ret Paddle2
    else throw (WsException "Paddle not found").

Definition movePaddle (client : AuthenticatedSocket) (direction : PaddleDirection)
  : M Lobby unit :=
  r <- getPaddle (sock_id client) ;;
  o <- getObjects ;;
  match r with
  | Paddle1 => putObjects (set_paddle1 (set_paddle_direction direction (paddle1 o)) o)
  | Paddle2 => putObjects (set_paddle2 (set_paddle_direction direction (paddle2 o)) o)
  end.

(** [countDown(seconds)], the part that runs at the call: the first event,
    and the value of [remainingSeconds] that the interval starts with. *)
Definition countDown (seconds : Z) : M Lobby Z :=
  emitToPlayers (GameCountdown seconds) ;;;
  ret (seconds - 1).

(** One run of the interval callback of [countDown]. The result is [None]
    when the callback cleared the interval and resolved the promise, and
    the next value of [remainingSeconds] otherwise. *)
Definition countdownInterval (remainingSeconds : Z) : M Lobby (option Z) :=
  if remainingSeconds <=? 0 then
    emitToPlayers (GameCountdown 0) ;;;
    ret None
  else
    g <- getGame ;;
    let resolved := stop g in
    emitToPlayers (GameCountdown remainingSeconds) ;;;
    ret (if resolved then None else Some (remainingSeconds - 1)).

(** [triggerStart] up to its [await this.countDown(COUNT_DOWN_TIME)]. Its
    body is in a [try]: whatever it throws is thrown again as a
    [WsException] with the same message. *)
Definition triggerStart (a : Launch) : M Lobby Z :=
  try_catch
    (modGame (initializeGameObjects a) ;;;
     modGame (set_playersReady ∅) ;;;
     l <- get ;;
     modGame (fun g =>
       set_scores (foldl (fun s p => <[data_id p := Num 0]> s) (scores g) (players l))
         g) ;;;
     p1 <- required (player1 l) ;;
     p2 <- required (player2 l) ;;
     o <- getObjects ;;
     dispatchToLobby
       (GameStart (data_id p1) (data_id p2) cfg
          (paddle_x (paddle1 o), paddle_y (paddle1 o))
          (paddle_x (paddle2 o), paddle_y (paddle2 o))
          (ball_x (ball o), ball_y (ball o))) ;;;
     countDown (COUNT_DOWN_TIME cfg))
    (fun error => throw (WsException (error_message error))).

(** ** The engine as a state machine

    [control] is where the asynchronous code of the engine is suspended. *)
Inductive Control : Type :=
| NotStarted
| Starting (remainingSeconds : Z)
| Idle (accumulator : Q)
| InWhile (accumulator : Q)
| Pausing (accumulator : Q) (remainingSeconds : Z)
| Halted
| Crashed.

(** [triggerStart] after its count-down resolved. [roundManager] sets the
    accumulator to 0 and schedules [gameLoop]. *)
Definition triggerStart_resume : M Lobby Control :=
  g <- getGame ;;
  if stop g then ret Halted
  else
    modGame (set_hasStarted true) ;;;
    ret (Idle 0).

(** The count-down of [triggerStart] ticks. *)
Definition startTick (remainingSeconds : Z) : M Lobby Control :=
  r <- countdownInterval remainingSeconds ;;
  match r with
  | Some n => ret (Starting n)
  | None => triggerStart_resume
  end.

(** [gameLoop], from its entry to the [while]. *)
Definition gameLoop (accumulator elapsedTime : Q) : M Lobby Control :=
  g <- getGame ;;
  if hasFinished g || stop g then ret Halted
  else ret (InWhile (accumulator + elapsedTime)).

(** The body of the [while] of [gameLoop], after the pause for a point. *)
Definition afterPause (accumulator : Q) : M Lobby Control :=
  g <- getGame ;;
  if hasFinished g then
    triggerFinish ;;;
    ret Halted
  else
    sendGameState ;;;
    ret (InWhile (accumulator - cfg_timeStep cfg)).

(** One test of the condition of the [while] of [gameLoop]: the body up to
    the [await] of the count-down of a pause, or the end of [gameLoop]. The
    body runs as one piece: the reads of the user service and the write of
    the repository inside [setLoser] are not points where other calls come
    in. *)
Definition whileIteration (users : gmap string UserEntity) (a : Launch)
    (accumulator : Q) : M Lobby Control :=
  if Qgeb accumulator (cfg_timeStep cfg) then
    updateGameState users a (cfg_timeStep cfg) ;;;
    g <- getGame ;;
    if gamePaused g then
      r <- countDown (cfg_pointCountDownDuration cfg) ;;
      ret (Pausing accumulator r)
    else afterPause accumulator
  else
    g <- getGame ;;
    if negb (hasFinished g) && negb (stop g) then ret (Idle accumulator)
    else ret Halted.

(** The count-down of a pause ticks. *)
Definition pauseTick (accumulator : Q) (remainingSeconds : Z) : M Lobby Control :=
  r <- countdownInterval remainingSeconds ;;
  match r with
  | Some n => ret (Pausing accumulator n)
  | None =>
      modGame (set_gamePaused false) ;;;
      afterPause accumulator
  end.

(** What the manager does to a lobby and its engine when a seated player
    leaves ([leaveLobby], [leaveLobbyOrThrow]): the seat is removed, the
    players that remain get a message, and [triggerFinish] is called. *)
Definition departure (client : AuthenticatedSocket) : M Lobby unit :=
  modify (fun l => set_players (unseat client (players l)) l) ;;;
  l <- get ;;
  emit [ {| recipients := sock_id <$> players l;
            event := GameMessage (data_username client ++ " left the lobby") |} ] ;;;
  triggerFinish.

(** What [cleanUpLobbies] does to a lobby that is past its lifetime. *)
Definition expiry : M Lobby unit :=
  dispatchToLobby (GameMessage "Game timed out") ;;;
  triggerFinish.

Record Machine : Type := {
  mlobby : Lobby;
  control : Control
}.

(** The steps of the machine: the callbacks of the engine that the event
    loop runs ([TriggerStart], [CountdownTick], [GameLoop], [WhileIteration],
    with what they draw from the clock, the random generator and the user
    service), and the calls that arrive from outside between two of them:
    [movePaddle], the setting of the public flag [stop], and what the
    manager does to the lobby on a departure and on expiry. Seats are taken
    before the start; the machine has no step that adds a seat. *)
Inductive Action : Type :=
| TriggerStart (a : Launch)
| CountdownTick
| GameLoop (elapsedTime : Q)
| WhileIteration (users : gmap string UserEntity) (a : Launch)
| MovePaddle (client : AuthenticatedSocket) (direction : PaddleDirection)
| SetStop
| Leave (client : AuthenticatedSocket)
| Expire.

(** A callback of the engine: an exception ends the engine's task. *)
Definition callback (c : M Lobby Control) (m : Machine) : Machine * list Emission :=
  match c (mlobby m) with
  | (Ok k, l, out) => ({| mlobby := l; control := k |}, out)
  | (Throw _, l, out) => ({| mlobby := l; control := Crashed |}, out)
  end.

(** A call from outside: an exception goes to the caller, the engine's task
    stays where it is. *)
Definition external (c : M Lobby unit) (m : Machine) : Machine * list Emission :=
  match c (mlobby m) with
  | (_, l, out) => ({| mlobby := l; control := control m |}, out)
  end.

(** Outside calls run between two callbacks, never inside the synchronous
    [while] of [gameLoop]. *)
Definition interruptible (k : Control) : bool :=
  match k with
  | InWhile _ => false
  | _ => true
  end.

Definition step (m : Machine) (act : Action) : option (Machine * list Emission) :=
  match act, control m with
  | TriggerStart a, NotStarted =>
      Some (callback (r <- triggerStart a ;; ret (Starting r)) m)
  | CountdownTick, Starting n => Some (callback (startTick n) m)
  | CountdownTick, Pausing acc n => Some (callback (pauseTick acc n) m)
  | GameLoop elapsedTime, Idle acc => Some (callback (gameLoop acc elapsedTime) m)
  | WhileIteration users a, InWhile acc => Some (callback (whileIteration users a acc) m)
  | MovePaddle client direction, k =>
      if interruptible k then Some (external (movePaddle client direction) m) else None
  | SetStop, k =>
      if interruptible k then Some (external (modGame (set_stop true)) m) else None
  | Leave client, k =>
      if interruptible k && players_has (mlobby m) (sock_id client)
      then Some (external (departure client) m) else None
  | Expire, k =>
      if interruptible k then Some (external expiry m) else None
  | _, _ => None
  end.

(** A run: the machine after a list of actions, with all that was sent. *)
Fixpoint exec (m : Machine) (acts : list Action) : option (Machine * list Emission) :=
  match acts with
  | [] => Some (m, [])
  | act :: rest =>
      match step m act with
      | Some (m1, out1) =>
          match exec m1 rest with
          | Some (m2, out2) => Some (m2, out1 ++ out2)
          | None => None
          end
      | None => None
      end
  end.

(** An action that ends the match from outside. *)
Definition forced (act : Action) : bool :=
  match act with
  | Leave _ => true
  | Expire => true
  | _ => false
  end.

(** A lobby as the manager creates it, before any start of its engine. *)
Definition freshLobby (l : Lobby) : Prop :=
  exists direction, instance l = newGame direction.

Definition initial (l : Lobby) : Machine :=
  {| mlobby := l; control := NotStarted |}.

End Engine.

(** ** The earlier revision of the engine

    The source file also holds an earlier revision of the class [Game]. It
    resolves a hit on a paddle with the method [handlePaddleCollision],
    which measures the point of impact from the centre of the paddle and
    uses the ball speed of the configuration. *)
Module Earlier.


End Earlier.

(** ** The lobby manager *)

(** The state that the manager's methods read and write. Lobbies are shared
    objects: [heap] holds them under their reference (their id), the registry
    [lobbies] (the keys of the [Map], in insertion order) and the
    back-references [dataLobby] ([client.data.lobby], by socket id) both point
    into it. [userTable] is what the user service finds. *)
Record State : Type := {
  playerQueue : list AuthenticatedSocket;
  lobbies : list string;
  heap : gmap string Lobby;
  dataLobby : gmap string string;
  userTable : gmap string UserEntity
}.

Definition set_playerQueue (v : list AuthenticatedSocket) (st : State) : State :=
  {| playerQueue := v; lobbies := lobbies st; heap := heap st;
     dataLobby := dataLobby st; userTable := userTable st |}.

Definition set_lobbies (v : list string) (st : State) : State :=
  {| playerQueue := playerQueue st; lobbies := v; heap := heap st;
     dataLobby := dataLobby st; userTable := userTable st |}.

Definition set_heap (v : gmap string Lobby) (st : State) : State :=
  {| playerQueue := playerQueue st; lobbies := lobbies st; heap := v;
     dataLobby := dataLobby st; userTable := userTable st |}.

Definition set_dataLobby (v : gmap string string) (st : State) : State :=
  {| playerQueue := playerQueue st; lobbies := lobbies st; heap := heap st;
     dataLobby := v; userTable := userTable st |}.

(** What the constructor of a lobby draws: the generated id, the clock, and
    the random first direction of the ball of its engine. *)
Record Fresh : Type := {
  fresh_id : string;
  fresh_createdAt : Z;
  fresh_ballDirection : Z
}.

(** Modelled from the spec: the helper [userIdInList] of [src/shared/list] is
    missing; it tells whether a list of users holds the user with this id. *)
Definition userIdInList (list : list string) (id : string) : bool :=
  bool_decide (id ∈ list).

Section Manager.

Variable cfg : GameConfig.

(** Modelled from the spec: the constructor of [Lobby] is missing; a session
    has a generated id, a creation timestamp, no seated player, an empty
    invite list and one engine. *)
Definition newLobby (f : Fresh) (m : LobbyMode) : Lobby :=
  {| lobby_id := fresh_id f; mode := m; createdAt := fresh_createdAt f;
     players := []; invitedPlayers := [];
     instance := newGame cfg (fresh_ballDirection f) |}.

(** A method of the lobby behind the reference [ref]. *)
Definition onLobby {A : Type} (ref : string) (c : M Lobby A) : M State A :=
  fun st =>
    match heap st !! ref with
    | Some l =>
        match c l with
        | (r, l1, out) => (r, set_heap (<[ref := l1]> (heap st)) st, out)
        end
    | None => (Throw TypeError, st, [])
    end.

(** [this.lobbies.get(id)], [.set(id, lobby)] and [.delete(id)]. *)
Definition lobbies_get (st : State) (id : string) : option Lobby :=
  if bool_decide (id ∈ lobbies st) then heap st !! id else None.

Definition lobbies_set (l : Lobby) : M State unit :=
  modify (fun st =>
    set_heap (<[lobby_id l := l]> (heap st))
      (set_lobbies (if bool_decide (lobby_id l ∈ lobbies st) then lobbies st
                    else lobbies st ++ [lobby_id l]) st)).

Definition lobbies_delete (id : string) : M State unit :=
  modify (fun st => set_lobbies (filter (fun i => i ≠ id) (lobbies st)) st).

(** Modelled from the spec: [Lobby.addPlayer] is missing; it seats the
    connection and stores the back-reference on its connection data. *)
Definition addPlayer (ref : string) (client : AuthenticatedSocket) : M State unit :=
  onLobby ref (modify (fun l => set_players (seat client (players l)) l)) ;;;
  modify (fun st => set_dataLobby (<[sock_id client := ref]> (dataLobby st)) st).

Fixpoint forEach {A : Type} (f : A -> M State unit) (l : list A) : M State unit :=
  match l with
  | [] => ret tt
  | a :: rest => f a ;;; forEach f rest
  end.

(** Modelled from the spec: [Lobby.removePlayer] is missing; besides taking
    the seat away ([unseat], the first step of [departure]) it drops the
    back-reference that [addPlayer] stored on the connection data, so that
    a connection is held to be seated in one session at most. *)
Definition dropBackReference (client : AuthenticatedSocket) : M State unit :=
  modify (fun st => set_dataLobby (delete (sock_id client) (dataLobby st)) st).

(** The lines that [leaveLobby] and [leaveLobbyOrThrow] share, for a client
    seated in the registered lobby [ref]: [removePlayer], the message,
    [triggerFinish], and the removal of a lobby without players. *)
Definition leaveSeat (ref : string) (client : AuthenticatedSocket) : M State unit :=
  dropBackReference client ;;;
  onLobby ref (departure client) ;;;
  st <- get ;;
  match heap st !! ref with
  | Some l => if bool_decide (length (players l) = 0%nat)
              then lobbies_delete (lobby_id l)
              else ret tt
  | None => ret tt
  end.

Definition leaveLobbyOrThrow (client : AuthenticatedSocket) : M State unit :=
  st <- get ;;
  match dataLobby st !! sock_id client with
  | None => throw (WsException "You are not in a lobby")
  | Some ref =>
      match lobbies_get st ref with
      | None => throw (WsException "Lobby not found")
      | Some lobby =>
          if negb (players_has lobby (sock_id client))
          then throw (WsException "You are not in this lobby")
          else leaveSeat ref client
      end
  end.

Definition leaveLobby (client : AuthenticatedSocket) : M State unit :=
  st <- get ;;
  match dataLobby st !! sock_id client with
  | None => ret tt
  | Some ref =>
      match lobbies_get st ref with
      | None => ret tt
      | Some lobby =>
          if negb (players_has lobby (sock_id client)) then ret tt
          else leaveSeat ref client
      end
  end.

Definition inviteToLobby (client : AuthenticatedSocket) (userId : string)
  : M State unit :=
  if bool_decide (data_id client = userId)
  then throw (WsException "You cannot invite yourself")
  else
    st <- get ;;
    match dataLobby st !! sock_id client with
    | None => throw (WsException "You are not in a lobby")
    | Some ref =>
        lobby <- required (heap st !! ref) ;;
        if bool_decide (MAX_PLAYERS <= length (players lobby))%nat
        then throw (WsException "Lobby already full")
        else if players_has lobby userId
        then throw (WsException "User already in this lobby")
        else if bool_decide (userId ∈ invitedPlayers lobby)
        then throw (WsException "User already invited")
        else
          match userTable st !! userId with
          | None => throw (WsException "User not found")
          | Some user =>
              if userIdInList (blockedUsers user) (data_id client)
              then throw (WsException "You cannot invite this user")
              else
                onLobby ref (modify (fun l =>
                  set_invitedPlayers (invitedPlayers l ++ [user_id user]) l)) ;;;
                emit [ {| recipients := [user_id user];
                          event := InviteToLobby (data_id client) (lobby_id lobby) |} ]
          end
    end.

(** The scan of [inviteToLobbyThroughChat]: the first registered lobby, in
    the order of the registry, where a seated connection has this user id. *)
Definition findLobbyOfUser (st : State) (userId : string) : option string :=
  List.find
    (fun ref =>
       match heap st !! ref with
       | Some l => bool_decide (userId ∈ data_id <$> players l)
       | None => false
       end)
    (lobbies st).

Definition inviteToLobbyThroughChat (user : UserEntity) (invitedUserId : string)
  : M State string :=
  if bool_decide (user_id user = invitedUserId)
  then throw (WsException "You cannot invite yourself")
  else
    st <- get ;;
    match findLobbyOfUser st (user_id user) with
    | None => throw (WsException "You are not in a lobby")
    | Some ref =>
        lobby <- required (heap st !! ref) ;;
        if bool_decide (MAX_PLAYERS <= length (players lobby))%nat
        then throw (WsException "Lobby already full")
        else if players_has lobby invitedUserId
        then throw (WsException "User already in this lobby")
        else if bool_decide (invitedUserId ∈ invitedPlayers lobby)
        then throw (WsException "User already invited")
        else if userIdInList (blockedUsers user) (user_id user)
        then throw (WsException "You cannot invite this user")
        else
          onLobby ref (modify (fun l =>
            set_invitedPlayers (invitedPlayers l ++ [user_id user]) l)) ;;;
          ret (lobby_id lobby)
    end.

(** The lobby is built by [new Lobby(server, userService, chatGateway)],
    without a mode. *)
Definition tryToCreateLobby (f : Fresh) : M State unit :=
  st <- get ;;
  if bool_decide (length (playerQueue st) < MAX_PLAYERS)%nat then ret tt
  else
    let lobby := newLobby f defaultMode in
    lobbies_set lobby ;;;
    modify (set_playerQueue (drop MAX_PLAYERS (playerQueue st))) ;;;
    forEach (addPlayer (lobby_id lobby)) (take MAX_PLAYERS (playerQueue st)).

Definition addPlayerToQueue (f : Fresh) (client : AuthenticatedSocket)
  : M State unit :=
  st <- get ;;
  if bool_decide (is_Some (dataLobby st !! sock_id client))
  then throw (WsException "You are already in a lobby, leave it first")
  else if bool_decide (client ∈ playerQueue st)
  then throw (WsException "You are already in queue")
  else
    modify (fun st => set_playerQueue (playerQueue st ++ [client]) st) ;;;
    tryToCreateLobby f.

(** The body of the loop of [cleanUpLobbies] for one registered lobby;
    [now] is the clock of the sweep. *)
Definition cleanUpLobby (now : Z) (ref : string) : M State unit :=
  st <- get ;;
  match lobbies_get st ref with
  | None => ret tt
  | Some lobby =>
      let lobbyLifetime := now - createdAt lobby in
      if lobbyLifetime >? LOBBY_MAX_LIFETIME cfg then
        onLobby ref expiry ;;;
        lobbies_delete (lobby_id lobby)
      else ret tt
  end.

Definition cleanUpLobbies (now : Z) : M State unit :=
  st <- get ;;
  forEach (cleanUpLobby now) (lobbies st).

(** [new Lobby(..., LobbyMode.Custom)], registered and with the caller
    seated. The result is the reference of the lobby. *)
Definition createLobby (f : Fresh) (client : AuthenticatedSocket)
  : M State string :=
  st <- get ;;
  if bool_decide (is_Some (dataLobby st !! sock_id client))
  then throw (WsException "You are already in a lobby, leave it first")
  else if bool_decide (client ∈ playerQueue st)
  then throw (WsException "You are in queue, please leave queue first")
  else
    let lobby := newLobby f Custom in
    lobbies_set lobby ;;;
    addPlayer (lobby_id lobby) client ;;;
    ret (lobby_id lobby).

Definition joinLobby (client : AuthenticatedSocket) (lobbyId : string)
  : M State unit :=
  st <- get ;;
  if bool_decide (is_Some (dataLobby st !! sock_id client))
  then throw (WsException "You are already in a lobby")
  else if bool_decide (client ∈ playerQueue st)
  then throw (WsException "You are in queue, please leave queue first")
  else
    match lobbies_get st lobbyId with
    | None => throw (WsException "Lobby not found")
    | Some lobby =>
        if bool_decide (mode lobby = Custom)
           && negb (bool_decide (data_id client ∈ invitedPlayers lobby))
        then throw (WsException "You are not invited to this lobby")
        else if bool_decide (MAX_PLAYERS <= length (players lobby))%nat
        then throw (WsException "Lobby already full")
        else if players_has lobby (sock_id client)
        then throw (WsException "You are already in this lobby")
        else addPlayer lobbyId client
    end.

(** [this.playerQueue.findIndex((player) => player.id === client.id)];
    [None] is the result -1. *)
Definition findIndex (client : AuthenticatedSocket) (queue : list AuthenticatedSocket)
  : option nat :=
  fst <$> list_find (fun player => sock_id player = sock_id client) queue.

Definition removePlayerFromQueueOrThrow (client : AuthenticatedSocket)
  : M State unit :=
  st <- get ;;
  match findIndex client (playerQueue st) with
  | None => throw (WsException "You are not in queue")
  | Some index =>
      modify (fun st => set_playerQueue (delete index (playerQueue st)) st)
  end.

Definition removePlayerFromQueue (client : AuthenticatedSocket) : M State unit :=
  st <- get ;;
  match findIndex client (playerQueue st) with
  | None => ret tt
  | Some index =>
      modify (fun st => set_playerQueue (delete index (playerQueue st)) st)
  end.

(** ** Requests to the manager *)

(** One call of a public method of the manager, with what it draws. *)
Inductive Command : Type :=
| CallCreateLobby (f : Fresh) (client : AuthenticatedSocket)
| CallJoinLobby (client : AuthenticatedSocket) (lobbyId : string)
| CallLeaveLobbyOrThrow (client : AuthenticatedSocket)
| CallLeaveLobby (client : AuthenticatedSocket)
| CallInviteToLobby (client : AuthenticatedSocket) (userId : string)
| CallInviteToLobbyThroughChat (user : UserEntity) (invitedUserId : string)
| CallAddPlayerToQueue (f : Fresh) (client : AuthenticatedSocket)
| CallRemovePlayerFromQueueOrThrow (client : AuthenticatedSocket)
| CallRemovePlayerFromQueue (client : AuthenticatedSocket)
| CallCleanUpLobbies (now : Z).

Definition perform (c : Command) : M State unit :=
  match c with
  | CallCreateLobby f client => createLobby f client ;;; ret tt
  | CallJoinLobby client lobbyId => joinLobby client lobbyId
  | CallLeaveLobbyOrThrow client => leaveLobbyOrThrow client
  | CallLeaveLobby client => leaveLobby client
  | CallInviteToLobby client userId => inviteToLobby client userId
  | CallInviteToLobbyThroughChat user invitedUserId =>
      inviteToLobbyThroughChat user invitedUserId ;;; ret tt
  | CallAddPlayerToQueue f client => addPlayerToQueue f client
  | CallRemovePlayerFromQueueOrThrow client => removePlayerFromQueueOrThrow client
  | CallRemovePlayerFromQueue client => removePlayerFromQueue client
  | CallCleanUpLobbies now => cleanUpLobbies now
  end.

(** What happens at the manager: a request, or a step of the engine of the
    lobby behind [ref], suspended at [k]. What the manager does to a lobby
    on a departure and on expiry belongs to the requests. *)
Inductive Event : Type :=
| Request (c : Command)
| EngineStep (ref : string) (k : Control) (act : Action).

(** An exception of a request goes to its caller; the manager goes on. *)
Definition occur (ev : Event) (st : State)
  : State * list Emission :=
  match ev with
  | Request c =>
      match perform c st with
      | (_, st1, out) => (st1, out)
      end
  | EngineStep ref k act =>
      match heap st !! ref with
      | Some l =>
          if forced act then (st, [])
          else
            match step cfg {| mlobby := l; control := k |} act with
            | Some (m, out) => (set_heap (<[ref := mlobby m]> (heap st)) st, out)
            | None => (st, [])
            end
      | None => (st, [])
      end
  end.

(** The events are served one after the other. *)
Fixpoint serve (evs : list Event) (st : State)
  : State * list Emission :=
  match evs with
  | [] => (st, [])
  | ev :: rest =>
      match occur ev st with
      | (st1, out1) =>
          match serve rest st1 with
          | (st2, out2) => (st2, out1 ++ out2)
          end
      end
  end.

(** The manager as it is constructed: no lobby, nobody in the queue. *)
Definition emptyManager (users : gmap string UserEntity) : State :=
  {| playerQueue := []; lobbies := []; heap := ∅; dataLobby := ∅;
     userTable := users |}.

End Manager.

(** ** Properties of traces *)

(** Nothing follows a finish event: every emission of the trace that has a
    successor is not a finish event. *)
Definition finishIsLast (trace : list Emission) : Prop :=
  forall before e after,
    trace = before ++ e :: after -> isFinish e = true -> after = [].

(** The score of a user id is an integer between 0 and the upper bound. *)
Definition scoreWithin (g : Game) (bound : Z) : Prop :=
  forall u v, scores g !! u = Some v -> exists n, v = Num n /\ 0 <= n <= bound.

(** Some player's score equals the maximal score. *)
Definition someScoreIsMax (cfg : GameConfig) (g : Game) : Prop :=
  exists u, scores g !! u = Some (Num (cfg_maxScore cfg)).

(** The score of every user id did not decrease from [g] to [g']. *)
Definition scoresMonotone (g g' : Game) : Prop :=
  forall u n, scores g !! u = Some (Num n) ->
    exists n', scores g' !! u = Some (Num n') /\ n <= n'.

(** ** A configuration and a lobby to compute with *)

Module Sample.

Definition cfg : GameConfig :=
  {| cfg_width := 800; cfg_height := 600; cfg_paddleMargin := 10;
     cfg_paddleWidth := 10; cfg_paddleHeight := 80;
     cfg_paddleSpeedPerSecond := 300; cfg_ballRadius := 5;
     cfg_ballSpeedPerSecond := 300; cfg_speedUp := 20;
     cfg_timeStep := 1 # 60; cfg_maxScore := 11;
     cfg_pointCountDownDuration := 3; COUNT_DOWN_TIME := 5;
     LOBBY_MAX_LIFETIME := 3600000 |}.

Definition alice : AuthenticatedSocket :=
  {| sock_id := "socket-a"; data_id := "alice"; data_username := "Alice" |}.

Definition bob : AuthenticatedSocket :=
  {| sock_id := "socket-b"; data_id := "bob"; data_username := "Bob" |}.

Definition carol : AuthenticatedSocket :=
  {| sock_id := "socket-c"; data_id := "carol"; data_username := "Carol" |}.

Definition paddle (vx vy : Q) (d : PaddleDirection) : Paddle :=
  {| paddle_x := vx; paddle_y := vy; paddle_width := 10; paddle_height := 80;
     paddle_velocity_y := 0; paddle_direction := d |}.

(** The ball next to the left paddle, at the height of its centre. *)
Definition ballAtCentre : Ball :=
  {| ball_x := 25; ball_y := 300; ball_radius := 5;
     ball_velocity_x := - (300); ball_velocity_y := 40 |}.

Definition ballAtY (vy : Q) : Ball :=
  set_ball_position 25 vy ballAtCentre.


Definition someObjects (b : Ball) : GameObjects :=
  {| paddle1 := paddle 10 260 UP; paddle2 := paddle 780 260 DOWN; ball := b |}.

(** A lobby of matchmaking with Alice and Bob seated, before the start. *)
Definition lobby : Lobby :=
  {| lobby_id := "lobby-1"; mode := Queued; createdAt := 1000;
     players := [alice; bob]; invitedPlayers := [];
     instance := newGame cfg 1 |}.

(** The same lobby with its objects placed. *)
Definition lobbyWith (b : Ball) : Lobby :=
  set_instance (set_objects (Some (someObjects b)) (instance lobby)) lobby.

Definition dave : AuthenticatedSocket :=
  {| sock_id := "socket-d"; data_id := "dave"; data_username := "Dave" |}.

Definition erin : AuthenticatedSocket :=
  {| sock_id := "socket-e"; data_id := "erin"; data_username := "Erin" |}.

Definition frank : AuthenticatedSocket :=
  {| sock_id := "socket-f"; data_id := "frank"; data_username := "Frank" |}.

Definition user (id : string) (blocked : list string) : UserEntity :=
  {| user_id := id; blockedUsers := blocked |}.

(** A custom lobby where Carol sits alone. *)
Definition customLobby : Lobby :=
  {| lobby_id := "lobby-2"; mode := Custom; createdAt := 2000;
     players := [carol]; invitedPlayers := [];
     instance := newGame cfg (-1) |}.

(** Two registered lobbies; Dave, Erin and Frank wait in the queue; Dave
    has blocked Carol. *)
Definition state : State :=
  {| playerQueue := [dave; erin; frank];
     lobbies := ["lobby-1"; "lobby-2"];
     heap := <["lobby-1" := lobby]> (<["lobby-2" := customLobby]> ∅);
     dataLobby := <["socket-a" := "lobby-1"]>
                    (<["socket-b" := "lobby-1"]> (<["socket-c" := "lobby-2"]> ∅));
     userTable := <["alice" := user "alice" []]>
                    (<["bob" := user "bob" []]>
                       (<["carol" := user "carol" []]>
                          (<["dave" := user "dave" ["carol"]]> ∅))) |}.

Definition fresh : Fresh :=
  {| fresh_id := "lobby-3"; fresh_createdAt := 3000; fresh_ballDirection := 1 |}.

(** A configuration with a time step so long that the first step carries the
    ball across the goal line, and a match of one point. *)
Definition quickCfg : GameConfig :=
  {| cfg_width := 800; cfg_height := 600; cfg_paddleMargin := 10;
     cfg_paddleWidth := 10; cfg_paddleHeight := 80;
     cfg_paddleSpeedPerSecond := 300; cfg_ballRadius := 5;
     cfg_ballSpeedPerSecond := 300; cfg_speedUp := 20;
     cfg_timeStep := 2; cfg_maxScore := 1;
     cfg_pointCountDownDuration := 3; COUNT_DOWN_TIME := 2;
     LOBBY_MAX_LIFETIME := 3600000 |}.

(** A launch along the horizontal. *)
Definition straight : Launch := {| launch_cos := 1; launch_sin := 0 |}.

(** The start, the two ticks of its count-down, one entry of the loop and
    one pass of its [while]: Alice scores and the match of one point ends. *)
Definition quickRun : list Action :=
  [ TriggerStart straight; CountdownTick; CountdownTick; GameLoop 2;
    WhileIteration (userTable state) straight ].

End Sample.

(** ** A run of the manager to compute with *)

Module SampleRun.

Definition second : Fresh :=
  {| fresh_id := "lobby-4"; fresh_createdAt := 4000; fresh_ballDirection := -1 |}.

(** Dave and Erin are matched from the queue; Carol creates a lobby and
    invites Frank, who joins it; Alice is refused there; the engine of the
    first lobby starts; Dave leaves; a sweep runs after the lifetime of
    both lobbies. *)
Definition events : list Event :=
  [ Request (CallAddPlayerToQueue Sample.fresh Sample.dave);
    Request (CallAddPlayerToQueue Sample.fresh Sample.erin);
    Request (CallCreateLobby second Sample.carol);
    Request (CallInviteToLobby Sample.carol "frank");
    Request (CallJoinLobby Sample.frank "lobby-4");
    Request (CallJoinLobby Sample.alice "lobby-4");
    EngineStep "lobby-3" NotStarted (TriggerStart Sample.straight);
    Request (CallLeaveLobby Sample.dave);
    Request (CallCleanUpLobbies 3700000) ].

Definition users : gmap string UserEntity :=
  <["frank" := Sample.user "frank" []]> (userTable Sample.state).

End SampleRun.

(** ** A lobby in the middle of a match to compute with *)

Module SampleMatch.

(** The ball just before the left goal line, moving left. *)
Definition ballOut : Ball := set_ball_position 6 300 Sample.ballAtCentre.

(** The lobby of Alice and Bob, with the scores [a] and [b]. *)
Definition lobby (a b : Z) : Lobby :=
  set_instance
    (set_scores (<["alice" := Num a]> (<["bob" := Num b]> ∅))
       (instance (Sample.lobbyWith ballOut))) (Sample.lobbyWith ballOut).

End SampleMatch.

(** ** Notions used in the properties *)

(** The clamp interval of a paddle is not empty: the paddle and its two
    margins fit in the height of the field. *)
Definition paddleFits (cfg : GameConfig) (p : Paddle) : Prop :=
  (cfg_paddleMargin cfg <= cfg_height cfg - paddle_height p - cfg_paddleMargin cfg)%Q.

(** The paddle lies between the two margins of the field. *)
Definition paddleInBounds (cfg : GameConfig) (p : Paddle) : Prop :=
  (cfg_paddleMargin cfg <= paddle_y p)%Q /\
  (paddle_y p <= cfg_height cfg - paddle_height p - cfg_paddleMargin cfg)%Q.

(** The lobby after [departure], and the two events that it sends. *)
Definition departed (client : AuthenticatedSocket) (l : Lobby) : Lobby :=
  set_instance (set_hasFinished true (instance l))
    (set_players (unseat client (players l)) l).

(** The message to the players that remain, then the finish event. *)
Definition departureEvents (client : AuthenticatedSocket) (l : Lobby)
  : list Emission :=
  [ {| recipients := sock_id <$> unseat client (players l);
       event := GameMessage (data_username client ++ " left the lobby") |};
    {| recipients := sock_id <$> unseat client (players l);
       event :=
         GameFinish
           match game_match (instance l) with
           | Some m => Some (user_id (match_winner m))
           | None => None
           end
           (scoreOf (instance l) (player1 (departed client l)))
           (scoreOf (instance l) (player2 (departed client l))) |} ].

(** A relation between the state before, the state after and the output of a
    computation that every computation built from steps in it stays in. *)
Class Closed {S : Type} (R : S -> S -> list Emission -> Prop) : Prop := {
  closed_refl : forall s, R s s [];
  closed_trans : forall s s1 s2 o1 o2, R s s1 o1 -> R s1 s2 o2 -> R s s2 (o1 ++ o2)
}.

(** The computation [c] stays in [R], from every state. *)
Definition within {S A : Type} (R : S -> S -> list Emission -> Prop) (c : M S A) : Prop :=
  forall s, R s (c s).1.2 (c s).2.

(** Nothing that is sent is a finish event. *)
Definition noFinish (out : list Emission) : Prop :=
  Forall (fun e => isFinish e = false) out.

(** [noFinish] as a relation of computations on a lobby. *)
Definition sendsNoFinish (l l' : Lobby) (out : list Emission) : Prop := noFinish out.

(** The seats, the scores and the finished flag are as before. *)
Definition quiet (l l' : Lobby) (out : list Emission) : Prop :=
  players l' = players l
  /\ scores (instance l') = scores (instance l)
  /\ hasFinished (instance l') = hasFinished (instance l).

(** Nothing is sent. *)
Definition silent (l l' : Lobby) (out : list Emission) : Prop := out = [].

(** The last emission is a finish event, and the only one. *)
Definition finishAtEnd (out : list Emission) : Prop :=
  exists pre e, out = pre ++ [e] /\ noFinish pre /\ isFinish e = true.

(** A callback sends a finish event only as its last emission, and then
    the engine halts. *)
Definition haltsOnFinish (x : Res Control * Lobby * list Emission) : Prop :=
  noFinish x.2 \/ (x.1.1 = Ok Halted /\ finishAtEnd x.2).

(** What [checkGameFinish] may do: it leaves seats and scores, it never
    clears the finished flag, it sets it only when a score is the maximum,
    and it does set it when the score of player 1 or 2 is the maximum. *)
Definition finishChecked (cfg : GameConfig) (l l' : Lobby) : Prop :=
  players l' = players l
  /\ scores (instance l') = scores (instance l)
  /\ (hasFinished (instance l) = true -> hasFinished (instance l') = true)
  /\ (hasFinished (instance l') = true ->
      hasFinished (instance l) = true \/ someScoreIsMax cfg (instance l))
  /\ (forall p, player1 l = Some p \/ player2 l = Some p ->
      (exists q, player2 l = Some q) ->
      scores (instance l) !! data_id p = Some (Num (cfg_maxScore cfg)) ->
      hasFinished (instance l') = true)
  /\ (forall p, player1 l = Some p ->
      scores (instance l) !! data_id p = Some (Num (cfg_maxScore cfg)) ->
      hasFinished (instance l') = true).

(** A relation on lobbies that a computation stays in, from every state. *)
Definition reaches {A : Type} (R : Lobby -> Lobby -> Prop) (c : M Lobby A) : Prop :=
  forall l, R l (c l).1.2.

(** Relations that a quiet computation before or after does not leave. *)
Class Absorbs (R : Lobby -> Lobby -> Prop) : Prop := {
  absorbs_quiet : forall l l' out, quiet l l' out -> R l l';
  absorbs_left : forall l l1 l2 out, quiet l l1 out -> R l1 l2 -> R l l2;
  absorbs_right : forall l l1 l2 out, R l l1 -> quiet l1 l2 out -> R l l2
}.

(** What [handleScreenBoundsCollision] may do: nothing to seats, scores and
    the finished flag (when it throws at once), or one more point for a
    seated player, followed by [checkGameFinish]. *)
Definition pointScored (cfg : GameConfig) (l l' : Lobby) : Prop :=
  players l' = players l
  /\ ((scores (instance l') = scores (instance l)
       /\ hasFinished (instance l') = hasFinished (instance l))
      \/ exists p,
          p ∈ players l
          /\ scores (instance l') =
               <[data_id p := js_incr (scores (instance l) !! data_id p)]>
                 (scores (instance l))
          /\ (hasFinished (instance l) = true -> hasFinished (instance l') = true)
          /\ (hasFinished (instance l') = true ->
               hasFinished (instance l) = true \/ someScoreIsMax cfg (instance l'))
          /\ (scores (instance l') !! data_id p = Some (Num (cfg_maxScore cfg)) ->
               hasFinished (instance l') = true)).

(** A callback that hands over to the [while] leaves the game unfinished,
    and no callback goes back to the state before the start. *)
Definition resumes (x : Res Control * Lobby * list Emission) : Prop :=
  (forall acc, x.1.1 = Ok (InWhile acc) -> hasFinished (instance x.1.2) = false)
  /\ x.1.1 <> Ok NotStarted.

(** Every seated player has a score. *)
Definition seatedScores (l : Lobby) : Prop :=
  forall p, p ∈ players l -> is_Some (scores (instance l) !! data_id p).

(** The invariant of the machine: the scores are integers within bounds; a
    maximal score comes with the finished flag; once started and while not
    finished, every seated player has a score; the [while] runs on an
    unfinished game only; before the start there is no score. *)
Definition Inv (cfg : GameConfig) (m : Machine) : Prop :=
  let g := instance (mlobby m) in
  scoreWithin g (cfg_maxScore cfg)
  /\ (someScoreIsMax cfg g -> hasFinished g = true)
  /\ (hasFinished g = false -> control m ≠ NotStarted -> seatedScores (mlobby m))
  /\ (forall acc, control m = InWhile acc -> hasFinished g = false)
  /\ (control m = NotStarted -> scores g = ∅).

(** The finished flag is set by a score only. *)
Definition Unforced (cfg : GameConfig) (m : Machine) : Prop :=
  hasFinished (instance (mlobby m)) = true -> someScoreIsMax cfg (instance (mlobby m)).

(** The state in which [triggerStart] has reset the scores. *)
Definition started (cfg : GameConfig) (a : Launch) (l : Lobby) : Lobby :=
  set_instance
    (set_scores
       (foldl (fun s p => <[data_id p := Num 0]> s)
          (scores (instance l)) (players l))
       (set_playersReady ∅ (initializeGameObjects cfg a (instance l)))) l.

(** The vertical position and the height of the two paddles. *)
Definition paddleGeometry (o : GameObjects) : (Q * Q) * (Q * Q) :=
  ((paddle_y (paddle1 o), paddle_height (paddle1 o)),
   (paddle_y (paddle2 o), paddle_height (paddle2 o))).

(** The paddles as [initializeGameObjects] places them. *)
Definition paddlesPlaced (cfg : GameConfig) (o : GameObjects) : Prop :=
  paddleGeometry o =
    (((cfg_height cfg / 2 - cfg_paddleHeight cfg / 2)%Q, cfg_paddleHeight cfg),
     ((cfg_height cfg / 2 - cfg_paddleHeight cfg / 2)%Q, cfg_paddleHeight cfg)).

(** The paddles are where they were, or where [initializeGameObjects] places
    them. *)
Definition keepsPaddles (cfg : GameConfig) (l l' : Lobby) (out : list Emission) : Prop :=
  forall o', objects (instance l') = Some o' ->
    (exists o, objects (instance l) = Some o /\ paddleGeometry o' = paddleGeometry o)
    \/ paddlesPlaced cfg o'.

(** The configuration leaves room for a paddle between its two margins. *)
Definition fieldFits (cfg : GameConfig) : Prop :=
  (cfg_paddleMargin cfg
   <= cfg_height cfg - cfg_paddleHeight cfg - cfg_paddleMargin cfg)%Q.

(** The paddles of the game, when placed, have the height of the
    configuration and lie between the margins. *)
Definition paddlesOK (cfg : GameConfig) (l : Lobby) : Prop :=
  forall o, objects (instance l) = Some o ->
    (paddle_height (paddle1 o) = cfg_paddleHeight cfg
     /\ paddle_height (paddle2 o) = cfg_paddleHeight cfg)
    /\ paddleInBounds cfg (paddle1 o) /\ paddleInBounds cfg (paddle2 o).

(** The two paddles, when placed, have the height of the configuration. *)
Definition paddlesSized (cfg : GameConfig) (l : Lobby) : Prop :=
  forall o, objects (instance l) = Some o ->
    paddle_height (paddle1 o) = cfg_paddleHeight cfg
    /\ paddle_height (paddle2 o) = cfg_paddleHeight cfg.

(** ** Notions used in the properties of the manager *)

(** The connections that a request names. *)
Definition clientsOf (ev : Event) : list AuthenticatedSocket :=
  match ev with
  | Request (CallCreateLobby _ client) => [client]
  | Request (CallJoinLobby client _) => [client]
  | Request (CallLeaveLobbyOrThrow client) => [client]
  | Request (CallLeaveLobby client) => [client]
  | Request (CallInviteToLobby client _) => [client]
  | Request (CallAddPlayerToQueue _ client) => [client]
  | Request (CallRemovePlayerFromQueueOrThrow client) => [client]
  | Request (CallRemovePlayerFromQueue client) => [client]
  | _ => []
  end.

(** A socket id names one connection. *)
Definition identified (cs : list AuthenticatedSocket) : Prop :=
  forall c c', c ∈ cs -> c' ∈ cs -> sock_id c = sock_id c' -> c = c'.

(** No lobby holds more than [MAX_PLAYERS] seats. *)
Definition seatsBounded (st : State) : Prop :=
  forall ref l, heap st !! ref = Some l -> (length (players l) <= MAX_PLAYERS)%nat.

(** Fewer than [MAX_PLAYERS] connections wait in the queue. *)
Definition queueShort (st : State) : Prop :=
  (length (playerQueue st) < MAX_PLAYERS)%nat.

(** A seated connection carries the back-reference to the lobby of its seat. *)
Definition seatedHere (st : State) : Prop :=
  forall ref l p, heap st !! ref = Some l -> p ∈ players l ->
    dataLobby st !! sock_id p = Some ref.

(** A connection in the queue carries no back-reference. *)
Definition queuedFree (st : State) : Prop :=
  forall c, c ∈ playerQueue st -> dataLobby st !! sock_id c = None.

(** The connections in the queue are among [cs]. *)
Definition queueKnown (cs : list AuthenticatedSocket) (st : State) : Prop :=
  forall c, c ∈ playerQueue st -> c ∈ cs.

(** A lobby is stored under its id; the keys of the registry are distinct
    and each of them names a stored lobby. *)
Definition registryOK (st : State) : Prop :=
  (forall ref l, heap st !! ref = Some l -> lobby_id l = ref)
  /\ NoDup (lobbies st)
  /\ (forall ref, ref ∈ lobbies st -> is_Some (heap st !! ref)).

Definition Consistent (cs : list AuthenticatedSocket) (st : State) : Prop :=
  seatsBounded st /\ queueShort st /\ seatedHere st /\ queuedFree st
  /\ queueKnown cs st /\ registryOK st.

(** No socket id is seated in two lobbies. *)
Definition oneSeat (st : State) : Prop :=
  forall ref1 l1 p1 ref2 l2 p2,
    heap st !! ref1 = Some l1 -> p1 ∈ players l1 ->
    heap st !! ref2 = Some l2 -> p2 ∈ players l2 ->
    sock_id p1 = sock_id p2 -> ref1 = ref2.

(** No socket id that waits in the queue is seated in a lobby. *)
Definition queuedUnseated (st : State) : Prop :=
  forall c ref l p,
    c ∈ playerQueue st -> heap st !! ref = Some l -> p ∈ players l ->
    sock_id p ≠ sock_id c.

(** The lobby differs in its engine only. *)
Definition engineOnly (l l' : Lobby) (out : list Emission) : Prop :=
  l' = set_instance (instance l') l.

(** The seats, the id, the mode and the date of creation of the lobby are
    as before. *)
Definition seatsKept (l l' : Lobby) : Prop :=
  players l' = players l /\ lobby_id l' = lobby_id l
  /\ mode l' = mode l /\ createdAt l' = createdAt l.

(** The queue and the back-references are as before, every stored lobby
    has the seats it had, and the registry has lost keys at most. *)
Definition lobbiesKept (st st' : State) : Prop :=
  playerQueue st' = playerQueue st
  /\ dataLobby st' = dataLobby st
  /\ userTable st' = userTable st
  /\ sublist (lobbies st') (lobbies st)
  /\ forall ref, option_Forall2 seatsKept (heap st !! ref) (heap st' !! ref).

(** What an event does to the seats, the queue and the back-references. *)
Inductive Effect (cs : list AuthenticatedSocket) (st : State) : State -> Prop :=
| effect_kept st' : lobbiesKept st st' -> Effect cs st st'
| effect_created cfg f m client :
    client ∈ cs ->
    dataLobby st !! sock_id client = None ->
    client ∉ playerQueue st ->
    Effect cs st
      {| playerQueue := playerQueue st;
         lobbies := if bool_decide (fresh_id f ∈ lobbies st) then lobbies st
                    else lobbies st ++ [fresh_id f];
         heap := <[fresh_id f := set_players [client] (newLobby cfg f m)]> (heap st);
         dataLobby := <[sock_id client := fresh_id f]> (dataLobby st);
         userTable := userTable st |}
| effect_joined client ref lobby :
    client ∈ cs ->
    dataLobby st !! sock_id client = None ->
    client ∉ playerQueue st ->
    heap st !! ref = Some lobby ->
    (length (players lobby) < MAX_PLAYERS)%nat ->
    Effect cs st
      (set_dataLobby (<[sock_id client := ref]> (dataLobby st))
         (set_heap (<[ref := set_players (players lobby ++ [client]) lobby]> (heap st))
            st))
| effect_left client ref lobby :
    dataLobby st !! sock_id client = Some ref ->
    heap st !! ref = Some lobby ->
    Effect cs st
      {| playerQueue := playerQueue st;
         lobbies := if bool_decide (unseat client (players lobby) = [])
                    then filter (fun i => i ≠ lobby_id lobby) (lobbies st)
                    else lobbies st;
         heap := <[ref := departed client lobby]> (heap st);
         dataLobby := delete (sock_id client) (dataLobby st);
         userTable := userTable st |}
| effect_queued client :
    client ∈ cs ->
    dataLobby st !! sock_id client = None ->
    (length (playerQueue st ++ [client]) < MAX_PLAYERS)%nat ->
    Effect cs st (set_playerQueue (playerQueue st ++ [client]) st)
| effect_matched cfg f client :
    dataLobby st !! sock_id client = None ->
    (MAX_PLAYERS <= length (playerQueue st ++ [client]))%nat ->
    Effect cs st
      {| playerQueue := drop MAX_PLAYERS (playerQueue st ++ [client]);
         lobbies := if bool_decide (fresh_id f ∈ lobbies st) then lobbies st
                    else lobbies st ++ [fresh_id f];
         heap := <[fresh_id f :=
                     set_players
                       (foldl (fun ps c => seat c ps) []
                          (take MAX_PLAYERS (playerQueue st ++ [client])))
                       (newLobby cfg f defaultMode)]> (heap st);
         dataLobby := foldl (fun d c => <[sock_id c := fresh_id f]> d) (dataLobby st)
                        (take MAX_PLAYERS (playerQueue st ++ [client]));
         userTable := userTable st |}
| effect_dequeued index :
    Effect cs st (set_playerQueue (delete index (playerQueue st)) st).

(** [lobbiesKept] as a relation of computations of the manager. *)
Definition keepsLobbies (st st' : State) (out : list Emission) : Prop :=
  lobbiesKept st st'.

(** The lobby stored under [ref] is older than [LOBBY_MAX_LIFETIME] at the
    time [now]. *)
Definition pastLifetime (cfg : GameConfig) (now : Z) (st : State) (ref : string)
  : bool :=
  match heap st !! ref with
  | Some l => now - createdAt l >? LOBBY_MAX_LIFETIME cfg
  | None => false
  end.

(** The lobby after [expiry]: its engine is marked finished. *)
Definition expired (l : Lobby) : Lobby :=
  set_instance (set_hasFinished true (instance l)) l.

(** Every stored lobby is stored under its id. *)
Definition heapKeyed (st : State) : Prop :=
  forall ref l, heap st !! ref = Some l -> lobby_id l = ref.

(** ** Notions used in the properties of the engine *)

(** The disc of the ball and the rectangle of the paddle have a point in
    common. *)
Definition touches (b : Ball) (p : Paddle) : Prop :=
  exists x y : Q,
    (paddle_x p <= x /\ x <= paddle_x p + paddle_width p
     /\ paddle_y p <= y /\ y <= paddle_y p + paddle_height p
     /\ (x - ball_x b) * (x - ball_x b) + (y - ball_y b) * (y - ball_y b)
        <= ball_radius b * ball_radius b)%Q.

(** The centre of the ball lies within the horizontal extent of the paddle,
    or within its vertical extent. *)
Definition level (b : Ball) (p : Paddle) : Prop :=
  (paddle_x p <= ball_x b /\ ball_x b <= paddle_x p + paddle_width p)%Q
  \/ (paddle_y p <= ball_y b /\ ball_y b <= paddle_y p + paddle_height p)%Q.

(** The count-down events for the seconds [n], [n - 1], ..., 0, each of
    them sent to every player of [ps] in turn. *)
Fixpoint countdownEvents (ps : list AuthenticatedSocket) (n : nat) : list Emission :=
  ((fun p => {| recipients := [sock_id p]; event := GameCountdown (Z.of_nat n) |}) <$> ps)
  ++ match n with
     | O => []
     | S k => countdownEvents ps k
     end.

(** The start event of [triggerStart] for the players [p1] and [p2]. *)
Definition startEvent (cfg : GameConfig) (l : Lobby) (p1 p2 : AuthenticatedSocket)
  : Emission :=
  {| recipients := sock_id <$> players l;
     event :=
       GameStart (data_id p1) (data_id p2) cfg
         (cfg_paddleMargin cfg, (cfg_height cfg / 2 - cfg_paddleHeight cfg / 2)%Q)
         ((cfg_width cfg - cfg_paddleMargin cfg - cfg_paddleWidth cfg)%Q,
          (cfg_height cfg / 2 - cfg_paddleHeight cfg / 2)%Q)
         ((cfg_width cfg / 2)%Q, (cfg_height cfg / 2)%Q) |}.

(** The [while] of [gameLoop]: its condition is tested again and again, as
    long as the engine is at the [while]; [inputs] is what the passes draw
    from the user service and the random generator. *)
Fixpoint runWhile (cfg : GameConfig) (inputs : list (gmap string UserEntity * Launch))
    (m : Machine) : Machine * list Emission :=
  match inputs, control m with
  | (users, a) :: rest, InWhile acc =>
      match callback (whileIteration cfg users a acc) m with
      | (m1, out1) =>
          match runWhile cfg rest m1 with
          | (m2, out2) => (m2, out1 ++ out2)
          end
      end
  | _, _ => (m, [])
  end.

(** The machine is not at the [while] of [gameLoop]. *)
Definition leftWhile (m : Machine) : Prop :=
  forall acc, control m <> InWhile acc.

(** A pass hands over to a next pass only with the accumulator reduced by
    one time step, and only when the accumulator held a time step. *)
Definition oneStepLess (cfg : GameConfig) (acc : Q) (r : Res Control) : Prop :=
  forall acc', r = Ok (InWhile acc') ->
    acc' = (acc - cfg_timeStep cfg)%Q /\ (cfg_timeStep cfg <= acc)%Q.


(** The score event for the scores [s1] of player 1 and [s2] of player 2. *)
Definition scoreEvent (l : Lobby) (s1 s2 : option JsNum) : Emission :=
  {| recipients := sock_id <$> players l; event := GameScore s1 s2 |}.

(** The game after a point for the user [id]: the score is incremented and
    the objects are placed again. *)
Definition pointFor (cfg : GameConfig) (a : Launch) (id : string) (g : Game) : Game :=
  initializeGameObjects cfg a (incrementScore id g).

(** The objects after the moves of one time step and the test of the
    paddles, as [handleCollisions] sees them when it tests the walls and
    the goal lines. *)
Definition afterMove (cfg : GameConfig) (g : Game) (o : GameObjects) : GameObjects :=
  resolvePaddleCollision (ballSpeedPerSecond g)
    (updateBallPosition (cfg_timeStep cfg)
       (updatePaddlePosition cfg (cfg_timeStep cfg) o)).

(** The ball is clear of the top and bottom walls and at a goal line. *)
Definition atGoal (cfg : GameConfig) (b : Ball) : Prop :=
  (ball_radius b < ball_y b)%Q
  /\ (ball_y b < cfg_height cfg - ball_radius b)%Q
  /\ ((ball_x b <= ball_radius b)%Q \/ (cfg_width cfg - ball_radius b <= ball_x b)%Q).

Definition isStart (e : Emission) : bool :=
  match event e with
  | GameStart _ _ _ _ _ _ => true
  | _ => false
  end.

(** Nothing that is sent is a start event. *)
Definition noStart (out : list Emission) : Prop :=
  Forall (fun e => isStart e = false) out.

(** [noStart] as a relation of computations on a lobby. *)
Definition sendsNoStart (l l' : Lobby) (out : list Emission) : Prop := noStart out.

(** Nothing was sent, or the first emission is the start event and it is
    the only start event. *)
Definition startIsFirst (out : list Emission) : Prop :=
  out = [] \/ exists e rest, out = e :: rest /\ isStart e = true /\ noStart rest.

(** The socket id of the connection holds a seat in a registered lobby. *)
Definition hasSeat (st : State) (p : AuthenticatedSocket) : Prop :=
  exists ref l,
    ref ∈ lobbies st /\ heap st !! ref = Some l /\ sock_id p ∈ sock_id <$> players l.

(** The event is a request of the connection, by its socket id, to be taken
    out of the queue. *)
Definition leavesQueue (ev : Event) (p : AuthenticatedSocket) : Prop :=
  match ev with
  | Request (CallRemovePlayerFromQueueOrThrow client) => sock_id client = sock_id p
  | Request (CallRemovePlayerFromQueue client) => sock_id client = sock_id p
  | _ => False
  end.

(** * Properties *)

(** ** Comparisons on rationals *)


Lemma Qltb_false (a b : Q) : Qltb a b = false <-> (b <= a)%Q.
Proof.
  unfold Qltb. rewrite negb_false_iff. apply Qle_bool_iff.
Qed.


Lemma Qgtb_false (a b : Q) : Qgtb a b = false <-> (a <= b)%Q.
Proof. apply Qltb_false. Qed.

Lemma Qgeb_true (a b : Q) : Qgeb a b = true <-> (b <= a)%Q.
Proof. apply Qle_bool_iff. Qed.

(** ** Computations of the monad *)

Ltac monad_unfold :=
  cbv [bind ret throw get modify emit required getGame getObjects putObjects
       modGame dispatchToLobby emitToPlayers] in *.

Lemma bind_Ok {S A B : Type} (m : M S A) (k : A -> M S B) s a s1 o1 :
  m s = (Ok a, s1, o1) ->
  bind m k s = (let '(r, s2, o2) := k a s1 in (r, s2, o1 ++ o2)).
Proof. intros H. unfold bind. rewrite H. reflexivity. Qed.

Lemma bind_Throw {S A B : Type} (m : M S A) (k : A -> M S B) s e s1 o1 :
  m s = (Throw e, s1, o1) ->
  bind m k s = (Throw e, s1, o1).
Proof. intros H. unfold bind. rewrite H. reflexivity. Qed.

Lemma bind_state {S A B : Type} (m : M S A) (k : A -> M S B) s a s1 o1 :
  m s = (Ok a, s1, o1) -> (bind m k s).1.2 = (k a s1).1.2.
Proof. intros H. unfold bind. rewrite H. destruct (k a s1) as [[? ?] ?]. reflexivity. Qed.

Lemma bind_result {S A B : Type} (m : M S A) (k : A -> M S B) s a s1 o1 :
  m s = (Ok a, s1, o1) -> (bind m k s).1.1 = (k a s1).1.1.
Proof. intros H. unfold bind. rewrite H. destruct (k a s1) as [[? ?] ?]. reflexivity. Qed.

Lemma bind_state_Throw {S A B : Type} (m : M S A) (k : A -> M S B) s e s1 o1 :
  m s = (Throw e, s1, o1) -> (bind m k s).1.2 = s1.
Proof. intros H. unfold bind. rewrite H. reflexivity. Qed.

(** A handler that throws again changes the exception only. *)
Lemma try_catch_throw {S A : Type} (m : M S A) (f : Exn -> Exn) s :
  try_catch m (fun e => throw (f e)) s =
    match m s with
    | (Ok a, s1, o1) => (Ok a, s1, o1)
    | (Throw e, s1, o1) => (Throw (f e), s1, o1)
    end.
Proof.
  unfold try_catch, throw. destruct (m s) as [[[a|e] s1] o1]; [reflexivity|].
  rewrite app_nil_r. reflexivity.
Qed.

Lemma try_catch_state {S A : Type} (m : M S A) (f : Exn -> Exn) s :
  (try_catch m (fun e => throw (f e)) s).1.2 = (m s).1.2.
Proof. rewrite try_catch_throw. destruct (m s) as [[[a|e] s1] o1]; reflexivity. Qed.

Lemma try_catch_output {S A : Type} (m : M S A) (f : Exn -> Exn) s :
  (try_catch m (fun e => throw (f e)) s).2 = (m s).2.
Proof. rewrite try_catch_throw. destruct (m s) as [[[a|e] s1] o1]; reflexivity. Qed.

(** ** Paddles stay in the field *)

Lemma checkPaddleBounds_height cfg p :
  paddle_height (checkPaddleBounds cfg p) = paddle_height p.
Proof.
  unfold checkPaddleBounds.
  destruct (Qltb _ _); [reflexivity|]. destruct (Qgtb _ _); reflexivity.
Qed.

Lemma checkPaddleBounds_inBounds cfg p :
  paddleFits cfg p -> paddleInBounds cfg (checkPaddleBounds cfg p).
Proof.
  unfold paddleFits, paddleInBounds. intros Hfit.
  rewrite checkPaddleBounds_height. unfold checkPaddleBounds.
  destruct (Qltb (paddle_y p) (cfg_paddleMargin cfg)) eqn:Elow.
  - cbn. split; [lra | exact Hfit].
  - apply Qltb_false in Elow.
    destruct (Qgtb (paddle_y p) _) eqn:Ehigh.
    + cbn. split; [exact Hfit | lra].
    + apply Qgtb_false in Ehigh. split; assumption.
Qed.

Lemma updatePaddle_height cfg timeStep p :
  paddle_height (updatePaddle cfg timeStep p) = paddle_height p.
Proof.
  unfold updatePaddle. rewrite checkPaddleBounds_height.
  destruct (paddle_direction p); reflexivity.
Qed.

Lemma updatePaddle_inBounds cfg timeStep p :
  paddleFits cfg p -> paddleInBounds cfg (updatePaddle cfg timeStep p).
Proof.
  intros Hfit. unfold updatePaddle. apply checkPaddleBounds_inBounds.
  destruct (paddle_direction p); exact Hfit.
Qed.

(** C4: after a simulation step has moved the paddles
    ([updatePaddlePosition]: the move in the direction of each paddle, then
    the clamp), for every state and direction of the two paddles, the
    vertical position of each paddle lies between the margin and the height
    of the field minus the paddle's height minus the margin, provided the
    configuration leaves room for the paddle between its two margins. *)
Theorem updatePaddlePosition_inBounds cfg timeStep (o : GameObjects) :
  paddleFits cfg (paddle1 o) ->
  paddleFits cfg (paddle2 o) ->
  paddleInBounds cfg (paddle1 (updatePaddlePosition cfg timeStep o)) /\
  paddleInBounds cfg (paddle2 (updatePaddlePosition cfg timeStep o)).
Proof.
  intros H1 H2. unfold updatePaddlePosition. cbn. split.
  - apply updatePaddle_inBounds, H1.
  - apply updatePaddle_inBounds, H2.
Qed.

Lemma updatePaddlePosition_inBounds_witness :
  let o := Sample.someObjects Sample.ballAtCentre in
  paddleFits Sample.cfg (paddle1 o)
  /\ paddleFits Sample.cfg (paddle2 o)
  /\ paddleInBounds Sample.cfg (paddle1 (updatePaddlePosition Sample.cfg 100 o))
  /\ paddleInBounds Sample.cfg (paddle2 (updatePaddlePosition Sample.cfg 100 o)).
Proof.
  assert (H1 : paddleFits Sample.cfg
                 (paddle1 (Sample.someObjects Sample.ballAtCentre)))
    by (vm_compute; discriminate).
  assert (H2 : paddleFits Sample.cfg
                 (paddle2 (Sample.someObjects Sample.ballAtCentre)))
    by (vm_compute; discriminate).
  split; [exact H1|]. split; [exact H2|].
  exact (updatePaddlePosition_inBounds Sample.cfg 100
           (Sample.someObjects Sample.ballAtCentre) H1 H2).
Defined.

(** The paddles that [initializeGameObjects] places are in bounds, under the
    same condition on the configuration. *)
Lemma initializeGameObjects_inBounds cfg a g :
  (cfg_paddleMargin cfg
   <= cfg_height cfg - cfg_paddleHeight cfg - cfg_paddleMargin cfg)%Q ->
  exists o, objects (initializeGameObjects cfg a g) = Some o /\
            paddleInBounds cfg (paddle1 o) /\ paddleInBounds cfg (paddle2 o).
Proof.
  intros Hfit. eexists. split; [reflexivity|].
  unfold paddleInBounds. cbn. unfold Qdiv.
  change (/ 2)%Q with (1 # 2)%Q. split; split; lra.
Qed.

(** ** Collisions and velocities *)

Lemma handleBallPaddleCollision_velocity_x speed p b :
  ball_velocity_x (handleBallPaddleCollision speed p b) = (- ball_velocity_x b)%Q.
Proof. reflexivity. Qed.



(** ** The angle after a hit on a paddle *)

Lemma handleBallPaddleCollision_velocity_y speed p b :
  ball_velocity_y (handleBallPaddleCollision speed p b)
  = ((ball_y b - (paddle_y p + paddle_height p)) / paddle_height p * speed)%Q.
Proof. reflexivity. Qed.

(** C7, on the code: a ball that hits the paddle at the height of its centre
    leaves with a vertical velocity of minus half the speed of the ball, not
    zero; the factor is -1 at the top edge of the paddle and 0 at the bottom
    edge, so it is measured from the bottom edge and not from the centre. *)
Theorem handleBallPaddleCollision_center_hit :
  let p := Sample.paddle 10 260 NONE in
  let speed := 320%Q in
  (ball_y Sample.ballAtCentre == paddle_y p + paddle_height p / 2)%Q
  /\ ballCollidesWithPaddle Sample.ballAtCentre p = true
  /\ (ball_velocity_y (handleBallPaddleCollision speed p Sample.ballAtCentre)
      == - (speed / 2))%Q
  /\ (ball_velocity_y (handleBallPaddleCollision speed p (Sample.ballAtY 260))
      == - speed)%Q
  /\ (ball_velocity_y (handleBallPaddleCollision speed p (Sample.ballAtY 340))
      == 0)%Q.
Proof.
  cbv zeta. repeat split; vm_compute; reflexivity.
Qed.

(** ** The count-down and the stop flag *)

Lemma countdownInterval_running (l : Lobby) (n : Z) :
  stop (instance l) = false ->
  0 < n ->
  countdownInterval n l =
    (Ok (Some (n - 1)), l,
     (fun p => {| recipients := [sock_id p]; event := GameCountdown n |})
       <$> players l).
Proof.
  intros Hstop Hn. unfold countdownInterval.
  destruct (n <=? 0) eqn:E; [lia|].
  monad_unfold. rewrite Hstop. cbn. rewrite app_nil_r. reflexivity.
Qed.

(** C10: when the stop flag is set and a tick of the count-down finds
    seconds remaining, this tick clears the interval and resolves the promise
    (the count-down ends early), and it still sends one count-down event
    with the remaining seconds to every seated player; [triggerStart] then
    returns without starting the loop. *)
Theorem countdownInterval_stop cfg (l : Lobby) (n : Z) :
  stop (instance l) = true ->
  0 < n ->
  countdownInterval n l =
    (Ok None, l,
     (fun p => {| recipients := [sock_id p]; event := GameCountdown n |})
       <$> players l)
  /\ step cfg {| mlobby := l; control := Starting n |} CountdownTick =
       Some ({| mlobby := l; control := Halted |},
             (fun p => {| recipients := [sock_id p]; event := GameCountdown n |})
               <$> players l).
Proof.
  intros Hstop Hn.
  assert (Htick : countdownInterval n l =
    (Ok None, l,
     (fun p => {| recipients := [sock_id p]; event := GameCountdown n |})
       <$> players l)).
  { unfold countdownInterval. destruct (n <=? 0) eqn:E; [lia|].
    monad_unfold. rewrite Hstop. cbn. rewrite app_nil_r. reflexivity. }
  split; [exact Htick|].
  unfold step, callback, startTick, bind. cbn [control mlobby]. rewrite Htick.
  unfold triggerStart_resume. monad_unfold. rewrite Hstop.
  rewrite app_nil_r. reflexivity.
Qed.

Lemma countdownInterval_stop_witness :
  let l := set_instance (set_stop true (instance Sample.lobby)) Sample.lobby in
  stop (instance l) = true
  /\ 0 < 3
  /\ countdownInterval 3 l =
       (Ok None, l,
        [ {| recipients := ["socket-a"]; event := GameCountdown 3 |};
          {| recipients := ["socket-b"]; event := GameCountdown 3 |} ])
  /\ step Sample.cfg {| mlobby := l; control := Starting 3 |} CountdownTick =
       Some ({| mlobby := l; control := Halted |},
             [ {| recipients := ["socket-a"]; event := GameCountdown 3 |};
               {| recipients := ["socket-b"]; event := GameCountdown 3 |} ]).
Proof.
  intros l.
  assert (Hstop : stop (instance l) = true) by reflexivity.
  assert (Hn : 0 < 3) by lia.
  split; [exact Hstop|]. split; [exact Hn|].
  exact (countdownInterval_stop Sample.cfg l 3 Hstop Hn).
Defined.

(** ** Invitations *)

Ltac rejected := cbv; intros; simplify_eq; done.

Lemma onLobby_modify (st : State) ref (lobby : Lobby) (f : Lobby -> Lobby) :
  heap st !! ref = Some lobby ->
  onLobby ref (modify f) st = (Ok tt, set_heap (<[ref := f lobby]> (heap st)) st, []).
Proof. intros H. unfold onLobby, modify. rewrite H. reflexivity. Qed.

Lemma inviteToLobby_throw_unchanged st client userId e st' out :
  inviteToLobby client userId st = (Throw e, st', out) -> st' = st /\ out = [].
Proof.
  unfold inviteToLobby.
  case_bool_decide; [rejected|].
  unfold bind at 1. unfold get at 1.
  destruct (dataLobby st !! sock_id client) as [ref|] eqn:Eref; [|rejected].
  destruct (heap st !! ref) as [lobby|] eqn:Eheap; [|rejected].
  cbn [required]. unfold bind at 1. cbn [ret].
  case_bool_decide; [rejected|].
  destruct (players_has lobby userId); [rejected|].
  case_bool_decide; [rejected|].
  destruct (userTable st !! userId) as [user|]; [|rejected].
  destruct (userIdInList _ _); [rejected|].
  unfold bind. rewrite (onLobby_modify _ _ _ _ Eheap). cbn. intros; simplify_eq.
Qed.

Lemma inviteToLobby_throws_for_blocked st client userId user :
  userTable st !! userId = Some user ->
  data_id client ∈ blockedUsers user ->
  exists e, inviteToLobby client userId st = (Throw e, st, []).
Proof.
  intros Huser Hblocked. unfold inviteToLobby.
  case_bool_decide; [eexists; reflexivity|].
  unfold bind at 1. unfold get at 1.
  destruct (dataLobby st !! sock_id client) as [ref|] eqn:Eref;
    [|eexists; reflexivity].
  destruct (heap st !! ref) as [lobby|] eqn:Eheap; [|eexists; reflexivity].
  cbn [required]. unfold bind at 1. cbn [ret].
  case_bool_decide; [eexists; reflexivity|].
  destruct (players_has lobby userId); [eexists; reflexivity|].
  case_bool_decide; [eexists; reflexivity|].
  rewrite Huser. unfold userIdInList. rewrite bool_decide_eq_true_2 by exact Hblocked.
  eexists; reflexivity.
Qed.

(** C8: when the target user has blocked the inviter, [inviteToLobby] is
    rejected, and the state (so the invite list of the lobby) is as before
    and nothing is sent; the error is the one of the first check that
    fails: for an inviter who is not the target and is not seated it is
    "You are not in a lobby", and when the checks that come first pass (no
    self-invite, inviter seated, lobby not full, target not a key of the seat
    map, target not yet invited) it is "You cannot invite this user"; and on
    every rejection of [inviteToLobby], whatever its cause, the state is as
    before and nothing is sent. *)
Theorem inviteToLobby_blocked st client userId user :
  userTable st !! userId = Some user ->
  data_id client ∈ blockedUsers user ->
  (exists e, inviteToLobby client userId st = (Throw e, st, []))
  /\ (data_id client ≠ userId ->
      dataLobby st !! sock_id client = None ->
      inviteToLobby client userId st =
        (Throw (WsException "You are not in a lobby"), st, []))
  /\ (forall ref lobby,
        data_id client ≠ userId ->
        dataLobby st !! sock_id client = Some ref ->
        heap st !! ref = Some lobby ->
        (length (players lobby) < MAX_PLAYERS)%nat ->
        userId ∉ sock_id <$> players lobby ->
        userId ∉ invitedPlayers lobby ->
        inviteToLobby client userId st =
          (Throw (WsException "You cannot invite this user"), st, []))
  /\ (forall st0 client0 userId0 e st' out,
        inviteToLobby client0 userId0 st0 = (Throw e, st', out) ->
        st' = st0 /\ out = []).
Proof.
  intros Huser Hblocked. split; [|split; [|split]].
  - eapply inviteToLobby_throws_for_blocked; eassumption.
  - intros Hself Href. unfold inviteToLobby.
    rewrite bool_decide_eq_false_2 by exact Hself.
    unfold bind at 1. unfold get at 1. rewrite Href. reflexivity.
  - intros ref lobby Hself Href Hheap Hsize Hseat Hinvited.
    unfold inviteToLobby.
    rewrite bool_decide_eq_false_2 by exact Hself.
    unfold bind at 1. unfold get at 1. rewrite Href, Hheap.
    cbn [required]. unfold bind at 1. cbn [ret].
    rewrite bool_decide_eq_false_2 by lia.
    unfold players_has. rewrite bool_decide_eq_false_2 by exact Hseat.
    rewrite bool_decide_eq_false_2 by exact Hinvited.
    rewrite Huser. unfold userIdInList.
    rewrite bool_decide_eq_true_2 by exact Hblocked. reflexivity.
  - intros st0 client0 userId0 e st' out.
    apply inviteToLobby_throw_unchanged.
Qed.

Lemma inviteToLobby_blocked_witness :
  userTable Sample.state !! "dave" = Some (Sample.user "dave" ["carol"])
  /\ data_id Sample.carol ∈ blockedUsers (Sample.user "dave" ["carol"])
  /\ inviteToLobby Sample.carol "dave" Sample.state =
       (Throw (WsException "You cannot invite this user"), Sample.state, []).
Proof.
  assert (Huser : userTable Sample.state !! "dave"
                  = Some (Sample.user "dave" ["carol"])) by reflexivity.
  assert (Hblocked : data_id Sample.carol ∈ blockedUsers (Sample.user "dave" ["carol"]))
    by (cbn; apply list_elem_of_singleton; reflexivity).
  split; [exact Huser|]. split; [exact Hblocked|].
  destruct (inviteToLobby_blocked Sample.state Sample.carol "dave"
              (Sample.user "dave" ["carol"]) Huser Hblocked) as (_ & _ & Hmsg & _).
  apply (Hmsg "lobby-2" Sample.customLobby).
  - cbn. discriminate.
  - reflexivity.
  - reflexivity.
  - cbn. unfold MAX_PLAYERS. lia.
  - cbn. intros Hin. apply list_elem_of_singleton in Hin. discriminate.
  - cbn. apply not_elem_of_nil.
Defined.

(** C8, as stated, fails: Carol, who is seated nowhere, invites Dave, who
    has blocked her. The call is rejected, but the error is "You are not in
    a lobby", not "You cannot invite this user": the seat of the inviter is
    tested before the user service is asked for the target. *)
Lemma inviteToLobby_unseated_counterexample :
  let st := emptyManager (userTable Sample.state) in
  userTable st !! "dave" = Some (Sample.user "dave" ["carol"])
  /\ data_id Sample.carol ∈ blockedUsers (Sample.user "dave" ["carol"])
  /\ dataLobby st !! sock_id Sample.carol = None
  /\ inviteToLobby Sample.carol "dave" st =
       (Throw (WsException "You are not in a lobby"), st, [])
  /\ inviteToLobby Sample.carol "dave" st ≠
       (Throw (WsException "You cannot invite this user"), st, []).
Proof.
  cbv zeta. split; [reflexivity|].
  split; [cbn; apply list_elem_of_singleton; reflexivity|].
  split; [reflexivity|].
  assert (Hrun : inviteToLobby Sample.carol "dave" (emptyManager (userTable Sample.state))
                 = (Throw (WsException "You are not in a lobby"),
                    emptyManager (userTable Sample.state), []))
    by (vm_compute; reflexivity).
  split; [exact Hrun|]. rewrite Hrun. discriminate.
Qed.

(** C3, on the code: Carol sits in a lobby and invites Dave, who has blocked
    her, from the chat. [inviteToLobby] rejects the same invitation, but
    [inviteToLobbyThroughChat] accepts it, and what it appends to the invite
    list of the lobby is the id of the inviter, not the id of the target. *)
Theorem inviteToLobbyThroughChat_appends_inviter :
  exists st',
    inviteToLobbyThroughChat (Sample.user "carol" []) "dave" Sample.state =
      (Ok "lobby-2", st', [])
    /\ (invitedPlayers <$> heap st' !! "lobby-2") = Some ["carol"]
    /\ inviteToLobby Sample.carol "dave" Sample.state =
         (Throw (WsException "You cannot invite this user"), Sample.state, []).
Proof.
  eexists. split; [|split].
  - vm_compute. reflexivity.
  - vm_compute. reflexivity.
  - vm_compute. reflexivity.
Qed.

(** ** The matchmaking queue *)

Lemma tryToCreateLobby_short cfg f st :
  (length (playerQueue st) < MAX_PLAYERS)%nat ->
  tryToCreateLobby cfg f st = (Ok tt, st, []).
Proof.
  intros Hlen. unfold tryToCreateLobby, bind, get.
  rewrite bool_decide_eq_true_2 by exact Hlen. reflexivity.
Qed.

Lemma addPlayer_seated st ref l c :
  heap st !! ref = Some l ->
  addPlayer ref c st =
    (Ok tt,
     set_dataLobby (<[sock_id c := ref]> (dataLobby st))
       (set_heap (<[ref := set_players (seat c (players l)) l]> (heap st)) st),
     []).
Proof.
  intros H. unfold addPlayer. erewrite bind_Ok by (apply onLobby_modify, H).
  reflexivity.
Qed.

Lemma tryToCreateLobby_drain cfg f st a b rest :
  playerQueue st = a :: b :: rest ->
  sock_id a ≠ sock_id b ->
  fresh_id f ∉ lobbies st ->
  tryToCreateLobby cfg f st =
    (Ok tt,
     {| playerQueue := rest;
        lobbies := lobbies st ++ [fresh_id f];
        heap := <[fresh_id f := set_players [a; b] (newLobby cfg f Queued)]> (heap st);
        dataLobby := <[sock_id b := fresh_id f]>
                       (<[sock_id a := fresh_id f]> (dataLobby st));
        userTable := userTable st |},
     []).
Proof.
  intros Hqueue Hids Hfresh.
  unfold tryToCreateLobby.
  erewrite bind_Ok by reflexivity.
  rewrite Hqueue. rewrite bool_decide_eq_false_2 by (cbn; unfold MAX_PLAYERS; lia).
  erewrite bind_Ok by reflexivity.
  erewrite bind_Ok by reflexivity.
  cbn [MAX_PLAYERS take drop forEach].
  erewrite bind_Ok by (apply addPlayer_seated; cbn; apply lookup_insert_eq).
  erewrite bind_Ok by (apply addPlayer_seated; cbn; apply lookup_insert_eq).
  cbn. rewrite bool_decide_eq_false_2 by exact Hfresh.
  rewrite !insert_insert_eq.
  unfold seat. cbn.
  rewrite (bool_decide_eq_false_2 (sock_id a ∈ [])) by (apply not_elem_of_nil).
  cbn. rewrite bool_decide_eq_false_2.
  2:{ intros Hin. apply list_elem_of_singleton in Hin. congruence. }
  reflexivity.
Qed.

(** C5: [addPlayerToQueue] rejects a connection that is seated in a lobby,
    and one that is already in the queue, and leaves the state as it was;
    otherwise it appends the connection and runs [tryToCreateLobby], which
    does nothing while fewer than 2 connections wait, and which, when at
    least 2 wait, takes the first two in the order of the queue, seats them
    in this order in one new lobby of mode Queued that it registers, and
    leaves the rest of the queue in place and in order. *)
Theorem addPlayerToQueue_matchmaking cfg f st client :
  (is_Some (dataLobby st !! sock_id client) ->
   addPlayerToQueue cfg f client st =
     (Throw (WsException "You are already in a lobby, leave it first"), st, []))
  /\ (dataLobby st !! sock_id client = None ->
      client ∈ playerQueue st ->
      addPlayerToQueue cfg f client st =
        (Throw (WsException "You are already in queue"), st, []))
  /\ (dataLobby st !! sock_id client = None ->
      client ∉ playerQueue st ->
      addPlayerToQueue cfg f client st =
        tryToCreateLobby cfg f (set_playerQueue (playerQueue st ++ [client]) st))
  /\ ((length (playerQueue st) < MAX_PLAYERS)%nat ->
      tryToCreateLobby cfg f st = (Ok tt, st, []))
  /\ (forall a b rest,
        playerQueue st = a :: b :: rest ->
        sock_id a ≠ sock_id b ->
        fresh_id f ∉ lobbies st ->
        tryToCreateLobby cfg f st =
          (Ok tt,
           {| playerQueue := rest;
              lobbies := lobbies st ++ [fresh_id f];
              heap := <[fresh_id f := set_players [a; b] (newLobby cfg f Queued)]>
                        (heap st);
              dataLobby := <[sock_id b := fresh_id f]>
                             (<[sock_id a := fresh_id f]> (dataLobby st));
              userTable := userTable st |},
           [])).
Proof.
  repeat split.
  - intros Hseated. unfold addPlayerToQueue, bind, get.
    rewrite bool_decide_eq_true_2 by exact Hseated. reflexivity.
  - intros Hfree Hqueued. unfold addPlayerToQueue, bind, get.
    rewrite bool_decide_eq_false_2 by (rewrite Hfree; apply is_Some_None).
    rewrite bool_decide_eq_true_2 by exact Hqueued. reflexivity.
  - intros Hfree Hnew. unfold addPlayerToQueue.
    unfold bind at 1. unfold get at 1.
    rewrite bool_decide_eq_false_2 by (rewrite Hfree; apply is_Some_None).
    rewrite bool_decide_eq_false_2 by exact Hnew.
    unfold bind, modify.
    destruct (tryToCreateLobby cfg f _) as [[r s] out]. reflexivity.
  - apply tryToCreateLobby_short.
  - apply tryToCreateLobby_drain.
Qed.

Lemma addPlayerToQueue_matchmaking_witness :
  addPlayerToQueue Sample.cfg Sample.fresh Sample.alice Sample.state =
    (Throw (WsException "You are already in a lobby, leave it first"),
     Sample.state, [])
  /\ addPlayerToQueue Sample.cfg Sample.fresh Sample.erin Sample.state =
       (Throw (WsException "You are already in queue"), Sample.state, [])
  /\ tryToCreateLobby Sample.cfg Sample.fresh
       (set_playerQueue [Sample.dave] Sample.state) =
       (Ok tt, set_playerQueue [Sample.dave] Sample.state, [])
  /\ exists st',
       tryToCreateLobby Sample.cfg Sample.fresh Sample.state = (Ok tt, st', [])
       /\ playerQueue st' = [Sample.frank]
       /\ lobbies st' = ["lobby-1"; "lobby-2"; "lobby-3"]
       /\ (players <$> heap st' !! "lobby-3") = Some [Sample.dave; Sample.erin]
       /\ (mode <$> heap st' !! "lobby-3") = Some Queued.
Proof.
  pose proof (addPlayerToQueue_matchmaking Sample.cfg Sample.fresh Sample.state
                Sample.alice) as (Hseated & _).
  pose proof (addPlayerToQueue_matchmaking Sample.cfg Sample.fresh Sample.state
                Sample.erin) as (_ & Hqueued & _ & _ & Hdrain).
  pose proof (addPlayerToQueue_matchmaking Sample.cfg Sample.fresh
                (set_playerQueue [Sample.dave] Sample.state)
                Sample.erin) as (_ & _ & _ & Hshort & _).
  split; [|split; [|split]].
  - apply Hseated. eexists. reflexivity.
  - apply Hqueued; [reflexivity|]. cbn. do 1 apply list_elem_of_further.
    apply list_elem_of_here.
  - apply Hshort. cbn. unfold MAX_PLAYERS. lia.
  - eexists. split.
    + apply (Hdrain Sample.dave Sample.erin [Sample.frank]).
      * reflexivity.
      * cbn. discriminate.
      * cbn. intros Hin. apply elem_of_cons in Hin as [Hin | Hin];
          [discriminate|]. apply list_elem_of_singleton in Hin. discriminate.
    + repeat split; vm_compute; reflexivity.
Defined.

(** ** Leaving a lobby *)

Lemma departure_departed client l :
  departure client l = (Ok tt, departed client l, departureEvents client l).
Proof. reflexivity. Qed.

Lemma lobbies_get_heap st ref lobby :
  lobbies_get st ref = Some lobby -> heap st !! ref = Some lobby.
Proof. unfold lobbies_get. case_bool_decide; [auto|discriminate]. Qed.

Lemma leaveSeat_departed st ref lobby client :
  heap st !! ref = Some lobby ->
  leaveSeat ref client st =
    (Ok tt,
     {| playerQueue := playerQueue st;
        lobbies := if bool_decide (unseat client (players lobby) = [])
                   then filter (fun i => i ≠ lobby_id lobby) (lobbies st)
                   else lobbies st;
        heap := <[ref := departed client lobby]> (heap st);
        dataLobby := delete (sock_id client) (dataLobby st);
        userTable := userTable st |},
     departureEvents client lobby).
Proof.
  intros Hheap. unfold leaveSeat.
  erewrite bind_Ok by reflexivity.
  erewrite bind_Ok.
  2:{ unfold onLobby. cbn [heap set_dataLobby]. rewrite Hheap.
      rewrite departure_departed. reflexivity. }
  erewrite bind_Ok by reflexivity.
  cbn [heap set_heap set_dataLobby]. rewrite lookup_insert_eq.
  cbn [players departed set_instance set_players].
  assert (Hlen : forall (xs : list AuthenticatedSocket),
             bool_decide (length xs = 0%nat) = bool_decide (xs = [])).
  { intros xs. apply bool_decide_ext. destruct xs; cbn; split; intros; try done. }
  rewrite Hlen. case_bool_decide; cbn; rewrite ?app_nil_r; reflexivity.
Qed.

(** C2, as the code has it: a call of [leaveLobby] (or [leaveLobbyOrThrow])
    that removes a seated player sends the message of the departure to the
    players that remain, then marks the engine finished and sends a finish
    event to them ([triggerFinish]), whatever the number of players that
    remain; the lobby is removed from the registry exactly when no player
    remains. *)
Theorem leaveLobby_finishes st client ref lobby :
  dataLobby st !! sock_id client = Some ref ->
  lobbies_get st ref = Some lobby ->
  players_has lobby (sock_id client) = true ->
  let st' :=
    {| playerQueue := playerQueue st;
       lobbies := if bool_decide (unseat client (players lobby) = [])
                  then filter (fun i => i ≠ lobby_id lobby) (lobbies st)
                  else lobbies st;
       heap := <[ref := departed client lobby]> (heap st);
       dataLobby := delete (sock_id client) (dataLobby st);
       userTable := userTable st |} in
  leaveLobby client st = (Ok tt, st', departureEvents client lobby)
  /\ leaveLobbyOrThrow client st = (Ok tt, st', departureEvents client lobby)
  /\ hasFinished (instance (departed client lobby)) = true
  /\ players (departed client lobby) = unseat client (players lobby).
Proof.
  intros Href Hget Hhas st'.
  pose proof (lobbies_get_heap _ _ _ Hget) as Hheap.
  pose proof (leaveSeat_departed st ref lobby client Hheap) as Hleave.
  repeat split.
  - unfold leaveLobby. erewrite bind_Ok by reflexivity.
    rewrite Href, Hget, Hhas. cbn [negb]. rewrite Hleave. reflexivity.
  - unfold leaveLobbyOrThrow. erewrite bind_Ok by reflexivity.
    rewrite Href, Hget, Hhas. cbn [negb]. rewrite Hleave. reflexivity.
Qed.

Lemma leaveLobby_finishes_witness :
  let alone := set_players [Sample.bob] Sample.lobby in
  let st := set_heap (<["lobby-1" := alone]> (heap Sample.state)) Sample.state in
  dataLobby st !! sock_id Sample.bob = Some "lobby-1"
  /\ lobbies_get st "lobby-1" = Some alone
  /\ players_has alone (sock_id Sample.bob) = true
  /\ exists st',
       leaveLobby Sample.bob st =
         (Ok tt, st',
          [ {| recipients := []; event := GameMessage "Bob left the lobby" |};
            {| recipients := []; event := GameFinish None None None |} ])
       /\ lobbies st' = ["lobby-2"]
       /\ (hasFinished <$> (instance <$> heap st' !! "lobby-1")) = Some true.
Proof.
  intros alone st.
  assert (Href : dataLobby st !! sock_id Sample.bob = Some "lobby-1") by reflexivity.
  assert (Hget : lobbies_get st "lobby-1" = Some alone) by reflexivity.
  assert (Hhas : players_has alone (sock_id Sample.bob) = true) by reflexivity.
  split; [exact Href|]. split; [exact Hget|]. split; [exact Hhas|].
  eexists. split.
  - apply (leaveLobby_finishes st Sample.bob "lobby-1" alone Href Hget Hhas).
  - split; reflexivity.
Defined.

(** C2, as stated, fails: Alice leaves the lobby where Bob stays seated; the
    lobby stays registered, and yet the engine, which was not finished, is
    marked finished, and Bob is sent a finish event after the message. *)
Lemma leaveLobby_seat_remains_counterexample :
  exists st' l',
    leaveLobby Sample.alice Sample.state =
      (Ok tt, st',
       [ {| recipients := ["socket-b"]; event := GameMessage "Alice left the lobby" |};
         {| recipients := ["socket-b"]; event := GameFinish None None None |} ])
    /\ lobbies st' = ["lobby-1"; "lobby-2"]
    /\ heap st' !! "lobby-1" = Some l'
    /\ players l' = [Sample.bob]
    /\ hasFinished (instance Sample.lobby) = false
    /\ hasFinished (instance l') = true.
Proof.
  eexists. eexists. split; [vm_compute; reflexivity|].
  repeat split; vm_compute; reflexivity.
Qed.

(** ** Reasoning about computations of the monad *)

Section Within.
Context {S : Type} (R : S -> S -> list Emission -> Prop) `{!Closed R}.

Lemma within_ret {A} (a : A) : within R (ret a).
Proof. intros s. apply closed_refl. Qed.

Lemma within_throw {A} e : within R (@throw S A e).
Proof. intros s. apply closed_refl. Qed.

Lemma within_get : within R get.
Proof. intros s. apply closed_refl. Qed.

Lemma within_required {A} (v : option A) : within R (required v).
Proof. destruct v; [apply within_ret | apply within_throw]. Qed.

Lemma within_bind {A B} (m : M S A) (k : A -> M S B) :
  within R m -> (forall a, within R (k a)) -> within R (bind m k).
Proof.
  intros Hm Hk s. unfold bind. specialize (Hm s).
  destruct (m s) as [[r s1] o1]. destruct r as [a|e]; [|exact Hm].
  specialize (Hk a s1). destruct (k a s1) as [[r2 s2] o2].
  cbn in *. eapply closed_trans; eassumption.
Qed.

Lemma within_try_catch {A} (m : M S A) (h : Exn -> M S A) :
  within R m -> (forall e, within R (h e)) -> within R (try_catch m h).
Proof.
  intros Hm Hh s. unfold try_catch. specialize (Hm s).
  destruct (m s) as [[r s1] o1]. destruct r as [a|e]; [exact Hm|].
  specialize (Hh e s1). destruct (h e s1) as [[r2 s2] o2].
  cbn in *. eapply closed_trans; eassumption.
Qed.

End Within.

#[global] Instance sendsNoFinish_closed : Closed sendsNoFinish.
Proof.
  split.
  - intros s. constructor.
  - intros s s1 s2 o1 o2 H1 H2. apply Forall_app. split; assumption.
Qed.

#[global] Instance quiet_closed : Closed quiet.
Proof.
  split.
  - intros s. repeat split.
  - intros s s1 s2 o1 o2 (H1 & H2 & H3) (H4 & H5 & H6).
    repeat split; congruence.
Qed.

Create HintDb within discriminated.

#[global] Hint Resolve within_ret within_throw within_get within_required : within.

Ltac within_solve :=
  repeat first
    [ solve [eauto 3 with within typeclass_instances]
    | apply within_bind; [typeclasses eauto | | intros ?]
    | apply within_try_catch; [typeclasses eauto | | intros ?]
    | match goal with
      | |- within _ (if ?b then _ else _) => destruct b
      | |- within _ (match ?x with _ => _ end) => destruct x
      end ].

#[global] Instance silent_closed : Closed silent.
Proof.
  split.
  - reflexivity.
  - intros s s1 s2 o1 o2 -> ->. reflexivity.
Qed.

Lemma noFinish_fmap {A} (f : A -> Emission) (xs : list A) :
  (forall x, isFinish (f x) = false) -> noFinish (f <$> xs).
Proof. intros H. apply Forall_fmap, Forall_forall. intros x _. apply H. Qed.

Lemma getGame_quiet : within quiet getGame.
Proof. intros l. repeat split. Qed.
Lemma getGame_noFinish : within sendsNoFinish getGame.
Proof. intros l. constructor. Qed.
Lemma getGame_silent : within silent getGame.
Proof. intros l. reflexivity. Qed.
#[global] Hint Resolve getGame_quiet getGame_noFinish getGame_silent : within.

Lemma getObjects_quiet : within quiet getObjects.
Proof. unfold getObjects. within_solve. Qed.
Lemma getObjects_noFinish : within sendsNoFinish getObjects.
Proof. unfold getObjects. within_solve. Qed.
Lemma getObjects_silent : within silent getObjects.
Proof. unfold getObjects. within_solve. Qed.
#[global] Hint Resolve getObjects_quiet getObjects_noFinish getObjects_silent : within.

Lemma emitToPlayers_noFinish ev :
  isFinish {| recipients := []; event := ev |} = false ->
  within sendsNoFinish (emitToPlayers ev).
Proof. intros H l. cbn. apply noFinish_fmap. intros p. exact H. Qed.

Lemma emitToPlayers_quiet ev : within quiet (emitToPlayers ev).
Proof. intros l. repeat split. Qed.

Lemma dispatchToLobby_noFinish ev :
  isFinish {| recipients := []; event := ev |} = false ->
  within sendsNoFinish (dispatchToLobby ev).
Proof. intros H l. cbn. constructor; [exact H|constructor]. Qed.

Lemma dispatchToLobby_quiet ev : within quiet (dispatchToLobby ev).
Proof. intros l. repeat split. Qed.

Lemma modGame_noFinish f : within sendsNoFinish (modGame f).
Proof. intros l. constructor. Qed.

Lemma modGame_silent f : within silent (modGame f).
Proof. intros l. reflexivity. Qed.

Lemma modGame_quiet f :
  (forall g, scores (f g) = scores g /\ hasFinished (f g) = hasFinished g) ->
  within quiet (modGame f).
Proof. intros H l. cbn. destruct (H (instance l)). repeat split; assumption. Qed.

Lemma putObjects_quiet o : within quiet (putObjects o).
Proof. apply modGame_quiet. intros g. split; reflexivity. Qed.
Lemma putObjects_noFinish o : within sendsNoFinish (putObjects o).
Proof. apply modGame_noFinish. Qed.
Lemma putObjects_silent o : within silent (putObjects o).
Proof. apply modGame_silent. Qed.

#[global] Hint Resolve emitToPlayers_quiet dispatchToLobby_quiet modGame_noFinish
  modGame_silent putObjects_quiet putObjects_noFinish putObjects_silent : within.
#[global] Hint Extern 1 (within sendsNoFinish (emitToPlayers _)) =>
  apply emitToPlayers_noFinish; reflexivity : within.
#[global] Hint Extern 1 (within sendsNoFinish (dispatchToLobby _)) =>
  apply dispatchToLobby_noFinish; reflexivity : within.
#[global] Hint Extern 1 (within quiet (modGame _)) =>
  apply modGame_quiet; intros ?; split; reflexivity : within.

Lemma countDown_noFinish n : within sendsNoFinish (countDown n).
Proof. unfold countDown. within_solve. Qed.
Lemma countDown_quiet n : within quiet (countDown n).
Proof. unfold countDown. within_solve. Qed.
Lemma countdownInterval_noFinish n : within sendsNoFinish (countdownInterval n).
Proof. unfold countdownInterval. within_solve. Qed.
Lemma countdownInterval_quiet n : within quiet (countdownInterval n).
Proof. unfold countdownInterval. within_solve. Qed.
#[global] Hint Resolve countDown_noFinish countDown_quiet countdownInterval_noFinish
  countdownInterval_quiet : within.

Lemma setLoser_quiet users playerId : within quiet (setLoser users playerId).
Proof. unfold setLoser, getUserById. within_solve. Qed.
Lemma setLoser_noFinish users playerId : within sendsNoFinish (setLoser users playerId).
Proof. unfold setLoser, getUserById. within_solve. Qed.
#[global] Hint Resolve setLoser_quiet setLoser_noFinish : within.

Lemma sendGameState_quiet : within quiet sendGameState.
Proof. unfold sendGameState. within_solve. Qed.
Lemma sendGameState_noFinish : within sendsNoFinish sendGameState.
Proof. unfold sendGameState. within_solve. Qed.
Lemma dispatchScore_quiet : within quiet dispatchScore.
Proof. unfold dispatchScore. within_solve. Qed.
Lemma dispatchScore_noFinish : within sendsNoFinish dispatchScore.
Proof. unfold dispatchScore. within_solve. Qed.
#[global] Hint Resolve sendGameState_quiet sendGameState_noFinish dispatchScore_quiet
  dispatchScore_noFinish : within.

Lemma movePaddle_quiet client direction : within quiet (movePaddle client direction).
Proof. unfold movePaddle, getPaddle. within_solve. Qed.
Lemma movePaddle_silent client direction : within silent (movePaddle client direction).
Proof. unfold movePaddle, getPaddle. within_solve. Qed.

Lemma checkGameFinish_noFinish cfg users : within sendsNoFinish (checkGameFinish cfg users).
Proof. unfold checkGameFinish. within_solve. Qed.
#[global] Hint Resolve checkGameFinish_noFinish : within.

Lemma handleScreenBoundsCollision_noFinish cfg users a :
  within sendsNoFinish (handleScreenBoundsCollision cfg users a).
Proof. unfold handleScreenBoundsCollision. within_solve. Qed.
#[global] Hint Resolve handleScreenBoundsCollision_noFinish : within.

Lemma handleCollisions_noFinish cfg users a :
  within sendsNoFinish (handleCollisions cfg users a).
Proof. unfold handleCollisions. within_solve. Qed.
#[global] Hint Resolve handleCollisions_noFinish : within.

Lemma updateGameState_noFinish cfg users a ts :
  within sendsNoFinish (updateGameState cfg users a ts).
Proof. unfold updateGameState. within_solve. Qed.

Lemma triggerStart_noFinish cfg a : within sendsNoFinish (triggerStart cfg a).
Proof. unfold triggerStart. within_solve. Qed.

Lemma triggerStart_resume_quiet : within quiet triggerStart_resume.
Proof. unfold triggerStart_resume. within_solve. Qed.
Lemma triggerStart_resume_noFinish : within sendsNoFinish triggerStart_resume.
Proof. unfold triggerStart_resume. within_solve. Qed.
#[global] Hint Resolve triggerStart_resume_quiet triggerStart_resume_noFinish : within.

Lemma startTick_quiet n : within quiet (startTick n).
Proof. unfold startTick. within_solve. Qed.
Lemma startTick_noFinish n : within sendsNoFinish (startTick n).
Proof. unfold startTick. within_solve. Qed.

Lemma gameLoop_quiet acc t : within quiet (gameLoop acc t).
Proof. unfold gameLoop. within_solve. Qed.
Lemma gameLoop_noFinish acc t : within sendsNoFinish (gameLoop acc t).
Proof. unfold gameLoop. within_solve. Qed.

(** ** The finish event of the loop *)

Lemma finishAtEnd_app pre out :
  noFinish pre -> finishAtEnd out -> finishAtEnd (pre ++ out).
Proof.
  intros Hpre (pre' & e & -> & Hno & He).
  exists (pre ++ pre'), e. rewrite app_assoc. repeat split; [|exact He].
  apply Forall_app. split; assumption.
Qed.

Lemma haltsOnFinish_bind {A} (m : M Lobby A) (k : A -> M Lobby Control) l :
  within sendsNoFinish m ->
  (forall a l1, haltsOnFinish (k a l1)) ->
  haltsOnFinish (bind m k l).
Proof.
  intros Hm Hk. unfold bind. specialize (Hm l).
  destruct (m l) as [[r l1] o1]. cbn in Hm. destruct r as [a|e].
  - specialize (Hk a l1). destruct (k a l1) as [[r2 l2] o2].
    destruct Hk as [Hno | [Hr Hfin]]; cbn in *.
    + left. apply Forall_app. split; assumption.
    + right. split; [exact Hr|]. apply finishAtEnd_app; assumption.
  - left. exact Hm.
Qed.

Lemma haltsOnFinish_quiet (c : M Lobby Control) l :
  within sendsNoFinish c -> haltsOnFinish (c l).
Proof. intros H. left. apply H. Qed.

Lemma afterPause_haltsOnFinish cfg acc l : haltsOnFinish (afterPause cfg acc l).
Proof.
  unfold afterPause. apply haltsOnFinish_bind; [auto with within|].
  intros g l1. destruct (hasFinished g).
  - right. split; [reflexivity|]. eexists [], _. repeat split. constructor.
  - apply haltsOnFinish_quiet. within_solve.
Qed.

Lemma whileIteration_haltsOnFinish cfg users a acc l :
  haltsOnFinish (whileIteration cfg users a acc l).
Proof.
  unfold whileIteration. destruct (Qgeb acc (cfg_timeStep cfg)).
  - apply haltsOnFinish_bind; [apply updateGameState_noFinish|].
    intros _ l1. apply haltsOnFinish_bind; [auto with within|].
    intros g l2. destruct (gamePaused g).
    + apply haltsOnFinish_quiet. within_solve.
    + apply afterPause_haltsOnFinish.
  - apply haltsOnFinish_quiet. within_solve.
Qed.

Lemma pauseTick_haltsOnFinish cfg acc n l : haltsOnFinish (pauseTick cfg acc n l).
Proof.
  unfold pauseTick. apply haltsOnFinish_bind; [auto with within|].
  intros r l1. destruct r.
  - apply haltsOnFinish_quiet. within_solve.
  - apply haltsOnFinish_bind; [auto with within|].
    intros _ l2. apply afterPause_haltsOnFinish.
Qed.

Lemma callback_haltsOnFinish c m :
  haltsOnFinish (c (mlobby m)) ->
  noFinish (callback c m).2
  \/ (control (callback c m).1 = Halted /\ finishAtEnd (callback c m).2).
Proof.
  unfold callback, haltsOnFinish. destruct (c (mlobby m)) as [[r l] out].
  cbn. intros [Hno | [Hr Hfin]].
  - left. destruct r; exact Hno.
  - right. subst r. split; [reflexivity|exact Hfin].
Qed.

Lemma callback_trace c m m' out :
  haltsOnFinish (c (mlobby m)) ->
  callback c m = (m', out) ->
  noFinish out \/ (control m' = Halted /\ finishAtEnd out).
Proof.
  intros Hc Hcb. apply callback_haltsOnFinish in Hc. rewrite Hcb in Hc. exact Hc.
Qed.

Lemma external_silent c m m' out :
  within silent c ->
  external c m = (m', out) ->
  control m' = control m /\ out = [].
Proof.
  intros Hc Hext. unfold external in Hext. specialize (Hc (mlobby m)).
  destruct (c (mlobby m)) as [[r l] o]. cbn in Hc. injection Hext as <- <-.
  split; [reflexivity|exact Hc].
Qed.

Lemma step_trace cfg m act m' out :
  forced act = false ->
  step cfg m act = Some (m', out) ->
  (noFinish out \/ (control m' = Halted /\ finishAtEnd out))
  /\ (control m = Halted -> control m' = Halted /\ out = []).
Proof.
  intros Hforced Hstep. unfold step in Hstep.
  destruct act as [a| |t|users a|client direction| |client| ];
    try discriminate Hforced.
  - destruct (control m) eqn:Ectl; try discriminate Hstep.
    injection Hstep as Hstep. split; [|discriminate].
    eapply callback_trace; [|exact Hstep].
    apply haltsOnFinish_quiet. apply within_bind; [typeclasses eauto| |intros ?].
    + apply triggerStart_noFinish.
    + within_solve.
  - destruct (control m) eqn:Ectl; try discriminate Hstep;
      injection Hstep as Hstep; (split; [|discriminate]);
      (eapply callback_trace; [|exact Hstep]).
    + apply haltsOnFinish_quiet, startTick_noFinish.
    + apply pauseTick_haltsOnFinish.
  - destruct (control m) eqn:Ectl; try discriminate Hstep.
    injection Hstep as Hstep. split; [|discriminate].
    eapply callback_trace; [|exact Hstep].
    apply haltsOnFinish_quiet, gameLoop_noFinish.
  - destruct (control m) eqn:Ectl; try discriminate Hstep.
    injection Hstep as Hstep. split; [|discriminate].
    eapply callback_trace; [|exact Hstep].
    apply whileIteration_haltsOnFinish.
  - destruct (interruptible (control m)); [|discriminate Hstep].
    injection Hstep as Hstep.
    apply external_silent in Hstep as [Hctl ->]; [|apply movePaddle_silent].
    split; [left; constructor|]. intros Hh. split; congruence.
  - destruct (interruptible (control m)); [|discriminate Hstep].
    injection Hstep as <- <-.
    split; [left; constructor|]. intros Hh. split; [exact Hh|reflexivity].
Qed.

Lemma exec_halted cfg acts : forall m m' out,
  forallb (fun act => negb (forced act)) acts = true ->
  control m = Halted ->
  exec cfg m acts = Some (m', out) ->
  out = [].
Proof.
  induction acts as [|act rest IH]; intros m m' out Hacts Hctl Hexec.
  - injection Hexec as _ <-. reflexivity.
  - cbn in Hacts. apply andb_true_iff in Hacts as [Hact Hrest].
    apply negb_true_iff in Hact. cbn in Hexec.
    destruct (step cfg m act) as [[m1 o1]|] eqn:Hstep; [|discriminate].
    destruct (exec cfg m1 rest) as [[m2 o2]|] eqn:Hrun; [|discriminate].
    injection Hexec as _ <-.
    destruct (step_trace cfg m act m1 o1 Hact Hstep) as [_ Hh].
    destruct (Hh Hctl) as [Hctl1 ->].
    rewrite (IH m1 m2 o2 Hrest Hctl1 Hrun). reflexivity.
Qed.

Lemma exec_trace cfg acts : forall m m' out,
  forallb (fun act => negb (forced act)) acts = true ->
  exec cfg m acts = Some (m', out) ->
  noFinish out \/ finishAtEnd out.
Proof.
  induction acts as [|act rest IH]; intros m m' out Hacts Hexec.
  - injection Hexec as _ <-. left. constructor.
  - cbn in Hacts. apply andb_true_iff in Hacts as [Hact Hrest].
    apply negb_true_iff in Hact. cbn in Hexec.
    destruct (step cfg m act) as [[m1 o1]|] eqn:Hstep; [|discriminate].
    destruct (exec cfg m1 rest) as [[m2 o2]|] eqn:Hrun; [|discriminate].
    injection Hexec as _ <-.
    destruct (step_trace cfg m act m1 o1 Hact Hstep) as [[Hno | [Hctl Hfin]] _].
    + destruct (IH m1 m2 o2 Hrest Hrun) as [Hno2 | Hfin2].
      * left. apply Forall_app. split; assumption.
      * right. apply finishAtEnd_app; assumption.
    + rewrite (exec_halted cfg rest m1 m2 o2 Hrest Hctl Hrun).
      rewrite app_nil_r. right. exact Hfin.
Qed.

Lemma noFinish_finishIsLast out : noFinish out -> finishIsLast out.
Proof.
  intros Hno before e after -> He.
  apply Forall_app in Hno as [_ Hno]. apply Forall_cons in Hno as [Hno _].
  congruence.
Qed.

Lemma finishAtEnd_finishIsLast out : finishAtEnd out -> finishIsLast out.
Proof.
  intros (pre & fin & -> & Hno & Hfin) before e after Heq He.
  destruct after as [|x after] using rev_ind; [reflexivity|].
  clear IHafter. exfalso.
  rewrite app_comm_cons, app_assoc in Heq.
  apply app_inj_tail in Heq as [-> _].
  apply Forall_app in Hno as [_ Hno]. apply Forall_cons in Hno as [Hno _].
  congruence.
Qed.

(** ** Scores *)

Lemma js_strict_eq_true v k : js_strict_eq v k = true <-> v = Some (Num k).
Proof.
  destruct v as [[n|]|]; cbn; split; try discriminate.
  - intros H. apply Z.eqb_eq in H. subst. reflexivity.
  - intros H. injection H as ->. apply Z.eqb_refl.
Qed.

Lemma player2_player1 l p2 : player2 l = Some p2 -> exists p1, player1 l = Some p1.
Proof.
  unfold player1, player2. destruct (players l) as [|p1 ps]; [discriminate|].
  intros _. exists p1. reflexivity.
Qed.

Lemma player1_seated l p : player1 l = Some p -> p ∈ players l.
Proof. unfold player1. apply list_elem_of_lookup_2. Qed.

Lemma player2_seated l p : player2 l = Some p -> p ∈ players l.
Proof. unfold player2. apply list_elem_of_lookup_2. Qed.

Lemma finished_then_quiet {A} (rest : M Lobby A) l :
  within quiet rest ->
  let l' := (bind (modGame (set_hasFinished true)) (fun _ => rest) l).1.2 in
  players l' = players l
  /\ scores (instance l') = scores (instance l)
  /\ hasFinished (instance l') = true.
Proof.
  intros Hq. erewrite bind_state by reflexivity.
  specialize (Hq (set_instance (set_hasFinished true (instance l)) l)).
  destruct (rest _) as [[r s2] o2]. cbn in *. exact Hq.
Qed.

Ltac seats_solve :=
  intros;
  repeat match goal with
         | H : _ \/ _ |- _ => destruct H
         | H : exists _, _ |- _ => destruct H
         | H : js_strict_eq _ _ = false |- _ =>
             apply not_true_iff_false in H; rewrite js_strict_eq_true in H
         end;
  try match goal with
      | H : player2 ?l = Some _, E : player1 ?l = None |- _ =>
          apply player2_player1 in H as [? ?]
      end;
  simplify_eq; try congruence.

Lemma checkGameFinish_finishChecked cfg users l :
  finishChecked cfg l (checkGameFinish cfg users l).1.2.
Proof.
  unfold checkGameFinish. erewrite bind_state by reflexivity.
  destruct (player1 l) as [p1|] eqn:Ep1; cbn [required].
  2:{ cbn. repeat split; auto; seats_solve. }
  erewrite bind_state by reflexivity.
  destruct (js_strict_eq (scores (instance l) !! data_id p1) (cfg_maxScore cfg)) eqn:E1.
  - apply js_strict_eq_true in E1.
    match goal with
    | |- context [bind (modGame (set_hasFinished true)) (fun _ => ?rest) l] =>
        pose proof (finished_then_quiet rest l) as Hq
    end.
    cbv zeta in Hq. destruct Hq as (Hp & Hs & Hf); [within_solve|].
    repeat split; auto.
    intros _. right. exists (data_id p1). exact E1.
  - destruct (player2 l) as [p2|] eqn:Ep2; cbn [required].
    2:{ cbn. repeat split; auto; seats_solve. }
    erewrite bind_state by reflexivity.
    destruct (js_strict_eq (scores (instance l) !! data_id p2) (cfg_maxScore cfg)) eqn:E2.
    + apply js_strict_eq_true in E2.
      match goal with
      | |- context [bind (modGame (set_hasFinished true)) (fun _ => ?rest) l] =>
          pose proof (finished_then_quiet rest l) as Hq
      end.
      cbv zeta in Hq. destruct Hq as (Hp & Hs & Hf); [within_solve|].
      repeat split; auto.
      intros _. right. exists (data_id p2). exact E2.
    + cbn. repeat split; auto; seats_solve.
Qed.

Section Reaches.
Context (R : Lobby -> Lobby -> Prop) `{!Absorbs R}.

Lemma reaches_quiet {A} (c : M Lobby A) : within quiet c -> reaches R c.
Proof. intros H l. eapply absorbs_quiet. apply H. Qed.

Lemma reaches_bind {A B} (m : M Lobby A) (k : A -> M Lobby B) :
  within quiet m -> (forall a, reaches R (k a)) -> reaches R (bind m k).
Proof.
  intros Hm Hk l. specialize (Hm l).
  destruct (m l) as [[[a|e] l1] o1] eqn:E; cbn in Hm.
  - erewrite bind_state by exact E. eapply absorbs_left; [exact Hm|apply Hk].
  - erewrite bind_state_Throw by exact E. eapply absorbs_quiet. exact Hm.
Qed.

Lemma reaches_bind_right {A B} (m : M Lobby A) (k : A -> M Lobby B) :
  reaches R m -> (forall a, within quiet (k a)) -> reaches R (bind m k).
Proof.
  intros Hm Hk l. specialize (Hm l).
  destruct (m l) as [[[a|e] l1] o1] eqn:E; cbn in Hm.
  - erewrite bind_state by exact E. eapply absorbs_right; [exact Hm|apply Hk].
  - erewrite bind_state_Throw by exact E. exact Hm.
Qed.

End Reaches.

Lemma quiet_player1 l l' out : quiet l l' out -> player1 l' = player1 l.
Proof. intros (Hp & _). unfold player1. rewrite Hp. reflexivity. Qed.

Lemma quiet_player2 l l' out : quiet l l' out -> player2 l' = player2 l.
Proof. intros (Hp & _). unfold player2. rewrite Hp. reflexivity. Qed.

Lemma quiet_someScoreIsMax cfg l l' out :
  quiet l l' out -> someScoreIsMax cfg (instance l') <-> someScoreIsMax cfg (instance l).
Proof. intros (_ & Hs & _). unfold someScoreIsMax. rewrite Hs. reflexivity. Qed.

Lemma finishChecked_left cfg l l1 l2 out :
  quiet l l1 out -> finishChecked cfg l1 l2 -> finishChecked cfg l l2.
Proof.
  intros Hq (Hp & Hs & Hf & Hg & H5 & H6).
  pose proof (quiet_player1 _ _ _ Hq) as E1.
  pose proof (quiet_player2 _ _ _ Hq) as E2.
  pose proof (quiet_someScoreIsMax cfg _ _ _ Hq) as Em.
  destruct Hq as (Hp' & Hs' & Hf').
  unfold finishChecked. rewrite <- Hp', <- Hs', <- Hf', <- E1, <- E2, <- Em.
  repeat split; auto.
Qed.

Lemma finishChecked_right cfg l l1 l2 out :
  finishChecked cfg l l1 -> quiet l1 l2 out -> finishChecked cfg l l2.
Proof.
  intros (Hp & Hs & Hf & Hg & H5 & H6) (Hp' & Hs' & Hf').
  unfold finishChecked. rewrite Hp', Hs', Hf'. repeat split; auto.
Qed.

#[global] Instance pointScored_absorbs cfg : Absorbs (pointScored cfg).
Proof.
  split.
  - intros l l' out (Hp & Hs & Hf). split; [exact Hp|]. left. split; assumption.
  - intros l l1 l2 out (Hp & Hs & Hf) (Hp2 & Hcase).
    unfold pointScored, someScoreIsMax in *.
    rewrite <- Hp, <- Hs, <- Hf. split; [exact Hp2|exact Hcase].
  - intros l l1 l2 out (Hp & Hcase) (Hp2 & Hs2 & Hf2).
    unfold pointScored, someScoreIsMax in *.
    rewrite Hp2, Hs2, Hf2. split; [exact Hp|exact Hcase].
Qed.

(** The statements of [handleScreenBoundsCollision] after the increment. *)
Lemma afterIncrement_finishChecked cfg users a l :
  finishChecked cfg l
    ((modGame (initializeGameObjects cfg a) ;;;
      dispatchScore ;;;
      checkGameFinish cfg users ;;;
      g <- getGame ;;
      if hasFinished g then ret tt else modGame (set_gamePaused true)) l).1.2.
Proof.
  erewrite bind_state by reflexivity.
  erewrite bind_state by reflexivity.
  set (l1 := set_instance (initializeGameObjects cfg a (instance l)) l).
  eapply (finishChecked_left cfg l l1 _ []); [repeat split|].
  pose proof (checkGameFinish_finishChecked cfg users l1) as Hc.
  destruct (checkGameFinish cfg users l1) as [[[[]|e] l2] o2] eqn:E; cbn in Hc.
  - erewrite bind_state by exact E.
    eapply finishChecked_right; [exact Hc|].
    assert (Hq : within quiet
                   (g <- getGame ;;
                    if hasFinished g then ret tt else modGame (set_gamePaused true)))
      by within_solve.
    apply Hq.
  - erewrite bind_state_Throw by exact E. exact Hc.
Qed.

Lemma incrementScore_pointScored cfg users a l p :
  p ∈ players l ->
  (player1 l = Some p \/ player2 l = Some p) ->
  (player1 l = Some p \/ exists q, player2 l = Some q) ->
  pointScored cfg l
    ((modGame (initializeGameObjects cfg a) ;;;
      dispatchScore ;;;
      checkGameFinish cfg users ;;;
      g <- getGame ;;
      if hasFinished g then ret tt else modGame (set_gamePaused true))
       (set_instance (incrementScore (data_id p) (instance l)) l)).1.2.
Proof.
  intros Hin Hp Hq.
  set (l1 := set_instance (incrementScore (data_id p) (instance l)) l).
  pose proof (afterIncrement_finishChecked cfg users a l1) as (Hpl & Hs & Hf & Hg & H5 & H6).
  split; [exact Hpl|]. right. exists p. rewrite Hs.
  repeat split; auto.
  - intros Hfin. destruct (Hg Hfin) as [Hold | Hmax]; [left; exact Hold|].
    right. unfold someScoreIsMax. rewrite Hs. exact Hmax.
  - intros Hmax. destruct Hq as [Hq | Hq].
    + apply (H6 p); [exact Hq|exact Hmax].
    + apply (H5 p); [exact Hp|exact Hq|exact Hmax].
Qed.

Lemma getObjects_state l r l0 out : getObjects l = (r, l0, out) -> l0 = l.
Proof.
  unfold getObjects, getGame, bind, required.
  destruct (objects (instance l)); cbn; congruence.
Qed.

Lemma handleScreenBoundsCollision_pointScored cfg users a :
  reaches (pointScored cfg) (handleScreenBoundsCollision cfg users a).
Proof.
  intros l. unfold handleScreenBoundsCollision.
  destruct (getObjects l) as [[[o|e] l0] o0] eqn:Eo;
    pose proof (getObjects_state _ _ _ _ Eo) as ->.
  2:{ erewrite bind_state_Throw by exact Eo.
      eapply (absorbs_quiet _ _ []). repeat split. }
  erewrite bind_state by exact Eo.
  erewrite bind_state by reflexivity.
  destruct (Qle_bool (ball_x (ball o)) (ball_radius (ball o))).
  - destruct (player2 l) as [p|] eqn:Ep; cbn [required].
    + erewrite bind_state by reflexivity.
      apply incrementScore_pointScored.
      * apply player2_seated, Ep.
      * right. exact Ep.
      * right. exists p. exact Ep.
    + eapply (absorbs_quiet _ _ []). repeat split.
  - destruct (player1 l) as [p|] eqn:Ep; cbn [required].
    + erewrite bind_state by reflexivity.
      apply incrementScore_pointScored.
      * apply player1_seated, Ep.
      * left. exact Ep.
      * left. exact Ep.
    + eapply (absorbs_quiet _ _ []). repeat split.
Qed.

Lemma handleCollisions_pointScored cfg users a :
  reaches (pointScored cfg) (handleCollisions cfg users a).
Proof.
  unfold handleCollisions.
  apply reaches_bind; [typeclasses eauto|auto with within|intros o0].
  apply reaches_bind; [typeclasses eauto|auto with within|intros g].
  apply reaches_bind; [typeclasses eauto|auto with within|intros _].
  cbv zeta.
  destruct (_ || _).
  - apply reaches_quiet; [typeclasses eauto|auto with within].
  - destruct (_ || _).
    + apply handleScreenBoundsCollision_pointScored.
    + apply reaches_quiet; [typeclasses eauto|auto with within].
Qed.

Lemma updateGameState_pointScored cfg users a ts :
  reaches (pointScored cfg) (updateGameState cfg users a ts).
Proof.
  unfold updateGameState.
  apply reaches_bind; [typeclasses eauto|auto with within|intros o0].
  apply reaches_bind; [typeclasses eauto|auto with within|intros _].
  apply reaches_bind; [typeclasses eauto|auto with within|intros o1].
  apply reaches_bind; [typeclasses eauto|auto with within|intros _].
  apply handleCollisions_pointScored.
Qed.

Lemma afterPause_quiet cfg acc : within quiet (afterPause cfg acc).
Proof.
  intros l. unfold afterPause. erewrite bind_state by reflexivity.
  destruct (hasFinished (instance l)) eqn:E.
  - cbn. repeat split. rewrite E. reflexivity.
  - assert (Hq : within quiet (sendGameState ;;; ret (InWhile (acc - cfg_timeStep cfg))))
      by within_solve.
    apply Hq.
Qed.

#[global] Hint Resolve afterPause_quiet : within.

Lemma whileIteration_pointScored cfg users a acc :
  reaches (pointScored cfg) (whileIteration cfg users a acc).
Proof.
  unfold whileIteration. destruct (Qgeb acc (cfg_timeStep cfg)).
  - apply reaches_bind_right; [typeclasses eauto| |intros _].
    + apply updateGameState_pointScored.
    + within_solve.
  - apply reaches_quiet; [typeclasses eauto|within_solve].
Qed.

Lemma pauseTick_quiet cfg acc n : within quiet (pauseTick cfg acc n).
Proof. unfold pauseTick. within_solve. Qed.

Lemma bind_resumes {A} (m : M Lobby A) (k : A -> M Lobby Control) l :
  (forall a l1, resumes (k a l1)) -> resumes (bind m k l).
Proof.
  intros Hk. unfold bind. destruct (m l) as [[[a|e] l1] o1].
  - specialize (Hk a l1). destruct (k a l1) as [[r2 l2] o2]. exact Hk.
  - split; [intros acc|]; discriminate.
Qed.

Lemma afterPause_resumes cfg acc l : resumes (afterPause cfg acc l).
Proof.
  unfold afterPause, resumes.
  erewrite bind_result by reflexivity. erewrite bind_state by reflexivity.
  destruct (hasFinished (instance l)) eqn:E.
  - cbn. split; [intros acc'|]; discriminate.
  - split.
    + intros acc' _.
      assert (Hq : within quiet (sendGameState ;;; ret (InWhile (acc - cfg_timeStep cfg))))
        by within_solve.
      destruct (Hq l) as (_ & _ & Hf). rewrite Hf. exact E.
    + unfold bind. destruct (sendGameState l) as [[[[]|e] l1] o1]; cbn; discriminate.
Qed.

Ltac resumes_solve :=
  repeat first
    [ apply afterPause_resumes
    | apply bind_resumes; intros ? ?
    | (split; [intros ?|]; cbn; discriminate)
    | match goal with
      | |- resumes ((if ?b then _ else _) _) => destruct b
      | |- resumes ((match ?x with _ => _ end) _) => destruct x
      end ].

Lemma whileIteration_resumes cfg users a acc l :
  resumes (whileIteration cfg users a acc l).
Proof. unfold whileIteration. resumes_solve. Qed.

Lemma pauseTick_resumes cfg acc n l : resumes (pauseTick cfg acc n l).
Proof. unfold pauseTick. resumes_solve. Qed.

Lemma startTick_resumes n l : resumes (startTick n l).
Proof. unfold startTick, triggerStart_resume. resumes_solve. Qed.

Lemma gameLoop_resumes acc t l : resumes (gameLoop acc t l).
Proof.
  unfold gameLoop, resumes.
  erewrite bind_result by reflexivity. erewrite bind_state by reflexivity.
  destruct (hasFinished (instance l)) eqn:E; cbn;
    [split; [intros acc'|]; discriminate|].
  destruct (stop (instance l)); cbn; [split; [intros acc'|]; discriminate|].
  split; [intros acc' _; exact E|discriminate].
Qed.

(** ** The invariant of the machine *)

Lemma scoresMonotone_refl g g' : scores g' = scores g -> scoresMonotone g g'.
Proof. intros H u n Hu. exists n. rewrite H. split; [exact Hu|lia]. Qed.

Lemma pointScored_inv cfg l l' :
  1 <= cfg_maxScore cfg ->
  scoreWithin (instance l) (cfg_maxScore cfg) ->
  (someScoreIsMax cfg (instance l) -> hasFinished (instance l) = true) ->
  hasFinished (instance l) = false ->
  seatedScores l ->
  pointScored cfg l l' ->
  scoreWithin (instance l') (cfg_maxScore cfg)
  /\ (someScoreIsMax cfg (instance l') -> hasFinished (instance l') = true)
  /\ seatedScores l'
  /\ scoresMonotone (instance l) (instance l')
  /\ (hasFinished (instance l') = true -> someScoreIsMax cfg (instance l')).
Proof.
  intros Hmax Hwithin Hfin Hun Hseated (Hp & [(Hs & Hf) | (p & Hin & Hs & Hf1 & Hf2 & Hf3)]).
  - unfold scoreWithin, someScoreIsMax, seatedScores.
    rewrite Hp, Hs, Hf. repeat split; auto.
    + apply scoresMonotone_refl, Hs.
    + congruence.
  - destruct (Hseated p Hin) as [v Hv].
    destruct (Hwithin _ _ Hv) as (n & -> & Hn).
    assert (n <> cfg_maxScore cfg) as Hne.
    { intros ->. assert (hasFinished (instance l) = true); [|congruence].
      apply Hfin. exists (data_id p). exact Hv. }
    rewrite Hv in Hs. cbn in Hs.
    repeat split.
    + intros u v Hu. rewrite Hs in Hu.
      destruct (decide (data_id p = u)) as [<-|Hneq].
      * rewrite lookup_insert_eq in Hu. injection Hu as <-.
        exists (n + 1). split; [reflexivity|lia].
      * rewrite lookup_insert_ne in Hu by exact Hneq. eapply Hwithin, Hu.
    + intros (u & Hu).
      destruct (decide (data_id p = u)) as [<-|Hneq].
      * apply Hf3, Hu.
      * rewrite Hs, lookup_insert_ne in Hu by exact Hneq.
        assert (hasFinished (instance l) = true); [|congruence].
        apply Hfin. exists u. exact Hu.
    + intros q Hq. rewrite Hp in Hq. rewrite Hs.
      destruct (decide (data_id p = data_id q)) as [<-|Hneq].
      * rewrite lookup_insert_eq. eexists. reflexivity.
      * rewrite lookup_insert_ne by exact Hneq. apply Hseated, Hq.
    + intros u k Hu. rewrite Hs.
      destruct (decide (data_id p = u)) as [<-|Hneq].
      * rewrite lookup_insert_eq. rewrite Hv in Hu. injection Hu as <-.
        exists (n + 1). split; [reflexivity|lia].
      * rewrite lookup_insert_ne by exact Hneq. exists k. split; [exact Hu|lia].
    + intros Hfin'. destruct (Hf2 Hfin') as [Hold | Hnew]; [congruence|exact Hnew].
Qed.

Lemma callback_control c m :
  control (callback c m).1 =
    match (c (mlobby m)).1.1 with
    | Ok k => k
    | Throw _ => Crashed
    end
  /\ mlobby (callback c m).1 = (c (mlobby m)).1.2
  /\ (callback c m).2 = (c (mlobby m)).2.
Proof.
  unfold callback. destruct (c (mlobby m)) as [[[k|e] l] out]; repeat split.
Qed.

Lemma callback_resumes c m :
  resumes (c (mlobby m)) ->
  (forall acc, control (callback c m).1 = InWhile acc ->
     hasFinished (instance (mlobby (callback c m).1)) = false)
  /\ control (callback c m).1 <> NotStarted.
Proof.
  intros (Hw & Hn). destruct (callback_control c m) as (Hk & Hl & _).
  rewrite Hk, Hl. destruct (c (mlobby m)) as [[[k|e] l] out]; cbn in *.
  - split; [|congruence]. intros acc ->. apply (Hw acc). reflexivity.
  - split; [intros acc|]; discriminate.
Qed.

(** A quiet callback keeps the invariant. *)
Lemma callback_quiet_Inv cfg c m :
  within quiet c ->
  (forall l, resumes (c l)) ->
  control m <> NotStarted ->
  Inv cfg m ->
  Inv cfg (callback c m).1
  /\ scoresMonotone (instance (mlobby m)) (instance (mlobby (callback c m).1))
  /\ (Unforced cfg m -> Unforced cfg (callback c m).1).
Proof.
  intros Hq Hw Hctl (I1 & I2 & I3 & I4 & I6).
  destruct (callback_resumes c m (Hw _)) as (Hin & Hns).
  destruct (callback_control c m) as (Hk & Hl & _).
  destruct (Hq (mlobby m)) as (Hp & Hs & Hf).
  rewrite <- Hl in Hp, Hs, Hf.
  split; [|split].
  - unfold Inv, scoreWithin, someScoreIsMax, seatedScores in *. cbv zeta.
    rewrite Hs, Hf, Hp. repeat split; auto.
    + intros acc Hacc. rewrite <- Hf. apply (Hin acc Hacc).
    + intros Hn. contradiction.
  - apply scoresMonotone_refl, Hs.
  - unfold Unforced, someScoreIsMax. rewrite Hs, Hf. auto.
Qed.

Lemma whileIteration_Inv cfg users a acc m :
  1 <= cfg_maxScore cfg ->
  control m = InWhile acc ->
  Inv cfg m ->
  Inv cfg (callback (whileIteration cfg users a acc) m).1
  /\ scoresMonotone (instance (mlobby m))
       (instance (mlobby (callback (whileIteration cfg users a acc) m).1))
  /\ (Unforced cfg m -> Unforced cfg (callback (whileIteration cfg users a acc) m).1).
Proof.
  intros Hmax Hctl (I1 & I2 & I3 & I4 & I6).
  set (c := whileIteration cfg users a acc).
  destruct (callback_resumes c m (whileIteration_resumes _ _ _ _ _)) as (Hin & Hns).
  destruct (callback_control c m) as (Hk & Hl & _).
  pose proof (whileIteration_pointScored cfg users a acc (mlobby m)) as Hps.
  fold c in Hps. rewrite <- Hl in Hps.
  assert (Hun : hasFinished (instance (mlobby m)) = false) by (apply (I4 acc), Hctl).
  assert (Hseat : seatedScores (mlobby m)) by (apply I3; [exact Hun|congruence]).
  destruct (pointScored_inv cfg _ _ Hmax I1 I2 Hun Hseat Hps) as (J1 & J2 & J3 & J4 & J5).
  split; [|split].
  - repeat split; auto. intros Hn. contradiction.
  - exact J4.
  - intros _. exact J5.
Qed.

(** The scores after the loop of [triggerStart] over the seated players. *)
Lemma lookup_zeroed (ps : list AuthenticatedSocket) (s : gmap string JsNum) u :
  foldl (fun s p => <[data_id p := Num 0]> s) s ps !! u =
    if bool_decide (u ∈ data_id <$> ps) then Some (Num 0) else s !! u.
Proof.
  revert s. induction ps as [|p ps IH]; intros s; cbn.
  - reflexivity.
  - rewrite IH. destruct (decide (u = data_id p)) as [->|Hne].
    + rewrite lookup_insert_eq.
      rewrite (bool_decide_eq_true_2 (data_id p ∈ data_id p :: _))
        by apply list_elem_of_here.
      case_bool_decide; reflexivity.
    + rewrite lookup_insert_ne by congruence.
      rewrite (bool_decide_ext (u ∈ data_id p :: (data_id <$> ps))
                 (u ∈ data_id <$> ps)); [reflexivity|].
      rewrite elem_of_cons. split; [|auto]. intros [?|?]; [contradiction|assumption].
Qed.

Lemma triggerStart_started cfg a l :
  quiet (started cfg a l) (triggerStart cfg a l).1.2 [].
Proof.
  unfold triggerStart. rewrite try_catch_state.
  erewrite bind_state by reflexivity.
  erewrite bind_state by reflexivity.
  erewrite bind_state by reflexivity.
  erewrite bind_state by reflexivity.
  match goal with
  | |- quiet _ (?c ?s).1.2 _ =>
      assert (Hq : within quiet c) by within_solve; apply (Hq s)
  end.
Qed.

Lemma triggerStart_Inv cfg a m :
  1 <= cfg_maxScore cfg ->
  control m = NotStarted ->
  Inv cfg m ->
  let m' := (callback (r <- triggerStart cfg a ;; ret (Starting r)) m).1 in
  Inv cfg m'
  /\ scoresMonotone (instance (mlobby m)) (instance (mlobby m'))
  /\ (Unforced cfg m -> Unforced cfg m').
Proof.
  intros Hmax Hctl (I1 & I2 & I3 & I4 & I6) m'.
  set (c := r <- triggerStart cfg a ;; ret (Starting r)) in *.
  assert (Hres : resumes (c (mlobby m))).
  { unfold c. apply bind_resumes. intros r l1. split; [intros acc|]; discriminate. }
  destruct (callback_resumes c m Hres) as (Hin & Hns).
  destruct (callback_control c m) as (_ & Hl & _).
  assert (Hq : quiet (started cfg a (mlobby m)) (mlobby m') []).
  { unfold m'. rewrite Hl. unfold c.
    pose proof (triggerStart_started cfg a (mlobby m)) as Hts.
    destruct (triggerStart cfg a (mlobby m)) as [[[r|e] l1] o1] eqn:E.
    - erewrite bind_state by exact E. exact Hts.
    - erewrite bind_state_Throw by exact E. exact Hts. }
  destruct Hq as (Hp & Hs & Hf). cbn in Hp, Hs, Hf.
  rewrite (I6 Hctl) in Hs.
  assert (Hlook : forall u, scores (instance (mlobby m')) !! u =
            if bool_decide (u ∈ data_id <$> players (mlobby m))
            then Some (Num 0) else None).
  { intros u. rewrite Hs, lookup_zeroed, lookup_empty. reflexivity. }
  split; [|split].
  - repeat split.
    + intros u v Hu. rewrite Hlook in Hu. case_bool_decide; [|discriminate].
      injection Hu as <-. exists 0. split; [reflexivity|lia].
    + intros (u & Hu). rewrite Hlook in Hu. case_bool_decide; [|discriminate].
      injection Hu as Hu. lia.
    + intros _ _ p Hin'. rewrite Hp in Hin'. rewrite Hlook.
      rewrite bool_decide_eq_true_2; [eexists; reflexivity|].
      apply list_elem_of_fmap_2. exact Hin'.
    + exact Hin.
    + intros Hn. contradiction.
  - intros u n Hu. rewrite (I6 Hctl), lookup_empty in Hu. discriminate.
  - intros Hunf Hfin. rewrite Hf in Hfin. cbn in Hfin.
    destruct (Hunf Hfin) as (u & Hu). rewrite (I6 Hctl), lookup_empty in Hu.
    discriminate.
Qed.

Lemma external_control c m :
  control (external c m).1 = control m
  /\ mlobby (external c m).1 = (c (mlobby m)).1.2.
Proof. unfold external. destruct (c (mlobby m)) as [[r l] out]. split; reflexivity. Qed.

(** A quiet call from outside keeps the invariant. *)
Lemma external_quiet_Inv cfg c m :
  within quiet c ->
  Inv cfg m ->
  Inv cfg (external c m).1
  /\ scoresMonotone (instance (mlobby m)) (instance (mlobby (external c m).1))
  /\ (Unforced cfg m -> Unforced cfg (external c m).1).
Proof.
  intros Hq (I1 & I2 & I3 & I4 & I6).
  destruct (external_control c m) as (Hk & Hl).
  destruct (Hq (mlobby m)) as (Hp & Hs & Hf).
  rewrite <- Hl in Hp, Hs, Hf.
  split; [|split].
  - unfold Inv, scoreWithin, someScoreIsMax, seatedScores in *. cbv zeta.
    rewrite Hs, Hf, Hp, Hk. repeat split; auto.
  - apply scoresMonotone_refl, Hs.
  - unfold Unforced, someScoreIsMax. rewrite Hs, Hf. auto.
Qed.

(** A call from outside that ends the match keeps the invariant. *)
Lemma external_forced_Inv cfg c m :
  (forall l, scores (instance (c l).1.2) = scores (instance l)
             /\ hasFinished (instance (c l).1.2) = true) ->
  interruptible (control m) = true ->
  Inv cfg m ->
  Inv cfg (external c m).1
  /\ scoresMonotone (instance (mlobby m)) (instance (mlobby (external c m).1)).
Proof.
  intros Hc Hint (I1 & I2 & I3 & I4 & I6).
  destruct (external_control c m) as (Hk & Hl).
  destruct (Hc (mlobby m)) as (Hs & Hf).
  rewrite <- Hl in Hs, Hf.
  split.
  - unfold Inv, scoreWithin, someScoreIsMax in *. cbv zeta.
    rewrite Hs, Hf, Hk. repeat split; auto.
    + intros Hcontra. discriminate.
    + intros acc Hacc. rewrite Hacc in Hint. discriminate.
  - apply scoresMonotone_refl, Hs.
Qed.

Lemma step_Inv cfg m act m' out :
  1 <= cfg_maxScore cfg ->
  Inv cfg m ->
  step cfg m act = Some (m', out) ->
  Inv cfg m'
  /\ scoresMonotone (instance (mlobby m)) (instance (mlobby m'))
  /\ (forced act = false -> Unforced cfg m -> Unforced cfg m').
Proof.
  intros Hmax HI Hstep. unfold step in Hstep.
  destruct act as [a| |t|users a|client direction| |client| ].
  - destruct (control m) eqn:Ectl; try discriminate Hstep.
    injection Hstep as Hstep.
    destruct (triggerStart_Inv cfg a m Hmax Ectl HI) as (H1 & H2 & H3).
    cbv zeta in H1, H2, H3. rewrite Hstep in H1, H2, H3. auto.
  - destruct (control m) eqn:Ectl; try discriminate Hstep;
      injection Hstep as Hstep.
    + destruct (callback_quiet_Inv cfg (startTick remainingSeconds) m)
        as (H1 & H2 & H3); auto using startTick_quiet, startTick_resumes.
      { congruence. }
      rewrite Hstep in H1, H2, H3. auto.
    + destruct (callback_quiet_Inv cfg (pauseTick cfg accumulator remainingSeconds) m)
        as (H1 & H2 & H3); auto using pauseTick_quiet, pauseTick_resumes.
      { congruence. }
      rewrite Hstep in H1, H2, H3. auto.
  - destruct (control m) eqn:Ectl; try discriminate Hstep.
    injection Hstep as Hstep.
    destruct (callback_quiet_Inv cfg (gameLoop accumulator t) m)
      as (H1 & H2 & H3); auto using gameLoop_quiet, gameLoop_resumes.
    { congruence. }
    rewrite Hstep in H1, H2, H3. auto.
  - destruct (control m) eqn:Ectl; try discriminate Hstep.
    injection Hstep as Hstep.
    destruct (whileIteration_Inv cfg users a accumulator m Hmax Ectl HI)
      as (H1 & H2 & H3).
    rewrite Hstep in H1, H2, H3. auto.
  - destruct (interruptible (control m)); [|discriminate Hstep].
    injection Hstep as Hstep.
    destruct (external_quiet_Inv cfg (movePaddle client direction) m)
      as (H1 & H2 & H3); auto using movePaddle_quiet.
    rewrite Hstep in H1, H2, H3. auto.
  - destruct (interruptible (control m)); [|discriminate Hstep].
    injection Hstep as <- <-.
    destruct (external_quiet_Inv cfg (modGame (set_stop true)) m)
      as (H1 & H2 & H3); [within_solve|exact HI|].
    split; [exact H1|]. split; [exact H2|]. intros _. exact H3.
  - destruct (interruptible (control m)) eqn:Eint; [|discriminate Hstep].
    destruct (players_has _ _); [|discriminate Hstep].
    injection Hstep as <- <-.
    destruct (external_forced_Inv cfg (departure client) m) as (H1 & H2);
      [intros l; split; reflexivity|exact Eint|exact HI|].
    split; [exact H1|]. split; [exact H2|]. discriminate.
  - destruct (interruptible (control m)) eqn:Eint; [|discriminate Hstep].
    injection Hstep as <- <-.
    destruct (external_forced_Inv cfg expiry m) as (H1 & H2);
      [intros l; split; reflexivity|exact Eint|exact HI|].
    split; [exact H1|]. split; [exact H2|]. discriminate.
Qed.

Lemma initial_Inv cfg l : freshLobby cfg l -> Inv cfg (initial l) /\ Unforced cfg (initial l).
Proof.
  intros (direction & Hg). unfold Inv, Unforced, scoreWithin, someScoreIsMax.
  cbn. rewrite Hg. cbn. split; [|discriminate].
  split; [|split; [|split; [|split]]].
  - intros u v Hu. rewrite lookup_empty in Hu. discriminate.
  - intros (u & Hu). rewrite lookup_empty in Hu. discriminate.
  - intros _ Hn. contradiction.
  - reflexivity.
  - reflexivity.
Qed.

Lemma exec_Inv cfg acts : forall m m' out,
  1 <= cfg_maxScore cfg ->
  Inv cfg m ->
  exec cfg m acts = Some (m', out) ->
  Inv cfg m'
  /\ (forallb (fun act => negb (forced act)) acts = true ->
      Unforced cfg m -> Unforced cfg m').
Proof.
  induction acts as [|act rest IH]; intros m m' out Hmax HI Hexec.
  - injection Hexec as <- _. auto.
  - cbn in Hexec.
    destruct (step cfg m act) as [[m1 o1]|] eqn:Hstep; [|discriminate].
    destruct (exec cfg m1 rest) as [[m2 o2]|] eqn:Hrun; [|discriminate].
    injection Hexec as <- _.
    destruct (step_Inv cfg m act m1 o1 Hmax HI Hstep) as (H1 & _ & H3).
    destruct (IH m1 m2 o2 Hmax H1 Hrun) as (J1 & J2).
    split; [exact J1|].
    cbn. intros Hacts Hunf. apply andb_true_iff in Hacts as [Hact Hrest].
    apply negb_true_iff in Hact. auto.
Qed.

(** ** Scores and the end of the match *)

(** C1, as the code has it: in every run of the engine of a lobby, from its
    creation, with a maximal score of at least 1: every score is an integer
    between 0 and the maximal score; when some score equals the maximal
    score the engine is marked finished; when the run holds no forced end
    (no departure, no expiry) the engine is marked finished only if some
    score equals the maximal score; and no step of the engine decreases the
    score of any player. *)
Theorem engine_scores cfg l acts m out :
  1 <= cfg_maxScore cfg ->
  freshLobby cfg l ->
  exec cfg (initial l) acts = Some (m, out) ->
  scoreWithin (instance (mlobby m)) (cfg_maxScore cfg)
  /\ (someScoreIsMax cfg (instance (mlobby m)) ->
      hasFinished (instance (mlobby m)) = true)
  /\ (forallb (fun act => negb (forced act)) acts = true ->
      hasFinished (instance (mlobby m)) = true ->
      someScoreIsMax cfg (instance (mlobby m)))
  /\ (forall act m' out',
        step cfg m act = Some (m', out') ->
        scoresMonotone (instance (mlobby m)) (instance (mlobby m'))).
Proof.
  intros Hmax Hfresh Hexec.
  destruct (initial_Inv cfg l Hfresh) as (HI & HU).
  destruct (exec_Inv cfg acts _ _ _ Hmax HI Hexec) as (HI' & HU').
  pose proof HI' as (I1 & I2 & _).
  split; [exact I1|]. split; [exact I2|]. split.
  - intros Hacts. apply HU'; assumption.
  - intros act m' out' Hstep.
    apply (step_Inv cfg m act m' out' Hmax HI' Hstep).
Qed.

Lemma engine_scores_witness :
  1 <= cfg_maxScore Sample.quickCfg
  /\ freshLobby Sample.quickCfg Sample.lobby
  /\ exists m out,
    exec Sample.quickCfg (initial Sample.lobby) Sample.quickRun = Some (m, out)
    /\ scores (instance (mlobby m)) !! "alice" = Some (Num 1)
    /\ control m = Halted
    /\ hasFinished (instance (mlobby m)) = true
    /\ scoreWithin (instance (mlobby m)) 1.
Proof.
  assert (Hmax : 1 <= cfg_maxScore Sample.quickCfg) by (cbn; lia).
  assert (Hfresh : freshLobby Sample.quickCfg Sample.lobby)
    by (exists 1; reflexivity).
  split; [exact Hmax|]. split; [exact Hfresh|].
  destruct (exec Sample.quickCfg (initial Sample.lobby) Sample.quickRun)
    as [[m out]|] eqn:Hexec; [|vm_compute in Hexec; discriminate].
  exists m, out. split; [reflexivity|].
  destruct (engine_scores Sample.quickCfg Sample.lobby Sample.quickRun m out
              Hmax Hfresh Hexec) as (Hwithin & Hfin & _ & _).
  assert (Halice : scores (instance (mlobby m)) !! "alice" = Some (Num 1)).
  { vm_compute in Hexec. injection Hexec as <- _. reflexivity. }
  split; [exact Halice|]. split.
  - vm_compute in Hexec. injection Hexec as <- _. reflexivity.
  - split; [|exact Hwithin]. apply Hfin. exists "alice". exact Halice.
Defined.

(** C1, as stated, fails: after the start, Alice leaves; the engine is marked
    finished while both scores are 0 and the maximal score is 11. *)
Lemma engine_forced_finish_counterexample :
  exists m out,
    exec Sample.cfg (initial Sample.lobby)
      [TriggerStart Sample.straight; Leave Sample.alice] = Some (m, out)
    /\ hasFinished (instance (mlobby m)) = true
    /\ map_to_list (scores (instance (mlobby m)))
       = [("alice", Num 0); ("bob", Num 0)]
    /\ ~ someScoreIsMax Sample.cfg (instance (mlobby m)).
Proof.
  eexists. eexists. split; [vm_compute; reflexivity|].
  split; [reflexivity|]. split; [vm_compute; reflexivity|].
  intros (u & Hu). apply elem_of_map_to_list in Hu.
  vm_compute in Hu.
  apply elem_of_cons in Hu as [Hu|Hu]; [discriminate|].
  apply elem_of_cons in Hu as [Hu|Hu]; [discriminate|].
  apply elem_of_nil in Hu. exact Hu.
Qed.

(** ** The finish event *)

(** C9, as the code has it: in every run of the engine that holds no forced
    end (no departure, no expiry), from any state of the machine, nothing is
    sent after a finish event: no state, score, count-down, message or second
    finish event. *)
Theorem loop_finishIsLast cfg m acts m' out :
  forallb (fun act => negb (forced act)) acts = true ->
  exec cfg m acts = Some (m', out) ->
  finishIsLast out.
Proof.
  intros Hacts Hexec.
  destruct (exec_trace cfg acts m m' out Hacts Hexec) as [Hno | Hfin].
  - apply noFinish_finishIsLast, Hno.
  - apply finishAtEnd_finishIsLast, Hfin.
Qed.

Lemma loop_finishIsLast_witness :
  forallb (fun act => negb (forced act)) Sample.quickRun = true
  /\ exists m out,
    exec Sample.quickCfg (initial Sample.lobby) Sample.quickRun = Some (m, out)
    /\ last out = Some {| recipients := ["socket-a"; "socket-b"];
                          event := GameFinish (Some "alice") (Some (Num 1))
                                     (Some (Num 0)) |}
    /\ finishIsLast out.
Proof.
  split; [reflexivity|].
  destruct (exec Sample.quickCfg (initial Sample.lobby) Sample.quickRun)
    as [[m out]|] eqn:Hexec; [|vm_compute in Hexec; discriminate].
  exists m, out. split; [reflexivity|]. split.
  - vm_compute in Hexec. injection Hexec as _ <-. reflexivity.
  - apply (loop_finishIsLast Sample.quickCfg (initial Sample.lobby)
             Sample.quickRun m out); [reflexivity|exact Hexec].
Defined.

(** C9, as stated, fails. Alice leaves the lobby where Bob stays: Bob is sent
    the message and a finish event; when the lobby expires, Bob is sent a
    message and a second finish event. And when Alice leaves during the
    count-down of the start, the next tick of the count-down sends a
    count-down event to Bob after the finish event. *)
Lemma finish_not_last_counterexample :
  (exists st1 out1 st2 out2,
     leaveLobby Sample.alice Sample.state = (Ok tt, st1, out1)
     /\ cleanUpLobbies Sample.cfg 3601001 st1 = (Ok tt, st2, out2)
     /\ out1 ++ out2 =
          [ {| recipients := ["socket-b"]; event := GameMessage "Alice left the lobby" |};
            {| recipients := ["socket-b"]; event := GameFinish None None None |};
            {| recipients := ["socket-b"]; event := GameMessage "Game timed out" |};
            {| recipients := ["socket-b"]; event := GameFinish None None None |} ]
     /\ ~ finishIsLast (out1 ++ out2))
  /\ (exists m out,
        exec Sample.cfg (initial Sample.lobby)
          [TriggerStart Sample.straight; Leave Sample.alice; CountdownTick]
        = Some (m, out)
        /\ drop 4 out =
             [ {| recipients := ["socket-b"];
                  event := GameFinish None (Some (Num 0)) None |};
               {| recipients := ["socket-b"]; event := GameCountdown 4 |} ]
        /\ ~ finishIsLast out).
Proof.
  split.
  - eexists. eexists. eexists. eexists.
    split; [vm_compute; reflexivity|].
    split; [vm_compute; reflexivity|].
    split; [reflexivity|].
    intros Hlast.
    specialize (Hlast
      [ {| recipients := ["socket-b"]; event := GameMessage "Alice left the lobby" |} ]
      {| recipients := ["socket-b"]; event := GameFinish None None None |}
      [ {| recipients := ["socket-b"]; event := GameMessage "Game timed out" |};
        {| recipients := ["socket-b"]; event := GameFinish None None None |} ]
      eq_refl eq_refl).
    discriminate Hlast.
  - eexists. eexists.
    split; [vm_compute; reflexivity|].
    split; [reflexivity|].
    intros Hlast.
    match type of Hlast with
    | finishIsLast (?e1 :: ?e2 :: ?e3 :: ?e4 :: ?e5 :: ?rest) =>
        specialize (Hlast [e1; e2; e3; e4] e5 rest eq_refl eq_refl)
    end.
    discriminate Hlast.
Qed.

(** ** Paddles stay in the field, in every run *)

#[global] Instance keepsPaddles_closed cfg : Closed (keepsPaddles cfg).
Proof.
  split.
  - intros l o Ho. left. exists o. split; [exact Ho|reflexivity].
  - intros l l1 l2 o1 o2 H1 H2 o'' Ho''.
    destruct (H2 o'' Ho'') as [(o' & Ho' & Hg) | Hplaced]; [|right; exact Hplaced].
    destruct (H1 o' Ho') as [(o & Ho & Hg') | Hplaced].
    + left. exists o. split; [exact Ho|congruence].
    + right. unfold paddlesPlaced in *. congruence.
Qed.

Lemma keepsPaddles_refl cfg l out : keepsPaddles cfg l l out.
Proof. intros o Ho. left. exists o. split; [exact Ho|reflexivity]. Qed.

Lemma keepsPaddles_paddlesOK cfg l l' out :
  fieldFits cfg -> keepsPaddles cfg l l' out -> paddlesOK cfg l -> paddlesOK cfg l'.
Proof.
  intros Hfit Hkeep Hok o' Ho'.
  destruct (Hkeep o' Ho') as [(o & Ho & Hg) | Hplaced].
  - destruct (Hok o Ho) as ((Hh1 & Hh2) & (Ha & Hb) & (Hc & Hd)).
    unfold paddleGeometry in Hg. injection Hg as E1 E2 E3 E4.
    unfold paddleInBounds. rewrite E1, E2, E3, E4. repeat split; assumption.
  - unfold paddlesPlaced, paddleGeometry in Hplaced. injection Hplaced as E1 E2 E3 E4.
    unfold paddleInBounds, fieldFits in *. rewrite E1, E2, E3, E4.
    unfold Qdiv. change (/ 2)%Q with (1 # 2)%Q.
    repeat split; try reflexivity; lra.
Qed.

Lemma modGame_keepsPaddles cfg f :
  (forall g, objects (f g) = objects g) -> within (keepsPaddles cfg) (modGame f).
Proof.
  intros Hf l o' Ho'. cbn in Ho'. rewrite Hf in Ho'.
  left. exists o'. split; [exact Ho'|reflexivity].
Qed.

Lemma initializeGameObjects_keepsPaddles cfg a :
  within (keepsPaddles cfg) (modGame (initializeGameObjects cfg a)).
Proof. intros l o' Ho'. cbn in Ho'. injection Ho' as <-. right. reflexivity. Qed.

Lemma unchanged_keepsPaddles {A} cfg (c : M Lobby A) :
  (forall l, (c l).1.2 = l) -> within (keepsPaddles cfg) c.
Proof.
  intros Hc l o' Ho'. rewrite Hc in Ho'.
  left. exists o'. split; [exact Ho'|reflexivity].
Qed.

Lemma emitToPlayers_keepsPaddles cfg ev : within (keepsPaddles cfg) (emitToPlayers ev).
Proof. apply unchanged_keepsPaddles. reflexivity. Qed.

Lemma dispatchToLobby_keepsPaddles cfg ev : within (keepsPaddles cfg) (dispatchToLobby ev).
Proof. apply unchanged_keepsPaddles. reflexivity. Qed.

Lemma getGame_keepsPaddles cfg : within (keepsPaddles cfg) getGame.
Proof. apply unchanged_keepsPaddles. reflexivity. Qed.

#[global] Hint Resolve initializeGameObjects_keepsPaddles emitToPlayers_keepsPaddles
  dispatchToLobby_keepsPaddles getGame_keepsPaddles : within.
#[global] Hint Extern 2 (within (keepsPaddles _) (modGame _)) =>
  apply modGame_keepsPaddles; intros ?; reflexivity : within.

Lemma getObjects_keepsPaddles cfg : within (keepsPaddles cfg) getObjects.
Proof. unfold getObjects. within_solve. Qed.
#[global] Hint Resolve getObjects_keepsPaddles : within.

Lemma handleScreenBoundsCollision_keepsPaddles cfg users a :
  within (keepsPaddles cfg) (handleScreenBoundsCollision cfg users a).
Proof.
  unfold handleScreenBoundsCollision, checkGameFinish, setLoser, getUserById,
    dispatchScore.
  within_solve.
Qed.

Lemma triggerFinish_keepsPaddles cfg : within (keepsPaddles cfg) triggerFinish.
Proof. unfold triggerFinish. within_solve. Qed.
#[global] Hint Resolve triggerFinish_keepsPaddles : within.

Lemma sendGameState_keepsPaddles cfg : within (keepsPaddles cfg) sendGameState.
Proof. unfold sendGameState. within_solve. Qed.
#[global] Hint Resolve sendGameState_keepsPaddles : within.

Lemma afterPause_keepsPaddles cfg acc : within (keepsPaddles cfg) (afterPause cfg acc).
Proof. unfold afterPause. within_solve. Qed.
#[global] Hint Resolve afterPause_keepsPaddles : within.

Lemma countDown_keepsPaddles cfg n : within (keepsPaddles cfg) (countDown n).
Proof. unfold countDown. within_solve. Qed.
Lemma countdownInterval_keepsPaddles cfg n : within (keepsPaddles cfg) (countdownInterval n).
Proof. unfold countdownInterval. within_solve. Qed.
#[global] Hint Resolve countDown_keepsPaddles countdownInterval_keepsPaddles : within.

Lemma triggerStart_keepsPaddles cfg a : within (keepsPaddles cfg) (triggerStart cfg a).
Proof. unfold triggerStart. within_solve. Qed.

Lemma startTick_keepsPaddles cfg n : within (keepsPaddles cfg) (startTick n).
Proof. unfold startTick, triggerStart_resume. within_solve. Qed.

Lemma pauseTick_keepsPaddles cfg acc n : within (keepsPaddles cfg) (pauseTick cfg acc n).
Proof. unfold pauseTick. within_solve. Qed.

Lemma gameLoop_keepsPaddles cfg acc t : within (keepsPaddles cfg) (gameLoop acc t).
Proof. unfold gameLoop. within_solve. Qed.

Lemma departure_keepsPaddles cfg client : within (keepsPaddles cfg) (departure client).
Proof. intros l o' Ho'. left. exists o'. split; [exact Ho'|reflexivity]. Qed.

Lemma expiry_keepsPaddles cfg : within (keepsPaddles cfg) expiry.
Proof. unfold expiry. within_solve. Qed.

Lemma bind_getObjects_state {B} (k : GameObjects -> M Lobby B) l :
  (bind getObjects k l).1.2 =
    match objects (instance l) with
    | Some o => (k o l).1.2
    | None => l
    end.
Proof.
  destruct (objects (instance l)) as [o|] eqn:E.
  - erewrite bind_state; [reflexivity|].
    unfold getObjects, getGame, bind, required, ret. rewrite E. reflexivity.
  - erewrite bind_state_Throw; [reflexivity|].
    unfold getObjects, getGame, bind, required, throw. rewrite E. reflexivity.
Qed.

Lemma resolvePaddleCollision_geometry speed o :
  paddleGeometry (resolvePaddleCollision speed o) = paddleGeometry o.
Proof.
  unfold resolvePaddleCollision.
  destruct (_ && _); [reflexivity|]. destruct (_ && _); reflexivity.
Qed.

Lemma handleCollisions_keepsPaddles cfg users a :
  within (keepsPaddles cfg) (handleCollisions cfg users a).
Proof.
  intros l. unfold handleCollisions. rewrite bind_getObjects_state.
  destruct (objects (instance l)) as [o0|] eqn:Eo; [|apply keepsPaddles_refl].
  erewrite bind_state by reflexivity.
  erewrite bind_state by reflexivity.
  set (o := resolvePaddleCollision (ballSpeedPerSecond (instance l)) o0).
  set (l1 := set_instance (set_objects (Some o) (instance l)) l).
  assert (H1 : keepsPaddles cfg l l1 []).
  { intros o' Ho'. cbn in Ho'. injection Ho' as <-. left. exists o0.
    split; [exact Eo|apply resolvePaddleCollision_geometry]. }
  cbv zeta. destruct (_ || _).
  - intros o' Ho'. cbn in Ho'. injection Ho' as <-. left. exists o0.
    split; [exact Eo|apply resolvePaddleCollision_geometry].
  - destruct (_ || _).
    + pose proof (handleScreenBoundsCollision_keepsPaddles cfg users a l1) as H2.
      apply (closed_trans l l1 _ [] _ H1 H2).
    + exact H1.
Qed.

Lemma updateGameState_paddlesOK cfg users a ts l :
  fieldFits cfg ->
  paddlesSized cfg l ->
  paddlesOK cfg (updateGameState cfg users a ts l).1.2.
Proof.
  intros Hfit Hsized. unfold updateGameState. rewrite bind_getObjects_state.
  destruct (objects (instance l)) as [o|] eqn:Eo.
  2:{ intros o Ho. congruence. }
  destruct (Hsized o Eo) as (Hh1 & Hh2).
  erewrite bind_state by reflexivity.
  rewrite bind_getObjects_state. cbn [objects instance set_instance set_objects modGame].
  erewrite bind_state by reflexivity.
  match goal with
  | |- paddlesOK _ (handleCollisions _ _ _ ?l2).1.2 =>
      apply (keepsPaddles_paddlesOK cfg l2 _ (handleCollisions cfg users a l2).2 Hfit);
      [apply handleCollisions_keepsPaddles|]
  end.
  intros o' Ho'. cbn in Ho'. injection Ho' as <-. cbn.
  rewrite !updatePaddle_height. split; [split; assumption|].
  split; apply updatePaddle_inBounds; unfold paddleFits, fieldFits in *.
  - rewrite Hh1. exact Hfit.
  - rewrite Hh2. exact Hfit.
Qed.

Lemma paddlesOK_sized cfg l : paddlesOK cfg l -> paddlesSized cfg l.
Proof. intros Hok o Ho. apply (Hok o Ho). Qed.

Lemma whileIteration_paddlesOK cfg users a acc l :
  fieldFits cfg ->
  paddlesOK cfg l ->
  paddlesOK cfg (whileIteration cfg users a acc l).1.2.
Proof.
  intros Hfit Hok. unfold whileIteration. destruct (Qgeb acc (cfg_timeStep cfg)).
  - pose proof (updateGameState_paddlesOK cfg users a (cfg_timeStep cfg) l Hfit
                  (paddlesOK_sized _ _ Hok)) as Hstep.
    destruct (updateGameState cfg users a (cfg_timeStep cfg) l)
      as [[[[]|e] l1] o1] eqn:E; cbn in Hstep.
    + erewrite bind_state by exact E.
      match goal with
      | |- paddlesOK _ (?c l1).1.2 =>
          assert (Hk : within (keepsPaddles cfg) c) by within_solve;
          apply (keepsPaddles_paddlesOK cfg l1 _ (c l1).2 Hfit (Hk l1) Hstep)
      end.
    + erewrite bind_state_Throw by exact E. exact Hstep.
  - match goal with
    | |- paddlesOK _ (?c l).1.2 =>
        assert (Hk : within (keepsPaddles cfg) c) by within_solve;
        apply (keepsPaddles_paddlesOK cfg l _ (c l).2 Hfit (Hk l) Hok)
    end.
Qed.

Lemma movePaddle_keepsPaddles cfg client direction :
  within (keepsPaddles cfg) (movePaddle client direction).
Proof.
  unfold movePaddle. apply within_bind; [typeclasses eauto| |intros r].
  - unfold getPaddle. within_solve.
  - intros l. rewrite bind_getObjects_state.
    destruct (objects (instance l)) as [o|] eqn:Eo; [|apply keepsPaddles_refl].
    destruct r; intros o' Ho'; cbn in Ho'; injection Ho' as <-;
      left; exists o; (split; [exact Eo|reflexivity]).
Qed.

Lemma step_paddlesOK cfg m act m' out :
  fieldFits cfg ->
  paddlesOK cfg (mlobby m) ->
  step cfg m act = Some (m', out) ->
  paddlesOK cfg (mlobby m').
Proof.
  intros Hfit Hok Hstep.
  assert (Hcb : forall c, within (keepsPaddles cfg) c ->
                  paddlesOK cfg (mlobby (callback c m).1)).
  { intros c Hc. destruct (callback_control c m) as (_ & -> & _).
    apply (keepsPaddles_paddlesOK cfg (mlobby m) _ _ Hfit (Hc _) Hok). }
  assert (Hex : forall c, within (keepsPaddles cfg) c ->
                  paddlesOK cfg (mlobby (external c m).1)).
  { intros c Hc. destruct (external_control c m) as (_ & ->).
    apply (keepsPaddles_paddlesOK cfg (mlobby m) _ _ Hfit (Hc _) Hok). }
  unfold step in Hstep.
  destruct act as [a| |t|users a|client direction| |client| ].
  - destruct (control m); try discriminate Hstep.
    injection Hstep as Hstep.
    specialize (Hcb (r <- triggerStart cfg a ;; ret (Starting r))).
    rewrite Hstep in Hcb. apply Hcb.
    apply within_bind; [typeclasses eauto|apply triggerStart_keepsPaddles|].
    intros r. within_solve.
  - destruct (control m); try discriminate Hstep; injection Hstep as Hstep.
    + specialize (Hcb _ (startTick_keepsPaddles cfg remainingSeconds)).
      rewrite Hstep in Hcb. exact Hcb.
    + specialize (Hcb _ (pauseTick_keepsPaddles cfg accumulator remainingSeconds)).
      rewrite Hstep in Hcb. exact Hcb.
  - destruct (control m); try discriminate Hstep; injection Hstep as Hstep.
    specialize (Hcb _ (gameLoop_keepsPaddles cfg accumulator t)).
    rewrite Hstep in Hcb. exact Hcb.
  - destruct (control m); try discriminate Hstep; injection Hstep as Hstep.
    destruct (callback_control (whileIteration cfg users a accumulator) m)
      as (_ & Hl & _).
    rewrite Hstep in Hl. cbn in Hl. rewrite Hl.
    apply whileIteration_paddlesOK; assumption.
  - destruct (interruptible (control m)); [|discriminate Hstep].
    injection Hstep as Hstep.
    specialize (Hex _ (movePaddle_keepsPaddles cfg client direction)).
    rewrite Hstep in Hex. exact Hex.
  - destruct (interruptible (control m)); [|discriminate Hstep].
    injection Hstep as <- <-.
    apply (Hex (modGame (set_stop true))). within_solve.
  - destruct (_ && _); [|discriminate Hstep].
    injection Hstep as <- <-.
    apply (Hex (departure client)), departure_keepsPaddles.
  - destruct (interruptible (control m)); [|discriminate Hstep].
    injection Hstep as <- <-.
    apply (Hex expiry), expiry_keepsPaddles.
Qed.

(** In every state that the engine of a lobby reaches, the paddles, once
    placed, lie between the margins of the field. *)
Lemma engine_paddles cfg acts : forall m m' out,
  fieldFits cfg ->
  paddlesOK cfg (mlobby m) ->
  exec cfg m acts = Some (m', out) ->
  paddlesOK cfg (mlobby m').
Proof.
  induction acts as [|act rest IH]; intros m m' out Hfit Hok Hexec.
  - injection Hexec as <- _. exact Hok.
  - cbn in Hexec.
    destruct (step cfg m act) as [[m1 o1]|] eqn:Hstep; [|discriminate].
    destruct (exec cfg m1 rest) as [[m2 o2]|] eqn:Hrun; [|discriminate].
    injection Hexec as <- _.
    apply (IH m1 m2 o2 Hfit); [|exact Hrun].
    apply (step_paddlesOK cfg m act m1 o1 Hfit Hok Hstep).
Qed.

Lemma freshLobby_paddlesOK cfg l : freshLobby cfg l -> paddlesOK cfg l.
Proof. intros (d & Hg) o Ho. rewrite Hg in Ho. discriminate. Qed.


(** X1: in every run of the engine of a lobby, from its creation, the
    paddles, once placed, have the height of the configuration and lie
    between the margins of the field. *)
Lemma engine_paddles_inBounds cfg l acts m out :
  fieldFits cfg ->
  freshLobby cfg l ->
  exec cfg (initial l) acts = Some (m, out) ->
  paddlesOK cfg (mlobby m).
Proof.
  intros Hfit Hfresh Hexec.
  apply (engine_paddles cfg acts (initial l) m out Hfit); [|exact Hexec].
  apply freshLobby_paddlesOK, Hfresh.
Qed.
(** ** A run with a moving paddle *)

Lemma engine_paddles_inBounds_witness :
  let acts :=
    [TriggerStart Sample.straight; MovePaddle Sample.alice UP]
    ++ replicate 5 CountdownTick ++ [GameLoop (1 # 10)]
    ++ replicate 7 (WhileIteration (userTable Sample.state) Sample.straight) in
  fieldFits Sample.cfg
  /\ freshLobby Sample.cfg Sample.lobby
  /\ exists m out o,
       exec Sample.cfg (initial Sample.lobby) acts = Some (m, out)
       /\ objects (instance (mlobby m)) = Some o
       /\ (paddle_y (paddle1 o) == 230)%Q
       /\ paddlesOK Sample.cfg (mlobby m).
Proof.
  intros acts.
  assert (Hfit : fieldFits Sample.cfg) by (vm_compute; discriminate).
  assert (Hfresh : freshLobby Sample.cfg Sample.lobby) by (exists 1; reflexivity).
  split; [exact Hfit|]. split; [exact Hfresh|].
  eassert (Hexec : exec Sample.cfg (initial Sample.lobby) acts = Some (_, _))
    by (vm_compute; reflexivity).
  eexists. eexists. eexists. split; [exact Hexec|].
  split; [reflexivity|]. split; [reflexivity|].
  exact (engine_paddles_inBounds Sample.cfg Sample.lobby acts _ _ Hfit Hfresh Hexec).
Defined.

(** ** The collision test *)

Lemma Qle_bool_false (a b : Q) : Qle_bool a b = false <-> (b < a)%Q.
Proof.
  split.
  - intros H. apply Qnot_le_lt. intros Hle. apply Qle_bool_iff in Hle. congruence.
  - intros H. destruct (Qle_bool a b) eqn:E; [|reflexivity].
    apply Qle_bool_iff in E. apply Qlt_not_le in H. contradiction.
Qed.

Lemma Qsquare_bound (t r : Q) : (- r <= t -> t <= r -> t * t <= r * r)%Q.
Proof. intros H1 H2. nra. Qed.

Lemma Qsquare_nonneg (t : Q) : (0 <= t * t)%Q.
Proof. nra. Qed.

Lemma Qsquare_bound_inv (t r : Q) :
  (0 <= r -> t * t <= r * r -> - r <= t /\ t <= r)%Q.
Proof. intros H0 H. split; nra. Qed.

(** [ballCollidesWithPaddle] reports no collision that does not take
    place: for a paddle of width and height at least 0 and a ball of radius
    at least 0, when the test returns [true], the disc of the ball and the
    rectangle of the paddle have a point in common. *)
Theorem ballCollidesWithPaddle_sound (b : Ball) (p : Paddle) :
  (0 <= paddle_width p)%Q -> (0 <= paddle_height p)%Q -> (0 <= ball_radius b)%Q ->
  ballCollidesWithPaddle b p = true ->
  touches b p.
Proof.
  intros Hw Hh Hr. unfold ballCollidesWithPaddle, touches.
  destruct b as [bx by_ r vx vy], p as [px py w h pv pd]. cbn in *.
  unfold Qdiv. change (/ 2)%Q with (1 # 2)%Q.
  set (hw := (w * (1 # 2))%Q). set (hh := (h * (1 # 2))%Q).
  assert (Ehw : (w == 2 * hw)%Q) by (unfold hw; ring).
  assert (Ehh : (h == 2 * hh)%Q) by (unfold hh; ring).
  assert (Hhw : (0 <= hw)%Q) by (unfold hw; lra).
  assert (Hhh : (0 <= hh)%Q) by (unfold hh; lra).
  set (dx := (bx - (px + hw))%Q). set (dy := (by_ - (py + hh))%Q).
  assert (Edx : (bx == dx + px + hw)%Q) by (unfold dx; ring).
  assert (Edy : (by_ == dy + py + hh)%Q) by (unfold dy; ring).
  clearbody dx dy hw hh.
  destruct (Qgtb (dx * dx) _ || Qgtb (dy * dy) _) eqn:Efar; [discriminate|].
  apply orb_false_iff in Efar as (Ex & Ey).
  apply Qgtb_false in Ex. apply Qgtb_false in Ey.
  apply Qsquare_bound_inv in Ex as (Ex1 & Ex2); [|lra].
  apply Qsquare_bound_inv in Ey as (Ey1 & Ey2); [|lra].
  destruct (Qle_bool (dx * dx) (hw * hw)) eqn:Enx.
  - intros _. apply Qle_bool_iff in Enx.
    apply Qsquare_bound_inv in Enx as (Hx1 & Hx2); [|lra].
    destruct (Qlt_le_dec dy (- hh)) as [Hlo|Hlo].
    + exists bx, py.
      assert (Hs : ((py - by_) * (py - by_) <= r * r)%Q)
        by (apply Qsquare_bound; lra).
      repeat split; try lra.
    + destruct (Qlt_le_dec hh dy) as [Hhi|Hhi].
      * exists bx, (py + h)%Q.
        assert (Hs : ((py + h - by_) * (py + h - by_) <= r * r)%Q)
          by (apply Qsquare_bound; lra).
        repeat split; try lra.
      * exists bx, by_. repeat split; try lra. nra.
  - destruct (Qle_bool (dy * dy) (hh * hh)) eqn:Eny.
    + intros _. apply Qle_bool_iff in Eny.
      apply Qsquare_bound_inv in Eny as (Hy1 & Hy2); [|lra].
      destruct (Qlt_le_dec dx (- hw)) as [Hlo|Hlo].
      * exists px, by_.
        assert (Hs : ((px - bx) * (px - bx) <= r * r)%Q)
          by (apply Qsquare_bound; lra).
        repeat split; try lra.
      * destruct (Qlt_le_dec hw dx) as [Hhi|Hhi].
        -- exists (px + w)%Q, by_.
           assert (Hs : ((px + w - bx) * (px + w - bx) <= r * r)%Q)
             by (apply Qsquare_bound; lra).
           repeat split; try lra.
        -- exists bx, by_. repeat split; try lra. nra.
    + cbn [orb]. intros Hc. apply Qle_bool_iff in Hc.
      apply Qle_bool_false in Enx. apply Qle_bool_false in Eny.
      destruct (Qlt_le_dec dx 0) as [Hx|Hx], (Qlt_le_dec dy 0) as [Hy|Hy].
      * assert (Hx' : (dx < - hw)%Q) by nra. assert (Hy' : (dy < - hh)%Q) by nra.
        assert (P1 : (hw * (dx + hw) <= 0)%Q) by nra.
        assert (P2 : (hh * (dy + hh) <= 0)%Q) by nra.
        exists px, py. repeat split; try lra. nra.
      * assert (Hx' : (dx < - hw)%Q) by nra. assert (Hy' : (hh < dy)%Q) by nra.
        assert (P1 : (hw * (dx + hw) <= 0)%Q) by nra.
        assert (P2 : (0 <= hh * (dy - hh))%Q) by nra.
        exists px, (py + h)%Q. repeat split; try lra. nra.
      * assert (Hx' : (hw < dx)%Q) by nra. assert (Hy' : (dy < - hh)%Q) by nra.
        assert (P1 : (0 <= hw * (dx - hw))%Q) by nra.
        assert (P2 : (hh * (dy + hh) <= 0)%Q) by nra.
        exists (px + w)%Q, py. repeat split; try lra. nra.
      * assert (Hx' : (hw < dx)%Q) by nra. assert (Hy' : (hh < dy)%Q) by nra.
        assert (P1 : (0 <= hw * (dx - hw))%Q) by nra.
        assert (P2 : (0 <= hh * (dy - hh))%Q) by nra.
        exists (px + w)%Q, (py + h)%Q. repeat split; try lra. nra.
Qed.

(** The test is exact for a ball whose centre is level with the
    paddle: when the centre of the ball lies within the horizontal or the
    vertical extent of the paddle and the disc of the ball has a point in
    common with the rectangle of the paddle, [ballCollidesWithPaddle]
    returns [true]. *)
Theorem ballCollidesWithPaddle_level (b : Ball) (p : Paddle) :
  (0 <= paddle_width p)%Q -> (0 <= paddle_height p)%Q -> (0 <= ball_radius b)%Q ->
  level b p ->
  touches b p ->
  ballCollidesWithPaddle b p = true.
Proof.
  intros Hw Hh Hr Hlevel (x & y & Hx1 & Hx2 & Hy1 & Hy2 & Hd).
  unfold ballCollidesWithPaddle, level in *.
  destruct b as [bx by_ r vx vy], p as [px py w h pv pd]. cbn in *.
  unfold Qdiv. change (/ 2)%Q with (1 # 2)%Q.
  set (hw := (w * (1 # 2))%Q). set (hh := (h * (1 # 2))%Q).
  assert (Ehw : (w == 2 * hw)%Q) by (unfold hw; ring).
  assert (Ehh : (h == 2 * hh)%Q) by (unfold hh; ring).
  set (dx := (bx - (px + hw))%Q). set (dy := (by_ - (py + hh))%Q).
  assert (Edx : (bx == dx + px + hw)%Q) by (unfold dx; ring).
  assert (Edy : (by_ == dy + py + hh)%Q) by (unfold dy; ring).
  clearbody dx dy hw hh.
  pose proof (Qsquare_nonneg (x - bx)) as Nx.
  pose proof (Qsquare_nonneg (y - by_)) as Ny.
  assert (Sx : ((x - bx) * (x - bx) <= r * r)%Q) by lra.
  assert (Sy : ((y - by_) * (y - by_) <= r * r)%Q) by lra.
  apply Qsquare_bound_inv in Sx as (Sx1 & Sx2); [|exact Hr].
  apply Qsquare_bound_inv in Sy as (Sy1 & Sy2); [|exact Hr].
  assert (Fx : Qgtb (dx * dx) ((hw + r) * (hw + r)) = false).
  { apply Qgtb_false, Qsquare_bound; lra. }
  assert (Fy : Qgtb (dy * dy) ((hh + r) * (hh + r)) = false).
  { apply Qgtb_false, Qsquare_bound; lra. }
  rewrite Fx, Fy. cbn [orb].
  destruct Hlevel as [(L1 & L2)|(L1 & L2)].
  - assert (T : Qle_bool (dx * dx) (hw * hw) = true)
      by (apply Qle_bool_iff, Qsquare_bound; lra).
    rewrite T. reflexivity.
  - assert (T : Qle_bool (dy * dy) (hh * hh) = true)
      by (apply Qle_bool_iff, Qsquare_bound; lra).
    rewrite T. rewrite orb_true_r. reflexivity.
Qed.

(** X2: for a paddle of width and height at least 0 and a ball of radius
    at least 0, [ballCollidesWithPaddle] reports no collision that does not
    take place (when it returns [true], the disc of the ball and the
    rectangle of the paddle have a point in common), and it misses no
    collision of a ball whose centre is level with the paddle (within its
    horizontal or its vertical extent). *)
Theorem ballCollidesWithPaddle_geometry (b : Ball) (p : Paddle) :
  (0 <= paddle_width p)%Q -> (0 <= paddle_height p)%Q -> (0 <= ball_radius b)%Q ->
  (ballCollidesWithPaddle b p = true -> touches b p)
  /\ (level b p -> touches b p -> ballCollidesWithPaddle b p = true).
Proof.
  intros Hw Hh Hr. split.
  - apply ballCollidesWithPaddle_sound; assumption.
  - apply ballCollidesWithPaddle_level; assumption.
Qed.

Lemma ballCollidesWithPaddle_geometry_witness :
  let p := Sample.paddle 10 260 NONE in
  (0 <= paddle_width p)%Q /\ (0 <= paddle_height p)%Q
  /\ (0 <= ball_radius Sample.ballAtCentre)%Q
  /\ ballCollidesWithPaddle Sample.ballAtCentre p = true
  /\ touches Sample.ballAtCentre p.
Proof.
  intros p.
  assert (Hw : (0 <= paddle_width p)%Q) by (cbn; lra).
  assert (Hh : (0 <= paddle_height p)%Q) by (cbn; lra).
  assert (Hr : (0 <= ball_radius Sample.ballAtCentre)%Q) by (cbn; lra).
  split; [exact Hw|]. split; [exact Hh|]. split; [exact Hr|].
  split; [reflexivity|].
  apply (ballCollidesWithPaddle_geometry Sample.ballAtCentre p Hw Hh Hr).
  reflexivity.
Defined.

(** ** The count-down of the start *)

Lemma startTick_last l :
  stop (instance l) = false ->
  startTick 0 l =
    (Ok (Idle 0), set_instance (set_hasStarted true (instance l)) l,
     countdownEvents (players l) 0).
Proof.
  intros Hstop. unfold startTick, countdownInterval. cbn [Z.leb Z.compare].
  unfold bind, emitToPlayers, ret, triggerStart_resume, getGame, modGame, modify.
  cbn. rewrite Hstop. cbn. rewrite !app_nil_r. reflexivity.
Qed.

Lemma startTick_next l (n : nat) :
  stop (instance l) = false ->
  startTick (Z.of_nat (S n)) l =
    (Ok (Starting (Z.of_nat n)), l,
     (fun p => {| recipients := [sock_id p];
                  event := GameCountdown (Z.of_nat (S n)) |}) <$> players l).
Proof.
  intros Hstop. unfold startTick, countdownInterval.
  destruct (Z.of_nat (S n) <=? 0) eqn:E; [apply Z.leb_le in E; lia|].
  unfold bind, emitToPlayers, ret, getGame. cbn. rewrite Hstop.
  rewrite !app_nil_r. repeat f_equal. lia.
Qed.

Lemma exec_cons cfg m act rest :
  exec cfg m (act :: rest) =
    match step cfg m act with
    | Some (m1, out1) =>
        match exec cfg m1 rest with
        | Some (m2, out2) => Some (m2, out1 ++ out2)
        | None => None
        end
    | None => None
    end.
Proof. reflexivity. Qed.

Lemma start_ticks cfg (n : nat) l :
  stop (instance l) = false ->
  exec cfg {| mlobby := l; control := Starting (Z.of_nat n) |}
    (replicate (S n) CountdownTick) =
  Some ({| mlobby := set_instance (set_hasStarted true (instance l)) l;
           control := Idle 0 |},
        countdownEvents (players l) n).
Proof.
  intros Hstop. induction n as [|n IH].
  - cbn [replicate exec step control mlobby]. unfold callback. cbn [mlobby].
    change (Z.of_nat 0) with 0. rewrite (startTick_last l Hstop).
    cbn. rewrite !app_nil_r. reflexivity.
  - change (replicate (S (S n)) CountdownTick)
      with (CountdownTick :: replicate (S n) CountdownTick).
    rewrite exec_cons. cbn [step control]. unfold callback. cbn [mlobby].
    rewrite (startTick_next l n Hstop). rewrite IH. reflexivity.
Qed.

Lemma triggerStart_result cfg a l p1 p2 :
  player1 l = Some p1 -> player2 l = Some p2 ->
  triggerStart cfg a l =
    (Ok (COUNT_DOWN_TIME cfg - 1), started cfg a l,
     startEvent cfg l p1 p2
       :: ((fun p => {| recipients := [sock_id p];
                        event := GameCountdown (COUNT_DOWN_TIME cfg) |}) <$> players l)).
Proof.
  intros H1 H2. unfold player1, player2 in *.
  unfold triggerStart. rewrite try_catch_throw.
  unfold countDown, getObjects, getGame, required, dispatchToLobby,
    emitToPlayers, modGame, modify, get, bind, ret, player1, player2.
  cbn. rewrite H1, H2. cbn. rewrite !app_nil_r. reflexivity.
Qed.

(** X3: the start of a match. For a lobby with two seated players whose
    engine is not stopped, and a count-down time of at least 1 second,
    [triggerStart] and the ticks of its count-down, one for each second,
    send the start event to the lobby, then to every player the count-down
    events for the seconds from the count-down time down to 0, in
    descending order and without a gap; after the last tick the scores that
    [triggerStart] had reset are in place, the engine is marked started and
    the game loop is scheduled. *)
Theorem triggerStart_countdown cfg a l p1 p2 (n : nat) :
  player1 l = Some p1 -> player2 l = Some p2 ->
  stop (instance l) = false ->
  COUNT_DOWN_TIME cfg = Z.of_nat (S n) ->
  exec cfg (initial l) (TriggerStart a :: replicate (S n) CountdownTick) =
    Some ({| mlobby :=
               set_instance (set_hasStarted true (instance (started cfg a l)))
                 (started cfg a l);
             control := Idle 0 |},
          startEvent cfg l p1 p2 :: countdownEvents (players l) (S n)).
Proof.
  intros H1 H2 Hstop Hcount.
  rewrite exec_cons. cbn [step control initial]. unfold callback. cbn [mlobby].
  erewrite bind_Ok by (apply triggerStart_result; eassumption).
  unfold ret. cbv beta iota. rewrite Hcount.
  replace (Z.of_nat (S n) - 1) with (Z.of_nat n) by lia.
  change (mlobby (initial l)) with l.
  rewrite (start_ticks cfg n (started cfg a l)) by exact Hstop.
  cbn [countdownEvents]. rewrite app_nil_r. reflexivity.
Qed.

Lemma triggerStart_countdown_witness :
  exists m out,
    exec Sample.cfg (initial Sample.lobby)
      (TriggerStart Sample.straight :: replicate 5 CountdownTick) = Some (m, out)
    /\ control m = Idle 0
    /\ hasStarted (instance (mlobby m)) = true
    /\ ((fun e => match event e with GameCountdown s => Some s | _ => None end) <$> out)
       = [None; Some 5; Some 5; Some 4; Some 4; Some 3; Some 3; Some 2; Some 2;
          Some 1; Some 1; Some 0; Some 0].
Proof.
  eexists. eexists. split.
  - apply (triggerStart_countdown Sample.cfg Sample.straight Sample.lobby
             Sample.alice Sample.bob 4); reflexivity.
  - split; [reflexivity|]. split; reflexivity.
Defined.

(** ** The [while] of the game loop ends *)

Lemma bind_oneStepLess {A} cfg acc (m : M Lobby A) (k : A -> M Lobby Control) l :
  (forall a l1, oneStepLess cfg acc (k a l1).1.1) ->
  oneStepLess cfg acc (bind m k l).1.1.
Proof.
  intros Hk. unfold bind. destruct (m l) as [[[a|e] l1] o1].
  - specialize (Hk a l1). destruct (k a l1) as [[r l2] o2]. exact Hk.
  - intros acc' H. discriminate H.
Qed.

Lemma afterPause_oneStepLess cfg acc l :
  (cfg_timeStep cfg <= acc)%Q -> oneStepLess cfg acc (afterPause cfg acc l).1.1.
Proof.
  intros Hacc. unfold afterPause. apply bind_oneStepLess. intros g l1.
  destruct (hasFinished g).
  - apply bind_oneStepLess. intros _ l2 acc' H. discriminate H.
  - apply bind_oneStepLess. intros _ l2 acc' H. injection H as <-. auto.
Qed.

Lemma whileIteration_oneStepLess cfg users a acc l :
  oneStepLess cfg acc (whileIteration cfg users a acc l).1.1.
Proof.
  unfold whileIteration. destruct (Qgeb acc (cfg_timeStep cfg)) eqn:E.
  - apply Qgeb_true in E. apply bind_oneStepLess. intros _ l1.
    apply bind_oneStepLess. intros g l2. destruct (gamePaused g).
    + apply bind_oneStepLess. intros r l3 acc' H. discriminate H.
    + apply afterPause_oneStepLess, E.
  - apply bind_oneStepLess. intros g l1.
    destruct (_ && _); intros acc' H; discriminate H.
Qed.

Lemma runWhile_leftWhile cfg (k : nat) : forall inputs m acc,
  (0 < cfg_timeStep cfg)%Q ->
  control m = InWhile acc ->
  (acc < inject_Z (Z.of_nat k) * cfg_timeStep cfg)%Q ->
  (k < length inputs)%nat ->
  leftWhile (runWhile cfg inputs m).1.
Proof.
  induction k as [|k IH]; intros inputs m acc Hts Hctl Hacc Hlen.
  - destruct inputs as [|[users a] rest]; [cbn in Hlen; lia|].
    cbn [runWhile]. rewrite Hctl.
    pose proof (whileIteration_oneStepLess cfg users a acc (mlobby m)) as Hone.
    unfold callback.
    destruct (whileIteration cfg users a acc (mlobby m)) as [[[c|e] l1] o1];
      cbn in Hone.
    + destruct c as [| | |acc'| | |];
        try (destruct rest as [|[? ?] ?]; cbn; intros ? ?; discriminate).
      destruct (Hone acc' eq_refl) as (_ & Hge).
      change (inject_Z (Z.of_nat 0)) with 0%Q in Hacc. lra.
    + destruct rest as [|[? ?] ?]; cbn; intros ? ?; discriminate.
  - destruct inputs as [|[users a] rest]; [cbn in Hlen; lia|].
    cbn [runWhile]. rewrite Hctl.
    pose proof (whileIteration_oneStepLess cfg users a acc (mlobby m)) as Hone.
    unfold callback.
    destruct (whileIteration cfg users a acc (mlobby m)) as [[[c|e] l1] o1];
      cbn in Hone.
    + destruct c as [| | |acc'| | |];
        try (destruct rest as [|[? ?] ?]; cbn; intros ? ?; discriminate).
      destruct (Hone acc' eq_refl) as (-> & Hge).
      specialize (IH rest {| mlobby := l1; control := InWhile (acc - cfg_timeStep cfg) |}
                    (acc - cfg_timeStep cfg)%Q Hts eq_refl).
      destruct (runWhile cfg rest _) as [m2 o2]. cbn in *. apply IH.
      * rewrite Nat2Z.inj_succ in Hacc. unfold Z.succ in Hacc.
        rewrite inject_Z_plus in Hacc. change (inject_Z 1) with 1%Q in Hacc. lra.
      * lia.
    + destruct rest as [|[? ?] ?]; cbn; intros ? ?; discriminate.
Qed.

(** X4: the [while] of the game loop ends. With a time step above 0 and an
    accumulator below [k] time steps, the condition of the [while] is
    tested [k + 1] times at most: whatever the passes draw from the user
    service and the random generator, after them the engine has left the
    [while] (to wait for the next entry of the loop, for the count-down of
    a pause, or for good). *)
Theorem gameLoop_while_ends cfg (k : nat) inputs m acc :
  (0 < cfg_timeStep cfg)%Q ->
  control m = InWhile acc ->
  (acc < inject_Z (Z.of_nat k) * cfg_timeStep cfg)%Q ->
  (k < length inputs)%nat ->
  leftWhile (runWhile cfg inputs m).1.
Proof. apply runWhile_leftWhile. Qed.

Lemma gameLoop_while_ends_witness :
  let m := {| mlobby := Sample.lobbyWith Sample.ballAtCentre;
              control := InWhile (1 # 10) |} in
  let inputs := replicate 8 (userTable Sample.state, Sample.straight) in
  (0 < cfg_timeStep Sample.cfg)%Q
  /\ (1 # 10 < inject_Z (Z.of_nat 7) * cfg_timeStep Sample.cfg)%Q
  /\ (exists acc, control (runWhile Sample.cfg inputs m).1 = Idle acc)
  /\ leftWhile (runWhile Sample.cfg inputs m).1.
Proof.
  intros m inputs.
  assert (Hts : (0 < cfg_timeStep Sample.cfg)%Q) by reflexivity.
  assert (Hacc : (1 # 10 < inject_Z (Z.of_nat 7) * cfg_timeStep Sample.cfg)%Q)
    by reflexivity.
  split; [exact Hts|]. split; [exact Hacc|]. split.
  - eexists. vm_compute. reflexivity.
  - apply (gameLoop_while_ends Sample.cfg 7 inputs m (1 # 10) Hts eq_refl Hacc).
    cbn. lia.
Defined.

(** ** Moving a paddle *)

(** X5: a connection steers its own paddle only. In a lobby with two
    seated players whose objects are placed, [movePaddle] by the connection
    of player 1 sets the direction of paddle 1 and changes nothing else;
    by the connection of player 2 (another socket id) it sets the direction
    of paddle 2 and changes nothing else; by any other connection it throws
    "Paddle not found" and changes nothing. It never sends anything. *)
Theorem movePaddle_own_paddle client direction l p1 p2 o :
  player1 l = Some p1 -> player2 l = Some p2 ->
  objects (instance l) = Some o ->
  movePaddle client direction l =
    if bool_decide (sock_id client = sock_id p1) then
      (Ok tt,
       set_instance
         (set_objects
            (Some (set_paddle1 (set_paddle_direction direction (paddle1 o)) o))
            (instance l)) l,
       [])
    else if bool_decide (sock_id client = sock_id p2) then
      (Ok tt,
       set_instance
         (set_objects
            (Some (set_paddle2 (set_paddle_direction direction (paddle2 o)) o))
            (instance l)) l,
       [])
    else (Throw (WsException "Paddle not found"), l, []).
Proof.
  intros H1 H2 Ho.
  unfold movePaddle, getPaddle, getObjects, getGame, required, putObjects, modGame,
    modify, get, bind, ret, throw.
  rewrite H1. case_bool_decide as E1.
  - rewrite Ho. reflexivity.
  - rewrite H2. case_bool_decide as E2.
    + rewrite Ho. reflexivity.
    + reflexivity.
Qed.

Lemma movePaddle_own_paddle_witness :
  exists l',
    movePaddle Sample.bob UP (Sample.lobbyWith Sample.ballAtCentre) = (Ok tt, l', [])
    /\ (paddle_direction <$> (paddle2 <$> objects (instance l'))) = Some UP
    /\ (paddle1 <$> objects (instance l'))
       = Some (paddle1 (Sample.someObjects Sample.ballAtCentre))
    /\ movePaddle Sample.carol UP (Sample.lobbyWith Sample.ballAtCentre)
       = (Throw (WsException "Paddle not found"),
          Sample.lobbyWith Sample.ballAtCentre, []).
Proof.
  pose proof (movePaddle_own_paddle Sample.bob UP
                (Sample.lobbyWith Sample.ballAtCentre) Sample.alice Sample.bob
                (Sample.someObjects Sample.ballAtCentre) eq_refl eq_refl eq_refl) as Hb.
  pose proof (movePaddle_own_paddle Sample.carol UP
                (Sample.lobbyWith Sample.ballAtCentre) Sample.alice Sample.bob
                (Sample.someObjects Sample.ballAtCentre) eq_refl eq_refl eq_refl) as Hc.
  eexists. split; [exact Hb|]. split; [reflexivity|]. split; [reflexivity|exact Hc].
Defined.

(** ** The launch of the ball *)

(** X6: the launches alternate and speed up. [initializeGameObjects] puts
    the ball at the centre of the field and launches it with the current
    ball speed towards the side that [ballDirection] names (for an angle of
    positive cosine, as the angles of the engine are); the next call launches
    the ball towards the other side, with a speed increased by [speedUp];
    after two calls the direction is the first one again. *)
Theorem initializeGameObjects_alternates cfg (a1 a2 : Launch) (g : Game) :
  ballDirection g = 1 \/ ballDirection g = -1 ->
  (0 < ballSpeedPerSecond g)%Q ->
  (0 <= cfg_speedUp cfg)%Q ->
  (0 < launch_cos a1)%Q -> (0 < launch_cos a2)%Q ->
  (launch_cos a1 * launch_cos a1 + launch_sin a1 * launch_sin a1 == 1)%Q ->
  let g1 := initializeGameObjects cfg a1 g in
  let g2 := initializeGameObjects cfg a2 g1 in
  exists b1 b2,
    (ball <$> objects g1) = Some b1
    /\ (ball <$> objects g2) = Some b2
    /\ ball_x b1 = (cfg_width cfg / 2)%Q /\ ball_y b1 = (cfg_height cfg / 2)%Q
    /\ (ball_velocity_x b1 * ball_velocity_x b1 + ball_velocity_y b1 * ball_velocity_y b1
        == ballSpeedPerSecond g * ballSpeedPerSecond g)%Q
    /\ (0 < ball_velocity_x b1 * inject_Z (ballDirection g))%Q
    /\ (ball_velocity_x b1 * ball_velocity_x b2 < 0)%Q
    /\ ballSpeedPerSecond g1 = (ballSpeedPerSecond g + cfg_speedUp cfg)%Q
    /\ ballDirection g1 = - ballDirection g
    /\ ballDirection g2 = ballDirection g.
Proof.
  intros Hd Hs Hup Hc1 Hc2 Hunit g1 g2.
  eexists. eexists. split; [reflexivity|]. split; [reflexivity|].
  split; [reflexivity|]. split; [reflexivity|].
  cbn. set (s := ballSpeedPerSecond g) in *. set (up := cfg_speedUp cfg) in *.
  set (c1 := launch_cos a1) in *. set (c2 := launch_cos a2) in *.
  set (s1 := launch_sin a1) in *.
  assert (Hcc : (0 < c1 * c2)%Q) by nra.
  assert (Hss : (0 < s * (s + up))%Q) by nra.
  assert (Hcs : (0 < c1 * s)%Q) by nra.
  split; [|split; [|split; [|split; [reflexivity|split; [lia|lia]]]]].
  - destruct Hd as [-> | ->].
    + change (inject_Z 1) with 1%Q.
      transitivity ((c1 * c1 + s1 * s1) * (s * s))%Q; [ring|]. rewrite Hunit. ring.
    + change (inject_Z (-1)) with (- (1))%Q.
      transitivity ((c1 * c1 + s1 * s1) * (s * s))%Q; [ring|]. rewrite Hunit. ring.
  - destruct Hd as [-> | ->].
    + change (inject_Z 1) with 1%Q. lra.
    + change (inject_Z (-1)) with (- (1))%Q. lra.
  - assert (Hall : (0 < (c1 * c2) * (s * (s + up)))%Q) by nra.
    destruct Hd as [-> | ->].
    + change (inject_Z (1 * -1)) with (- (1))%Q. change (inject_Z 1) with 1%Q. nra.
    + change (inject_Z (-1 * -1)) with 1%Q. change (inject_Z (-1)) with (- (1))%Q. nra.
Qed.

Lemma initializeGameObjects_alternates_witness :
  let g := newGame Sample.cfg 1 in
  let g1 := initializeGameObjects Sample.cfg Sample.straight g in
  let g2 := initializeGameObjects Sample.cfg Sample.straight g1 in
  (ball_velocity_x <$> (ball <$> objects g1)) = Some (1 * 300 * 1)%Q
  /\ (ball_velocity_x <$> (ball <$> objects g2)) = Some (1 * (300 + 20) * inject_Z (-1))%Q
  /\ ballDirection g2 = 1.
Proof.
  intros g g1 g2.
  destruct (initializeGameObjects_alternates Sample.cfg Sample.straight Sample.straight g)
    as (b1 & b2 & H1 & H2 & _ & _ & _ & _ & _ & _ & _ & Hdir).
  - left. reflexivity.
  - reflexivity.
  - cbn. lra.
  - reflexivity.
  - reflexivity.
  - reflexivity.
  - split; [reflexivity|]. split; [reflexivity|]. exact Hdir.
Defined.

(** ** Points and the end of the match *)

Lemma js_strict_eq_Num n k : js_strict_eq (Some (Num n)) k = (n =? k).
Proof. reflexivity. Qed.

Lemma checkGameFinish_running cfg users l p1 p2 n1 n2 :
  player1 l = Some p1 -> player2 l = Some p2 ->
  scores (instance l) !! data_id p1 = Some (Num n1) ->
  scores (instance l) !! data_id p2 = Some (Num n2) ->
  n1 ≠ cfg_maxScore cfg -> n2 ≠ cfg_maxScore cfg ->
  checkGameFinish cfg users l = (Ok tt, l, []).
Proof.
  intros H1 H2 S1 S2 N1 N2. unfold checkGameFinish.
  erewrite bind_Ok by reflexivity. rewrite H1. cbn [required].
  erewrite bind_Ok by reflexivity. rewrite S1, js_strict_eq_Num.
  rewrite (proj2 (Z.eqb_neq _ _) N1). rewrite H2. cbn [required].
  erewrite bind_Ok by reflexivity. rewrite S2, js_strict_eq_Num.
  rewrite (proj2 (Z.eqb_neq _ _) N2). reflexivity.
Qed.


Lemma setLoser_winner_missing users l p1 p2 playerId :
  player1 l = Some p1 -> player2 l = Some p2 ->
  users !! (if bool_decide (playerId = data_id p1) then data_id p2 else data_id p1)
    = None ->
  setLoser users playerId l = (Throw (WsException "User not found"), l, []).
Proof.
  intros H1 H2 Hw. unfold setLoser, getUserById.
  erewrite bind_Ok by reflexivity. rewrite H1, H2. cbn [fmap option_fmap option_map].
  rewrite (bool_decide_ext (Some playerId = Some (data_id p1)) (playerId = data_id p1))
    by (split; congruence).
  destruct (bool_decide (playerId = data_id p1)); cbn [mbind option_bind];
    rewrite Hw; reflexivity.
Qed.



(** The part of [handleScreenBoundsCollision] before [checkGameFinish]: the
    point, the new placement and the score event. *)
Lemma handleScreenBoundsCollision_point cfg users a l o p1 p2 r l3 out :
  objects (instance l) = Some o ->
  player1 l = Some p1 -> player2 l = Some p2 ->
  let id := if Qle_bool (ball_x (ball o)) (ball_radius (ball o))
            then data_id p2 else data_id p1 in
  let l2 := set_instance (pointFor cfg a id (instance l)) l in
  (checkGameFinish cfg users ;;;
   g <- getGame ;;
   if hasFinished g then ret tt else modGame (set_gamePaused true)) l2 = (r, l3, out) ->
  handleScreenBoundsCollision cfg users a l =
    (r, l3,
     scoreEvent l (scores (instance l2) !! data_id p1)
                  (scores (instance l2) !! data_id p2) :: out).
Proof.
  intros Ho H1 H2 id l2 Hrest. unfold handleScreenBoundsCollision.
  erewrite bind_Ok
    by (unfold getObjects, getGame, bind, required, ret; rewrite Ho; reflexivity).
  erewrite bind_Ok by reflexivity.
  subst l2 id. unfold player1, player2 in *.
  destruct (Qle_bool (ball_x (ball o)) (ball_radius (ball o))).
  - erewrite bind_Ok.
    2:{ unfold player2. rewrite H2. cbn [required]. erewrite bind_Ok by reflexivity.
        reflexivity. }
    erewrite bind_Ok by reflexivity.
    erewrite bind_Ok.
    2:{ unfold dispatchScore. erewrite bind_Ok by reflexivity. reflexivity. }
    match goal with
    | |- context [bind (checkGameFinish cfg users) ?k ?s] =>
        change (bind (checkGameFinish cfg users) k s)
          with (bind (checkGameFinish cfg users) k
                  (set_instance (pointFor cfg a (data_id p2) (instance l)) l))
    end.
    rewrite Hrest.
    cbn [app]. unfold scoreOf, player1, player2. cbn [players set_instance instance].
    rewrite H1, H2. reflexivity.
  - erewrite bind_Ok.
    2:{ unfold player1. rewrite H1. cbn [required]. erewrite bind_Ok by reflexivity.
        reflexivity. }
    erewrite bind_Ok by reflexivity.
    erewrite bind_Ok.
    2:{ unfold dispatchScore. erewrite bind_Ok by reflexivity. reflexivity. }
    match goal with
    | |- context [bind (checkGameFinish cfg users) ?k ?s] =>
        change (bind (checkGameFinish cfg users) k s)
          with (bind (checkGameFinish cfg users) k
                  (set_instance (pointFor cfg a (data_id p1) (instance l)) l))
    end.
    rewrite Hrest.
    cbn [app]. unfold scoreOf, player1, player2. cbn [players set_instance instance].
    rewrite H1, H2. reflexivity.
Qed.

Lemma pointFor_scores cfg a id g n :
  scores g !! id = Some (Num n) ->
  scores (pointFor cfg a id g) = <[id := Num (n + 1)]> (scores g).
Proof. intros H. cbn. rewrite H. reflexivity. Qed.

Lemma handleScreenBoundsCollision_point_scored cfg users a l o p1 p2 n1 n2 :
  objects (instance l) = Some o ->
  player1 l = Some p1 -> player2 l = Some p2 ->
  data_id p1 ≠ data_id p2 ->
  scores (instance l) !! data_id p1 = Some (Num n1) ->
  scores (instance l) !! data_id p2 = Some (Num n2) ->
  hasFinished (instance l) = false ->
  let left := Qle_bool (ball_x (ball o)) (ball_radius (ball o)) in
  let m1 := if left then n1 else n1 + 1 in
  let m2 := if left then n2 + 1 else n2 in
  m1 ≠ cfg_maxScore cfg -> m2 ≠ cfg_maxScore cfg ->
  handleScreenBoundsCollision cfg users a l =
    (Ok tt,
     set_instance
       (set_gamePaused true
          (pointFor cfg a (if left then data_id p2 else data_id p1) (instance l))) l,
     [scoreEvent l (Some (Num m1)) (Some (Num m2))]).
Proof.
  intros Ho H1 H2 Hne S1 S2 Hfin left m1 m2 M1 M2.
  set (id := if left then data_id p2 else data_id p1).
  set (l2 := set_instance (pointFor cfg a id (instance l)) l).
  assert (T1 : scores (instance l2) !! data_id p1 = Some (Num m1)).
  { subst l2 id m1. cbn [instance set_instance]. destruct left.
    - rewrite (pointFor_scores _ _ _ _ _ S2), lookup_insert_ne by congruence. exact S1.
    - rewrite (pointFor_scores _ _ _ _ _ S1), lookup_insert_eq. reflexivity. }
  assert (T2 : scores (instance l2) !! data_id p2 = Some (Num m2)).
  { subst l2 id m2. cbn [instance set_instance]. destruct left.
    - rewrite (pointFor_scores _ _ _ _ _ S2), lookup_insert_eq. reflexivity.
    - rewrite (pointFor_scores _ _ _ _ _ S1), lookup_insert_ne by congruence. exact S2. }
  rewrite <- T1, <- T2.
  apply (handleScreenBoundsCollision_point cfg users a l o p1 p2); try assumption.
  fold left. fold id. fold l2.
  erewrite bind_Ok
    by (apply (checkGameFinish_running cfg users l2 p1 p2 m1 m2); assumption).
  erewrite bind_Ok by reflexivity.
  change (hasFinished (instance l2)) with (hasFinished (instance l)). rewrite Hfin.
  reflexivity.
Qed.



Lemma setLoser_missing users l p1 p2 playerId :
  player1 l = Some p1 -> player2 l = Some p2 ->
  users !! (if bool_decide (playerId = data_id p1) then data_id p2 else data_id p1)
    = None
  \/ users !! playerId = None ->
  setLoser users playerId l = (Throw (WsException "User not found"), l, []).
Proof.
  intros H1 H2 Hmiss. unfold setLoser, getUserById.
  erewrite bind_Ok by reflexivity. rewrite H1, H2. cbn [fmap option_fmap option_map].
  rewrite (bool_decide_ext (Some playerId = Some (data_id p1)) (playerId = data_id p1))
    by (split; congruence).
  destruct (bool_decide (playerId = data_id p1)); cbn [mbind option_bind];
    destruct (users !! _) as [w|] eqn:Ew; try reflexivity;
    (destruct Hmiss as [Hm|Hm]; [congruence|]);
    erewrite bind_Ok by reflexivity; rewrite Hm; reflexivity.
Qed.

Lemma handleScreenBoundsCollision_user_missing cfg users a l o p1 p2 n1 n2 :
  objects (instance l) = Some o ->
  player1 l = Some p1 -> player2 l = Some p2 ->
  data_id p1 ≠ data_id p2 ->
  scores (instance l) !! data_id p1 = Some (Num n1) ->
  scores (instance l) !! data_id p2 = Some (Num n2) ->
  n1 ≠ cfg_maxScore cfg -> n2 ≠ cfg_maxScore cfg ->
  users !! data_id p1 = None \/ users !! data_id p2 = None ->
  let left := Qle_bool (ball_x (ball o)) (ball_radius (ball o)) in
  let m1 := if left then n1 else n1 + 1 in
  let m2 := if left then n2 + 1 else n2 in
  (if left then m2 else m1) = cfg_maxScore cfg ->
  exists l',
    handleScreenBoundsCollision cfg users a l =
      (Throw (WsException "User not found"), l',
       [scoreEvent l (Some (Num m1)) (Some (Num m2))])
    /\ hasFinished (instance l') = true
    /\ game_match (instance l') = game_match (instance l).
Proof.
  intros Ho H1 H2 Hne S1 S2 N1 N2 Hmiss left m1 m2 Hmax.
  set (id := if left then data_id p2 else data_id p1).
  set (l2 := set_instance (pointFor cfg a id (instance l)) l).
  assert (T1 : scores (instance l2) !! data_id p1 = Some (Num m1)).
  { subst l2 id m1. cbn [instance set_instance]. destruct left.
    - rewrite (pointFor_scores _ _ _ _ _ S2), lookup_insert_ne by congruence. exact S1.
    - rewrite (pointFor_scores _ _ _ _ _ S1), lookup_insert_eq. reflexivity. }
  assert (T2 : scores (instance l2) !! data_id p2 = Some (Num m2)).
  { subst l2 id m2. cbn [instance set_instance]. destruct left.
    - rewrite (pointFor_scores _ _ _ _ _ S2), lookup_insert_eq. reflexivity.
    - rewrite (pointFor_scores _ _ _ _ _ S1), lookup_insert_ne by congruence. exact S2. }
  set (l3 := set_instance (set_hasFinished true (instance l2)) l2).
  assert (Hcheck : checkGameFinish cfg users l2 =
                     (Throw (WsException "User not found"), l3, [])).
  { unfold checkGameFinish.
    erewrite bind_Ok by reflexivity.
    change (player1 l2) with (player1 l). change (player2 l2) with (player2 l).
    rewrite H1. cbn [required].
    erewrite bind_Ok by reflexivity. rewrite T1, js_strict_eq_Num.
    destruct left eqn:Eleft; subst m1 m2; cbn iota in *.
    - rewrite (proj2 (Z.eqb_neq _ _) N1). rewrite H2. cbn [required].
      erewrite bind_Ok by reflexivity. rewrite T2, js_strict_eq_Num, Hmax, Z.eqb_refl.
      erewrite bind_Ok by reflexivity.
      erewrite bind_Throw; [reflexivity|].
      apply (setLoser_missing users _ p1 p2); [exact H1|exact H2|].
      rewrite bool_decide_eq_true_2 by reflexivity. tauto.
    - rewrite Hmax, Z.eqb_refl. rewrite H2. cbn [required].
      erewrite bind_Ok by reflexivity. erewrite bind_Ok by reflexivity.
      erewrite bind_Throw; [reflexivity|].
      apply (setLoser_missing users _ p1 p2); [exact H1|exact H2|].
      rewrite bool_decide_eq_false_2 by congruence. tauto. }
  assert (Hrun : handleScreenBoundsCollision cfg users a l =
            (Throw (WsException "User not found"), l3,
             [scoreEvent l (Some (Num m1)) (Some (Num m2))])).
  { rewrite <- T1, <- T2.
    apply (handleScreenBoundsCollision_point cfg users a l o p1 p2); try assumption.
    fold left. fold id. fold l2. erewrite bind_Throw by exact Hcheck. reflexivity. }
  exists l3. split; [exact Hrun|]. split; reflexivity.
Qed.

(** A pass of the [while] in which the ball reaches a goal line runs
    [handleScreenBoundsCollision] on the objects after the move. *)
Lemma whileIteration_goal cfg users a acc l o :
  (cfg_timeStep cfg <= acc)%Q ->
  objects (instance l) = Some o ->
  atGoal cfg (ball (afterMove cfg (instance l) o)) ->
  whileIteration cfg users a acc l =
    (handleScreenBoundsCollision cfg users a ;;;
     g <- getGame ;;
     if gamePaused g then
       r <- countDown (cfg_pointCountDownDuration cfg) ;;
       ret (Pausing acc r)
     else afterPause cfg acc)
      (set_instance (set_objects (Some (afterMove cfg (instance l) o)) (instance l)) l).
Proof.
  intros Hacc Ho (Hy1 & Hy2 & Hx).
  unfold whileIteration. rewrite (proj2 (Qgeb_true _ _) Hacc).
  unfold updateGameState, handleCollisions.
  unfold getObjects at 1, getGame at 1.
  unfold bind at 1 2 3. rewrite Ho. cbn [required ret].
  unfold putObjects at 1, modGame at 1, modify at 1.
  unfold bind at 1. unfold bind at 1.
  unfold getObjects at 1, getGame at 1. unfold bind at 1 2. cbn [required ret
    objects instance set_instance set_objects].
  unfold putObjects at 1, modGame at 1, modify at 1.
  unfold bind at 1. unfold bind at 1.
  unfold getObjects at 1, getGame at 1. unfold bind at 1 2. cbn [required ret
    objects instance set_instance set_objects].
  unfold getGame at 1. unfold bind at 1.
  cbn [ballSpeedPerSecond instance set_instance set_objects].
  fold (afterMove cfg (instance l) o).
  set (o1 := afterMove cfg (instance l) o) in *.
  unfold putObjects at 1, modGame at 1, modify at 1. unfold bind at 1.
  assert (Hwall : Qle_bool (ball_y (ball o1)) (ball_radius (ball o1))
                  || Qgeb (ball_y (ball o1)) (cfg_height cfg - ball_radius (ball o1))
                  = false).
  { apply orb_false_iff. split.
    - apply not_true_iff_false. rewrite Qle_bool_iff. lra.
    - apply not_true_iff_false. rewrite Qgeb_true. lra. }
  assert (Hgoal : Qle_bool (ball_x (ball o1)) (ball_radius (ball o1))
                  || Qgeb (ball_x (ball o1)) (cfg_width cfg - ball_radius (ball o1))
                  = true).
  { apply orb_true_iff. destruct Hx as [Hx|Hx].
    - left. apply Qle_bool_iff, Hx.
    - right. apply Qgeb_true, Hx. }
  rewrite Hwall, Hgoal.
  cbn [instance set_instance set_objects].
  unfold bind.
  destruct (handleScreenBoundsCollision cfg users a _) as [[[[]|e] l2] o2];
    [|rewrite ?app_nil_l; reflexivity].
  destruct (getGame l2) as [[[g|e] l3] o3]; [|reflexivity].
  destruct (if gamePaused g then _ else _) as [[r4 l4] o4].
  rewrite ?app_nil_l, ?app_assoc. reflexivity.
Qed.

(** X7: a point. In a pass of the game loop whose move carries the ball to
    a goal line, clear of the top and bottom walls, with two seated players
    of different user ids whose scores are integers below the maximal score
    and a game that is not finished: the point goes to player 2 when the
    ball is at the left line ([ball.x <= ball.radius]) and to player 1
    otherwise; the objects are placed again; the score event carries the new
    scores; and, when the new score is below the maximal score, the game is
    paused and the count-down between two points starts: its first event is
    sent to every player and the pass is suspended. *)
Theorem whileIteration_point_scored cfg users a acc l o p1 p2 n1 n2 :
  (cfg_timeStep cfg <= acc)%Q ->
  objects (instance l) = Some o ->
  atGoal cfg (ball (afterMove cfg (instance l) o)) ->
  player1 l = Some p1 -> player2 l = Some p2 ->
  data_id p1 ≠ data_id p2 ->
  scores (instance l) !! data_id p1 = Some (Num n1) ->
  scores (instance l) !! data_id p2 = Some (Num n2) ->
  hasFinished (instance l) = false ->
  let b := ball (afterMove cfg (instance l) o) in
  let left := Qle_bool (ball_x b) (ball_radius b) in
  let m1 := if left then n1 else n1 + 1 in
  let m2 := if left then n2 + 1 else n2 in
  m1 ≠ cfg_maxScore cfg -> m2 ≠ cfg_maxScore cfg ->
  whileIteration cfg users a acc l =
    (Ok (Pausing acc (cfg_pointCountDownDuration cfg - 1)),
     set_instance
       (set_gamePaused true
          (pointFor cfg a (if left then data_id p2 else data_id p1) (instance l))) l,
     scoreEvent l (Some (Num m1)) (Some (Num m2))
       :: ((fun p => {| recipients := [sock_id p];
                        event := GameCountdown (cfg_pointCountDownDuration cfg) |})
             <$> players l)).
Proof.
  intros Hacc Ho Hgoal H1 H2 Hne S1 S2 Hfin b left m1 m2 M1 M2.
  rewrite (whileIteration_goal cfg users a acc l o Hacc Ho Hgoal).
  erewrite bind_Ok.
  2:{ apply (handleScreenBoundsCollision_point_scored cfg users a _
               (afterMove cfg (instance l) o) p1 p2 n1 n2);
        try assumption; reflexivity. }
  erewrite bind_Ok by reflexivity. cbn [gamePaused set_gamePaused instance set_instance].
  unfold countDown. erewrite bind_Ok.
  2:{ erewrite bind_Ok by reflexivity. reflexivity. }
  cbn. rewrite !app_nil_r. reflexivity.
Qed.

Lemma whileIteration_point_scored_witness :
  exists l',
    whileIteration Sample.cfg (userTable Sample.state) Sample.straight (1 # 60)
      (SampleMatch.lobby 2 4)
    = (Ok (Pausing (1 # 60) 2), l',
       [ scoreEvent (SampleMatch.lobby 2 4) (Some (Num 2)) (Some (Num 5));
         {| recipients := ["socket-a"]; event := GameCountdown 3 |};
         {| recipients := ["socket-b"]; event := GameCountdown 3 |} ])
    /\ gamePaused (instance l') = true
    /\ scores (instance l') !! "bob" = Some (Num 5).
Proof.
  eexists. split.
  - apply (whileIteration_point_scored Sample.cfg (userTable Sample.state)
             Sample.straight (1 # 60) (SampleMatch.lobby 2 4)
             (Sample.someObjects SampleMatch.ballOut) Sample.alice Sample.bob 2 4);
      try (vm_compute; reflexivity); try (vm_compute; discriminate).
    split; [vm_compute; reflexivity|]. split; [vm_compute; reflexivity|].
    left. vm_compute. discriminate.
  - split; vm_compute; reflexivity.
Defined.



(** X9: the last point when the user service fails. In a pass of the game
    loop whose move carries the ball to a goal line, when the point brings
    the score of a player to the maximal score and the user service does
    not find one of the two players: the score event is sent and the game
    is marked finished, but "User not found" is thrown, no match is
    recorded and no finish event is sent; the exception ends the task of
    the game loop. *)
Theorem whileIteration_user_missing cfg users a acc m o p1 p2 n1 n2 :
  control m = InWhile acc ->
  (cfg_timeStep cfg <= acc)%Q ->
  objects (instance (mlobby m)) = Some o ->
  atGoal cfg (ball (afterMove cfg (instance (mlobby m)) o)) ->
  player1 (mlobby m) = Some p1 -> player2 (mlobby m) = Some p2 ->
  data_id p1 ≠ data_id p2 ->
  scores (instance (mlobby m)) !! data_id p1 = Some (Num n1) ->
  scores (instance (mlobby m)) !! data_id p2 = Some (Num n2) ->
  n1 ≠ cfg_maxScore cfg -> n2 ≠ cfg_maxScore cfg ->
  users !! data_id p1 = None \/ users !! data_id p2 = None ->
  let b := ball (afterMove cfg (instance (mlobby m)) o) in
  let left := Qle_bool (ball_x b) (ball_radius b) in
  let m1 := if left then n1 else n1 + 1 in
  let m2 := if left then n2 + 1 else n2 in
  (if left then m2 else m1) = cfg_maxScore cfg ->
  exists l',
    whileIteration cfg users a acc (mlobby m) =
      (Throw (WsException "User not found"), l',
       [scoreEvent (mlobby m) (Some (Num m1)) (Some (Num m2))])
    /\ step cfg m (WhileIteration users a) =
         Some ({| mlobby := l'; control := Crashed |},
               [scoreEvent (mlobby m) (Some (Num m1)) (Some (Num m2))])
    /\ hasFinished (instance l') = true
    /\ game_match (instance l') = game_match (instance (mlobby m)).
Proof.
  intros Hctl Hacc Ho Hgoal H1 H2 Hne S1 S2 N1 N2 Hmiss b left m1 m2 Hmax.
  set (l := mlobby m) in *.
  set (l1 := set_instance
               (set_objects (Some (afterMove cfg (instance l) o)) (instance l)) l).
  destruct (handleScreenBoundsCollision_user_missing cfg users a l1
              (afterMove cfg (instance l) o) p1 p2 n1 n2)
    as (l' & Hrun & Hfin & Hmatch); try assumption; try reflexivity.
  assert (Hwhile : whileIteration cfg users a acc l =
            (Throw (WsException "User not found"), l',
             [scoreEvent l (Some (Num m1)) (Some (Num m2))])).
  { rewrite (whileIteration_goal cfg users a acc l o Hacc Ho Hgoal). fold l1.
    erewrite bind_Throw by exact Hrun. reflexivity. }
  exists l'. split; [exact Hwhile|]. split; [|split; [exact Hfin|exact Hmatch]].
  unfold step. rewrite Hctl. unfold callback. fold l. rewrite Hwhile. reflexivity.
Qed.

Lemma whileIteration_user_missing_witness :
  exists l',
    step Sample.cfg {| mlobby := SampleMatch.lobby 2 10; control := InWhile (1 # 60) |}
      (WhileIteration ∅ Sample.straight)
    = Some ({| mlobby := l'; control := Crashed |},
            [scoreEvent (SampleMatch.lobby 2 10) (Some (Num 2)) (Some (Num 11))])
    /\ hasFinished (instance l') = true
    /\ game_match (instance l') = None.
Proof.
  destruct (whileIteration_user_missing Sample.cfg ∅ Sample.straight (1 # 60)
              {| mlobby := SampleMatch.lobby 2 10; control := InWhile (1 # 60) |}
              (Sample.someObjects SampleMatch.ballOut) Sample.alice Sample.bob 2 10)
    as (l' & _ & Hstep & Hfin & Hmatch);
    try lazymatch goal with
        | |- ex _ => idtac
        | |- _ \/ _ => left; vm_compute; reflexivity
        | |- _ => first [ vm_compute; reflexivity | vm_compute; discriminate ]
        end.
  { split; [vm_compute; reflexivity|]. split; [vm_compute; reflexivity|].
    left. vm_compute. discriminate. }
  exists l'. split; [exact Hstep|]. split; [exact Hfin|]. rewrite Hmatch.
  vm_compute. reflexivity.
Defined.

(** ** The start event *)

#[global] Instance sendsNoStart_closed : Closed sendsNoStart.
Proof.
  split.
  - intros s. constructor.
  - intros s s1 s2 o1 o2 H1 H2. apply Forall_app. split; assumption.
Qed.

Lemma getGame_noStart : within sendsNoStart getGame.
Proof. intros l. constructor. Qed.
Lemma modGame_noStart f : within sendsNoStart (modGame f).
Proof. intros l. constructor. Qed.
Lemma emitToPlayers_noStart ev :
  isStart {| recipients := []; event := ev |} = false ->
  within sendsNoStart (emitToPlayers ev).
Proof.
  intros H l. cbn. apply Forall_fmap, Forall_forall. intros p _. exact H.
Qed.
Lemma dispatchToLobby_noStart ev :
  isStart {| recipients := []; event := ev |} = false ->
  within sendsNoStart (dispatchToLobby ev).
Proof. intros H l. cbn. constructor; [exact H|constructor]. Qed.

#[global] Hint Resolve getGame_noStart modGame_noStart : within.
#[global] Hint Extern 1 (within sendsNoStart (emitToPlayers _)) =>
  apply emitToPlayers_noStart; reflexivity : within.
#[global] Hint Extern 1 (within sendsNoStart (dispatchToLobby _)) =>
  apply dispatchToLobby_noStart; reflexivity : within.

Lemma putObjects_noStart o : within sendsNoStart (putObjects o).
Proof. apply modGame_noStart. Qed.
Lemma getObjects_noStart : within sendsNoStart getObjects.
Proof. unfold getObjects. within_solve. Qed.
#[global] Hint Resolve putObjects_noStart getObjects_noStart : within.

Lemma countdownInterval_noStart n : within sendsNoStart (countdownInterval n).
Proof. unfold countdownInterval. within_solve. Qed.
Lemma countDown_noStart n : within sendsNoStart (countDown n).
Proof. unfold countDown. within_solve. Qed.
#[global] Hint Resolve countdownInterval_noStart countDown_noStart : within.

Lemma afterPause_noStart cfg acc : within sendsNoStart (afterPause cfg acc).
Proof. unfold afterPause, triggerFinish, sendGameState. within_solve. Qed.
#[global] Hint Resolve afterPause_noStart : within.

Lemma whileIteration_noStart cfg users a acc :
  within sendsNoStart (whileIteration cfg users a acc).
Proof.
  unfold whileIteration, updateGameState, handleCollisions,
    handleScreenBoundsCollision, checkGameFinish, setLoser, getUserById,
    dispatchScore.
  within_solve.
Qed.

Lemma callback_started c m :
  within sendsNoStart c -> resumes (c (mlobby m)) ->
  noStart (callback c m).2 /\ control (callback c m).1 <> NotStarted.
Proof.
  intros Hc (_ & Hr). specialize (Hc (mlobby m)). unfold callback.
  destruct (c (mlobby m)) as [[[k|e] l] o]; cbn in *.
  - split; [exact Hc|]. intros ->. apply Hr. reflexivity.
  - split; [exact Hc|]. discriminate.
Qed.

Lemma step_started cfg m act m' out :
  forced act = false ->
  control m <> NotStarted ->
  step cfg m act = Some (m', out) ->
  noStart out /\ control m' <> NotStarted.
Proof.
  intros Hact Hctl Hstep. unfold step in Hstep.
  destruct act as [a| |t|users a|client direction| |client| ]; try discriminate Hact.
  - destruct (control m); try discriminate Hstep. contradiction.
  - destruct (control m) eqn:E; try discriminate Hstep; injection Hstep as Hstep.
    + pose proof (callback_started (startTick remainingSeconds) m) as H.
      rewrite Hstep in H. apply H; [|apply startTick_resumes].
      unfold startTick, triggerStart_resume. within_solve.
    + pose proof (callback_started (pauseTick cfg accumulator remainingSeconds) m) as H.
      rewrite Hstep in H. apply H; [|apply pauseTick_resumes].
      unfold pauseTick. within_solve.
  - destruct (control m) eqn:E; try discriminate Hstep; injection Hstep as Hstep.
    pose proof (callback_started (gameLoop accumulator t) m) as H.
    rewrite Hstep in H. apply H; [|apply gameLoop_resumes].
    unfold gameLoop. within_solve.
  - destruct (control m) eqn:E; try discriminate Hstep; injection Hstep as Hstep.
    pose proof (callback_started (whileIteration cfg users a accumulator) m) as H.
    rewrite Hstep in H. apply H; [apply whileIteration_noStart|].
    apply whileIteration_resumes.
  - destruct (interruptible (control m)); [|discriminate Hstep].
    injection Hstep as Hstep.
    apply external_silent in Hstep as [Hc ->]; [|apply movePaddle_silent].
    split; [constructor|congruence].
  - destruct (interruptible (control m)); [|discriminate Hstep].
    injection Hstep as <- <-. split; [constructor|exact Hctl].
Qed.

Lemma exec_started cfg acts : forall m m' out,
  forallb (fun act => negb (forced act)) acts = true ->
  control m <> NotStarted ->
  exec cfg m acts = Some (m', out) ->
  noStart out.
Proof.
  induction acts as [|act rest IH]; intros m m' out Hacts Hctl Hexec.
  - injection Hexec as _ <-. constructor.
  - cbn in Hacts. apply andb_true_iff in Hacts as [Hact Hrest].
    apply negb_true_iff in Hact. cbn in Hexec.
    destruct (step cfg m act) as [[m1 o1]|] eqn:Hstep; [|discriminate].
    destruct (exec cfg m1 rest) as [[m2 o2]|] eqn:Hrun; [|discriminate].
    injection Hexec as _ <-.
    destruct (step_started cfg m act m1 o1 Hact Hctl Hstep) as (Hno & Hctl1).
    apply Forall_app. split; [exact Hno|]. eapply IH; eassumption.
Qed.

Lemma exec_crashed cfg acts : forall m m' out,
  forallb (fun act => negb (forced act)) acts = true ->
  control m = Crashed ->
  exec cfg m acts = Some (m', out) ->
  out = [].
Proof.
  induction acts as [|act rest IH]; intros m m' out Hacts Hctl Hexec.
  - injection Hexec as _ <-. reflexivity.
  - cbn in Hacts. apply andb_true_iff in Hacts as [Hact Hrest].
    apply negb_true_iff in Hact. rewrite exec_cons in Hexec.
    destruct (step cfg m act) as [[m1 o1]|] eqn:Hstep; [|discriminate].
    destruct (exec cfg m1 rest) as [[m2 o2]|] eqn:Hrun; [|discriminate].
    injection Hexec as _ <-.
    assert (H1 : control m1 = Crashed /\ o1 = []).
    { unfold step in Hstep. rewrite Hctl in Hstep.
      destruct act as [a| |t|users a|client direction| |client| ];
        try discriminate Hact; try discriminate Hstep.
      - cbn [interruptible] in Hstep. injection Hstep as Hstep.
        apply external_silent in Hstep as [Hc ->]; [|apply movePaddle_silent].
        split; [congruence|reflexivity].
      - cbn [interruptible] in Hstep. injection Hstep as <- <-.
        split; [exact Hctl|reflexivity]. }
    destruct H1 as (Hc1 & ->).
    apply (IH m1 m2 o2 Hrest Hc1 Hrun).
Qed.

Lemma triggerStart_output cfg a l :
  ((triggerStart cfg a l).2 = [] /\ exists e, (triggerStart cfg a l).1.1 = Throw e)
  \/ exists e rest,
       (triggerStart cfg a l).2 = e :: rest /\ isStart e = true /\ noStart rest.
Proof.
  destruct (player1 l) as [p1|] eqn:H1.
  - destruct (player2 l) as [p2|] eqn:H2.
    + right. rewrite (triggerStart_result cfg a l p1 p2 H1 H2). cbn [snd].
      eexists. eexists. split; [reflexivity|]. split; [reflexivity|].
      apply Forall_fmap, Forall_forall. intros p _. reflexivity.
    + left. unfold player1, player2 in *.
      unfold triggerStart. rewrite try_catch_throw.
      unfold countDown, getObjects, getGame, required, dispatchToLobby,
        emitToPlayers, modGame, modify, get, bind, ret, throw, player1, player2.
      cbn. rewrite H1, H2. cbn. split; [reflexivity|eexists; reflexivity].
  - left. unfold player1 in *.
    unfold triggerStart. rewrite try_catch_throw.
    unfold countDown, getObjects, getGame, required, dispatchToLobby,
      emitToPlayers, modGame, modify, get, bind, ret, throw, player1, player2.
    cbn. rewrite H1. cbn. split; [reflexivity|eexists; reflexivity].
Qed.

(** A run without forced end sends nothing, or the start event first. *)
Lemma exec_startIsFirst cfg acts : forall l m out,
  forallb (fun act => negb (forced act)) acts = true ->
  exec cfg (initial l) acts = Some (m, out) ->
  startIsFirst out.
Proof.
  induction acts as [|act rest IH]; intros l m out Hacts Hexec.
  - injection Hexec as _ <-. left. reflexivity.
  - cbn in Hacts. apply andb_true_iff in Hacts as [Hact Hrest].
    apply negb_true_iff in Hact. rewrite exec_cons in Hexec.
    destruct (step cfg (initial l) act) as [[m1 o1]|] eqn:Hstep; [|discriminate].
    destruct (exec cfg m1 rest) as [[m2 o2]|] eqn:Hrun; [|discriminate].
    injection Hexec as _ <-.
    unfold step in Hstep. cbn [control initial] in Hstep.
    destruct act as [a| |t|users a|client direction| |client| ];
      try discriminate Hact; try discriminate Hstep.
    + injection Hstep as Hstep. unfold callback in Hstep.
      change (mlobby (initial l)) with l in Hstep.
      pose proof (triggerStart_output cfg a l) as Hout.
      unfold bind, ret in Hstep.
      destruct (triggerStart cfg a l) as [[[r|e] l1] o] eqn:E; cbn in Hout, Hstep.
      * injection Hstep as <- <-.
        assert (Hno : noStart o2).
        { eapply (exec_started cfg rest); [exact Hrest| |exact Hrun]. discriminate. }
        destruct Hout as [(_ & e & He)|(e & rest' & -> & Hs & Hn)]; [discriminate|].
        right. exists e, (rest' ++ o2). split; [rewrite app_nil_r; reflexivity|].
        split; [exact Hs|]. apply Forall_app. split; assumption.
      * injection Hstep as <- <-.
        assert (Hno : noStart o2).
        { eapply (exec_started cfg rest); [exact Hrest| |exact Hrun]. discriminate. }
        destruct Hout as [(-> & _)|(e' & rest' & -> & Hs & Hn)].
        -- left. cbn [app].
           apply (exec_crashed cfg rest {| mlobby := l1; control := Crashed |} m2 o2
                    Hrest eq_refl Hrun).
        -- right. exists e', (rest' ++ o2). split; [reflexivity|].
           split; [exact Hs|]. apply Forall_app. split; assumption.
    + injection Hstep as Hstep.
      apply external_silent in Hstep as [Hc ->]; [|apply movePaddle_silent].
      cbn [app]. destruct m1 as [l1 k1]. cbn in Hc. subst k1.
      apply (IH l1 m2 o2 Hrest Hrun).
    + injection Hstep as <- <-. cbn [app].
      apply (IH _ m2 o2 Hrest Hrun).
Qed.

Lemma emit_noStart (out : list Emission) :
  noStart out -> within sendsNoStart (@emit Lobby out).
Proof. intros H l. exact H. Qed.

Lemma triggerFinish_noStart : within sendsNoStart triggerFinish.
Proof. unfold triggerFinish. within_solve. Qed.

Lemma departure_noStart client : within sendsNoStart (departure client).
Proof.
  unfold departure.
  apply within_bind; [typeclasses eauto|intros l; constructor|intros _].
  apply within_bind; [typeclasses eauto|within_solve|intros l].
  apply within_bind; [typeclasses eauto| |intros _; apply triggerFinish_noStart].
  apply emit_noStart. repeat constructor.
Qed.

Lemma expiry_noStart : within sendsNoStart expiry.
Proof.
  unfold expiry.
  apply within_bind; [typeclasses eauto|within_solve|intros _].
  apply triggerFinish_noStart.
Qed.

Lemma step_noStart cfg m act m' out :
  (forall a, act <> TriggerStart a) ->
  step cfg m act = Some (m', out) ->
  noStart out.
Proof.
  intros Hact Hstep.
  assert (Hcb : forall c, within sendsNoStart c -> callback c m = (m', out) -> noStart out).
  { intros c Hc E. specialize (Hc (mlobby m)). unfold callback in E.
    destruct (c (mlobby m)) as [[[k|e] l] o]; injection E as _ <-; exact Hc. }
  assert (Hex : forall c, within sendsNoStart c -> external c m = (m', out) -> noStart out).
  { intros c Hc E. specialize (Hc (mlobby m)). unfold external in E.
    destruct (c (mlobby m)) as [[r l] o]; injection E as _ <-; exact Hc. }
  unfold step in Hstep.
  destruct act as [a| |t|users a|client direction| |client| ].
  - exfalso. apply (Hact a). reflexivity.
  - destruct (control m); try discriminate Hstep; injection Hstep as Hstep.
    + eapply Hcb; [|exact Hstep]. unfold startTick, triggerStart_resume. within_solve.
    + eapply Hcb; [|exact Hstep]. unfold pauseTick. within_solve.
  - destruct (control m); try discriminate Hstep; injection Hstep as Hstep.
    eapply Hcb; [|exact Hstep]. unfold gameLoop. within_solve.
  - destruct (control m); try discriminate Hstep; injection Hstep as Hstep.
    eapply Hcb; [|exact Hstep]. apply whileIteration_noStart.
  - destruct (interruptible (control m)); [|discriminate Hstep].
    injection Hstep as Hstep.
    apply external_silent in Hstep as [_ ->]; [|apply movePaddle_silent].
    constructor.
  - destruct (interruptible (control m)); [|discriminate Hstep].
    injection Hstep as _ <-. constructor.
  - destruct (_ && _); [|discriminate Hstep].
    apply (Hex (departure client)); [apply departure_noStart|congruence].
  - destruct (interruptible (control m)); [|discriminate Hstep].
    apply (Hex expiry); [apply expiry_noStart|congruence].
Qed.

(** X10: only [triggerStart] sends the start event, and it sends it first.
    No other step of the engine (a tick of a count-down, an entry of the
    game loop, a pass of its [while], a move of a paddle, a stop, a
    departure, an expiry) sends a start event; a call of [triggerStart]
    sends nothing, when it throws before the dispatch, or the start event
    first and no second one; and in a run of the engine from the creation
    of its lobby that holds no forced end (no departure, no expiry),
    nothing is sent before the start event. *)
Theorem engine_start_event cfg :
  (forall m act m' out,
     (forall a, act <> TriggerStart a) ->
     step cfg m act = Some (m', out) -> noStart out)
  /\ (forall a l, startIsFirst (triggerStart cfg a l).2)
  /\ (forall acts l m out,
        forallb (fun act => negb (forced act)) acts = true ->
        exec cfg (initial l) acts = Some (m, out) ->
        forall e, head out = Some e -> isStart e = true).
Proof.
  split; [|split].
  - apply step_noStart.
  - intros a l.
    destruct (triggerStart_output cfg a l) as [(E & _)|H]; [left; exact E|right; exact H].
  - intros acts l m out Hacts Hexec e He.
    destruct (exec_startIsFirst cfg acts l m out Hacts Hexec)
      as [->|(e' & rest & -> & Hs & _)]; [discriminate He|].
    injection He as <-. exact Hs.
Qed.

Lemma engine_start_event_witness :
  forallb (fun act => negb (forced act)) Sample.quickRun = true
  /\ exists m out e,
    exec Sample.quickCfg (initial Sample.lobby) Sample.quickRun = Some (m, out)
    /\ head out = Some e
    /\ isStart e = true.
Proof.
  split; [reflexivity|].
  destruct (exec Sample.quickCfg (initial Sample.lobby) Sample.quickRun)
    as [[m out]|] eqn:Hexec; [|vm_compute in Hexec; discriminate].
  destruct (engine_start_event Sample.quickCfg) as (_ & _ & Hfirst).
  specialize (Hfirst Sample.quickRun Sample.lobby m out eq_refl Hexec).
  exists m, out.
  destruct out as [|e out]; [vm_compute in Hexec; discriminate|].
  exists e. split; [reflexivity|]. split; [reflexivity|].
  apply Hfirst. reflexivity.
Defined.

(** ** The count-down of a pause *)

Lemma pauseTick_last cfg acc l o :
  hasFinished (instance l) = false ->
  objects (instance l) = Some o ->
  pauseTick cfg acc 0 l =
    (Ok (InWhile (acc - cfg_timeStep cfg)),
     set_instance (set_gamePaused false (instance l)) l,
     countdownEvents (players l) 0
       ++ [ {| recipients := sock_id <$> players l;
               event := GameState (paddle1 o) (paddle2 o) (ball o) |} ]).
Proof.
  intros Hfin Ho. unfold pauseTick, countdownInterval. cbn [Z.leb Z.compare].
  unfold afterPause, sendGameState, getObjects, getGame, required, dispatchToLobby,
    emitToPlayers, modGame, modify, bind, ret.
  cbn. rewrite Hfin. cbn. rewrite Ho. cbn. rewrite !app_nil_r. reflexivity.
Qed.

Lemma pauseTick_next cfg acc l (n : nat) :
  stop (instance l) = false ->
  pauseTick cfg acc (Z.of_nat (S n)) l =
    (Ok (Pausing acc (Z.of_nat n)), l,
     (fun p => {| recipients := [sock_id p];
                  event := GameCountdown (Z.of_nat (S n)) |}) <$> players l).
Proof.
  intros Hstop. unfold pauseTick, countdownInterval.
  destruct (Z.of_nat (S n) <=? 0) eqn:E; [apply Z.leb_le in E; lia|].
  unfold bind, emitToPlayers, ret, getGame. cbn. rewrite Hstop.
  rewrite !app_nil_r. repeat f_equal. lia.
Qed.

(** X11: the pause between two points. From the suspension of the game loop
    in the count-down of a pause, with [n] seconds remaining, an engine
    that is neither stopped nor finished and whose objects are placed:
    the [n + 1] ticks of the count-down send to every player the
    count-down events for the seconds from [n] down to 0, in descending
    order and without a gap, and no state in between; the last tick ends
    the pause, sends the state of the objects as they were placed, and
    hands over to the [while] of the game loop with the accumulator reduced
    by one time step. *)
Theorem pause_countdown cfg acc (n : nat) l o :
  stop (instance l) = false ->
  hasFinished (instance l) = false ->
  objects (instance l) = Some o ->
  exec cfg {| mlobby := l; control := Pausing acc (Z.of_nat n) |}
    (replicate (S n) CountdownTick) =
  Some ({| mlobby := set_instance (set_gamePaused false (instance l)) l;
           control := InWhile (acc - cfg_timeStep cfg) |},
        countdownEvents (players l) n
          ++ [ {| recipients := sock_id <$> players l;
                  event := GameState (paddle1 o) (paddle2 o) (ball o) |} ]).
Proof.
  intros Hstop Hfin Ho. induction n as [|n IH].
  - cbn [replicate]. rewrite exec_cons. cbn [step control exec]. unfold callback.
    cbn [mlobby]. change (Z.of_nat 0) with 0.
    rewrite (pauseTick_last cfg acc l o Hfin Ho). rewrite app_nil_r. reflexivity.
  - change (replicate (S (S n)) CountdownTick)
      with (CountdownTick :: replicate (S n) CountdownTick).
    rewrite exec_cons. cbn [step control]. unfold callback. cbn [mlobby].
    rewrite (pauseTick_next cfg acc l n Hstop). rewrite IH.
    cbn [countdownEvents]. rewrite app_assoc. reflexivity.
Qed.

Lemma pause_countdown_witness :
  exists m out,
    exec Sample.cfg
      {| mlobby := Sample.lobbyWith Sample.ballAtCentre; control := Pausing (1 # 60) 2 |}
      (replicate 3 CountdownTick) = Some (m, out)
    /\ control m = InWhile ((1 # 60) - (1 # 60))
    /\ ((fun e => match event e with GameCountdown s => Some s | _ => None end) <$> out)
       = [Some 2; Some 2; Some 1; Some 1; Some 0; Some 0; None].
Proof.
  eexists. eexists. split.
  - apply (pause_countdown Sample.cfg (1 # 60) 2 (Sample.lobbyWith Sample.ballAtCentre)
             (Sample.someObjects Sample.ballAtCentre)); reflexivity.
  - split; reflexivity.
Defined.

(** ** The deflection of the ball by a paddle *)

(** X12: the vertical velocity after a hit on a paddle.
    [handleBallPaddleCollision] negates the horizontal velocity and sets the
    vertical velocity by the offset of the centre of the ball from the
    bottom edge of the paddle. For a ball that collides with the paddle
    ([ballCollidesWithPaddle] returns [true]), a paddle of height [h] above
    0, a radius [r] and a ball speed of at least 0, the new vertical
    velocity lies between [-(1 + r / h)] times the speed and [r / h] times the
    speed; it is at least minus the speed when the centre of the ball is
    not above the top edge of the paddle, at most 0 when it is not below the
    bottom edge, and above 0 when it is below the bottom edge and the speed
    is not 0. *)
Theorem handleBallPaddleCollision_range speed p b :
  (0 < paddle_height p)%Q -> (0 <= ball_radius b)%Q -> (0 <= speed)%Q ->
  ballCollidesWithPaddle b p = true ->
  let b' := handleBallPaddleCollision speed p b in
  let k := (ball_radius b / paddle_height p)%Q in
  (ball_velocity_x b' == - ball_velocity_x b)%Q
  /\ (- ((1 + k) * speed) <= ball_velocity_y b')%Q
  /\ (ball_velocity_y b' <= k * speed)%Q
  /\ ((paddle_y p <= ball_y b)%Q -> (- speed <= ball_velocity_y b')%Q)
  /\ ((ball_y b <= paddle_y p + paddle_height p)%Q -> (ball_velocity_y b' <= 0)%Q)
  /\ ((0 < speed)%Q -> (paddle_y p + paddle_height p < ball_y b)%Q ->
      (0 < ball_velocity_y b')%Q).
Proof.
  intros Hh Hr Hs Hhit b' k. subst b'. cbn.
  assert (Hy : (- (paddle_height p / 2 + ball_radius b)
                <= ball_y b - (paddle_y p + paddle_height p / 2)
                /\ ball_y b - (paddle_y p + paddle_height p / 2)
                   <= paddle_height p / 2 + ball_radius b)%Q).
  { unfold ballCollidesWithPaddle in Hhit. cbv zeta in Hhit.
    destruct (Qgtb _ _ || Qgtb _ _) eqn:Efar; [discriminate Hhit|].
    apply orb_false_iff in Efar as [_ Efar]. apply Qgtb_false in Efar.
    apply Qsquare_bound_inv; [|exact Efar].
    unfold Qdiv. change (/ 2)%Q with (1 # 2)%Q. lra. }
  unfold Qdiv in Hy. change (/ 2)%Q with (1 # 2)%Q in Hy.
  set (t := ((ball_y b - (paddle_y p + paddle_height p)) / paddle_height p)%Q).
  assert (Et : (t * paddle_height p == ball_y b - (paddle_y p + paddle_height p))%Q).
  { unfold t. field. lra. }
  assert (Ek : (k * paddle_height p == ball_radius b)%Q).
  { unfold k. field. lra. }
  assert (Hlo : (- (1 + k) <= t)%Q) by nra.
  assert (Hhi : (t <= k)%Q) by nra.
  split; [reflexivity|]. split; [nra|]. split; [nra|].
  split; [|split].
  - intros Htop. assert (- (1) <= t)%Q by nra. nra.
  - intros Hbottom. assert (t <= 0)%Q by nra. nra.
  - intros Hpos Hbelow. assert (0 < t)%Q by nra. nra.
Qed.

Lemma handleBallPaddleCollision_range_witness :
  let p := Sample.paddle 10 260 NONE in
  let b := set_ball_position 15 343 Sample.ballAtCentre in
  ballCollidesWithPaddle b p = true
  /\ (paddle_y p + paddle_height p < ball_y b)%Q
  /\ (ball_velocity_y (handleBallPaddleCollision 320 p b) == 12)%Q
  /\ (0 < ball_velocity_y (handleBallPaddleCollision 320 p b))%Q.
Proof.
  intros p b.
  assert (Hhit : ballCollidesWithPaddle b p = true) by (vm_compute; reflexivity).
  assert (Hbelow : (paddle_y p + paddle_height p < ball_y b)%Q)
    by (vm_compute; reflexivity).
  split; [exact Hhit|]. split; [exact Hbelow|]. split; [vm_compute; reflexivity|].
  destruct (handleBallPaddleCollision_range 320 p b) as (_ & _ & _ & _ & _ & Hdown).
  - vm_compute; reflexivity.
  - vm_compute; discriminate.
  - vm_compute; discriminate.
  - exact Hhit.
  - apply Hdown; [vm_compute; reflexivity|exact Hbelow].
Defined.



(** * The manager *)

(** ** The requests to the manager *)

Lemma set_players_id l : set_players (players l) l = l.
Proof. destruct l; reflexivity. Qed.

Lemma forEach_addPlayer ref cs : forall st l,
  heap st !! ref = Some l ->
  forEach (addPlayer ref) cs st =
    (Ok tt,
     set_dataLobby (foldl (fun d c => <[sock_id c := ref]> d) (dataLobby st) cs)
       (set_heap
          (<[ref := set_players (foldl (fun ps c => seat c ps) (players l) cs) l]>
             (heap st)) st),
     []).
Proof.
  induction cs as [|c cs IH]; intros st l Hl.
  - cbn. rewrite set_players_id, insert_id by exact Hl. destruct st; reflexivity.
  - cbn [forEach foldl].
    erewrite bind_Ok by (apply addPlayer_seated, Hl).
    erewrite IH by (cbn; apply lookup_insert_eq).
    cbn. rewrite insert_insert_eq. reflexivity.
Qed.

Lemma tryToCreateLobby_full cfg f st :
  (MAX_PLAYERS <= length (playerQueue st))%nat ->
  tryToCreateLobby cfg f st =
    (Ok tt,
     {| playerQueue := drop MAX_PLAYERS (playerQueue st);
        lobbies := if bool_decide (fresh_id f ∈ lobbies st) then lobbies st
                   else lobbies st ++ [fresh_id f];
        heap := <[fresh_id f :=
                    set_players
                      (foldl (fun ps c => seat c ps) []
                         (take MAX_PLAYERS (playerQueue st)))
                      (newLobby cfg f defaultMode)]> (heap st);
        dataLobby := foldl (fun d c => <[sock_id c := fresh_id f]> d) (dataLobby st)
                       (take MAX_PLAYERS (playerQueue st));
        userTable := userTable st |},
     []).
Proof.
  intros Hlen. unfold tryToCreateLobby.
  erewrite bind_Ok by reflexivity.
  rewrite bool_decide_eq_false_2 by lia.
  erewrite bind_Ok by reflexivity.
  erewrite bind_Ok by reflexivity.
  erewrite forEach_addPlayer by (cbn; apply lookup_insert_eq).
  cbn. rewrite insert_insert_eq. reflexivity.
Qed.

Lemma createLobby_result cfg f client st :
  dataLobby st !! sock_id client = None ->
  client ∉ playerQueue st ->
  createLobby cfg f client st =
    (Ok (fresh_id f),
     {| playerQueue := playerQueue st;
        lobbies := if bool_decide (fresh_id f ∈ lobbies st) then lobbies st
                   else lobbies st ++ [fresh_id f];
        heap := <[fresh_id f := set_players [client] (newLobby cfg f Custom)]> (heap st);
        dataLobby := <[sock_id client := fresh_id f]> (dataLobby st);
        userTable := userTable st |},
     []).
Proof.
  intros Hfree Hqueue. unfold createLobby.
  erewrite bind_Ok by reflexivity.
  rewrite bool_decide_eq_false_2 by (rewrite Hfree; apply is_Some_None).
  rewrite bool_decide_eq_false_2 by exact Hqueue.
  erewrite bind_Ok by reflexivity.
  erewrite bind_Ok by (apply addPlayer_seated; cbn; apply lookup_insert_eq).
  cbn. rewrite insert_insert_eq. reflexivity.
Qed.

Lemma createLobby_rejected cfg f client st :
  is_Some (dataLobby st !! sock_id client) \/ client ∈ playerQueue st ->
  exists msg, createLobby cfg f client st = (Throw (WsException msg), st, []).
Proof.
  intros H. unfold createLobby. erewrite bind_Ok by reflexivity.
  case_bool_decide; [eexists; reflexivity|].
  case_bool_decide; [eexists; reflexivity|].
  destruct H; contradiction.
Qed.

Lemma joinLobby_result client lobbyId st lobby :
  dataLobby st !! sock_id client = None ->
  client ∉ playerQueue st ->
  lobbies_get st lobbyId = Some lobby ->
  (mode lobby = Custom -> data_id client ∈ invitedPlayers lobby) ->
  (length (players lobby) < MAX_PLAYERS)%nat ->
  joinLobby client lobbyId st =
    (Ok tt,
     set_dataLobby (<[sock_id client := lobbyId]> (dataLobby st))
       (set_heap
          (<[lobbyId := set_players (players lobby ++ [client]) lobby]> (heap st)) st),
     []) \/
  joinLobby client lobbyId st =
    (Throw (WsException "You are already in this lobby"), st, []).
Proof.
  intros Hfree Hqueue Hget Hinv Hlen. unfold joinLobby.
  erewrite bind_Ok by reflexivity.
  rewrite bool_decide_eq_false_2 by (rewrite Hfree; apply is_Some_None).
  rewrite bool_decide_eq_false_2 by exact Hqueue.
  rewrite Hget.
  replace (bool_decide (mode lobby = Custom) && _) with false.
  2:{ symmetry. apply andb_false_iff. case_bool_decide; [right|left; reflexivity].
      apply negb_false_iff, bool_decide_eq_true_2. auto. }
  rewrite bool_decide_eq_false_2 by lia.
  destruct (players_has lobby (sock_id client)) eqn:Ehas; [right; reflexivity|left].
  rewrite (addPlayer_seated _ _ _ _ (lobbies_get_heap _ _ _ Hget)).
  unfold seat. unfold players_has in Ehas. rewrite Ehas. reflexivity.
Qed.

Lemma createLobby_throw_unchanged cfg f client st e st' out :
  createLobby cfg f client st = (Throw e, st', out) -> st' = st /\ out = [].
Proof.
  destruct (dataLobby st !! sock_id client) as [ref|] eqn:Eref.
  - destruct (createLobby_rejected cfg f client st) as (msg & ->);
      [left; eexists; exact Eref|]. intros; simplify_eq; done.
  - destruct (decide (client ∈ playerQueue st)) as [Hin|Hout].
    + destruct (createLobby_rejected cfg f client st) as (msg & ->);
        [right; exact Hin|]. intros; simplify_eq; done.
    + rewrite createLobby_result by assumption. discriminate.
Qed.

Lemma joinLobby_throw_unchanged client lobbyId st e st' out :
  joinLobby client lobbyId st = (Throw e, st', out) -> st' = st /\ out = [].
Proof.
  unfold joinLobby. erewrite bind_Ok by reflexivity.
  case_bool_decide; [rejected|].
  case_bool_decide; [rejected|].
  destruct (lobbies_get st lobbyId) as [lobby|] eqn:Eget; [|rejected].
  destruct (_ && _); [rejected|].
  case_bool_decide; [rejected|].
  destruct (players_has _ _); [rejected|].
  rewrite (addPlayer_seated _ _ _ _ (lobbies_get_heap _ _ _ Eget)). discriminate.
Qed.

Lemma leaveLobbyOrThrow_throw_unchanged client st e st' out :
  leaveLobbyOrThrow client st = (Throw e, st', out) -> st' = st /\ out = [].
Proof.
  unfold leaveLobbyOrThrow. erewrite bind_Ok by reflexivity.
  destruct (dataLobby st !! sock_id client) as [ref|]; [|rejected].
  destruct (lobbies_get st ref) as [lobby|] eqn:Eget; [|rejected].
  destruct (players_has _ _); cbn [negb]; [|rejected].
  rewrite (leaveSeat_departed _ _ _ _ (lobbies_get_heap _ _ _ Eget)). discriminate.
Qed.

Lemma leaveLobby_Ok client st : (leaveLobby client st).1.1 = Ok tt.
Proof.
  unfold leaveLobby. erewrite bind_result by reflexivity.
  destruct (dataLobby st !! sock_id client) as [ref|]; [|reflexivity].
  destruct (lobbies_get st ref) as [lobby|] eqn:Eget; [|reflexivity].
  destruct (players_has _ _); cbn [negb]; [|reflexivity].
  rewrite (leaveSeat_departed _ _ _ _ (lobbies_get_heap _ _ _ Eget)). reflexivity.
Qed.

Lemma inviteToLobbyThroughChat_throw_unchanged user invitedUserId st e st' out :
  inviteToLobbyThroughChat user invitedUserId st = (Throw e, st', out) ->
  st' = st /\ out = [].
Proof.
  unfold inviteToLobbyThroughChat.
  case_bool_decide; [rejected|].
  erewrite bind_Ok by reflexivity.
  destruct (findLobbyOfUser st (user_id user)) as [ref|]; [|rejected].
  destruct (heap st !! ref) as [lobby|] eqn:Eheap; [|rejected].
  cbn [required]. erewrite bind_Ok by reflexivity.
  case_bool_decide; [rejected|].
  destruct (players_has lobby invitedUserId); [rejected|].
  case_bool_decide; [rejected|].
  destruct (userIdInList _ _); [rejected|].
  erewrite bind_Ok by (apply onLobby_modify, Eheap). discriminate.
Qed.

Lemma addPlayerToQueue_throw_unchanged cfg f client st e st' out :
  addPlayerToQueue cfg f client st = (Throw e, st', out) -> st' = st /\ out = [].
Proof.
  unfold addPlayerToQueue. erewrite bind_Ok by reflexivity.
  case_bool_decide; [rejected|].
  case_bool_decide; [rejected|].
  erewrite bind_Ok by reflexivity.
  match goal with |- context [tryToCreateLobby _ _ ?s] => set (st1 := s) end.
  destruct (decide (length (playerQueue st1) < MAX_PLAYERS)%nat) as [Hlt|Hge].
  - rewrite tryToCreateLobby_short by exact Hlt. discriminate.
  - rewrite tryToCreateLobby_full by lia. discriminate.
Qed.

Lemma expiry_Ok l : exists l' out, expiry l = (Ok tt, l', out).
Proof. eexists. eexists. reflexivity. Qed.

Lemma cleanUpLobby_Ok cfg now ref st : (cleanUpLobby cfg now ref st).1.1 = Ok tt.
Proof.
  unfold cleanUpLobby. erewrite bind_result by reflexivity.
  destruct (lobbies_get st ref) as [lobby|] eqn:Eget; [|reflexivity].
  destruct (_ >? _); [|reflexivity].
  destruct (expiry_Ok lobby) as (l' & out & Hexp).
  erewrite bind_result; [reflexivity|].
  unfold onLobby. rewrite (lobbies_get_heap _ _ _ Eget), Hexp. reflexivity.
Qed.

Lemma forEach_Ok {A} (f : A -> M State unit) (xs : list A) :
  (forall x st, (f x st).1.1 = Ok tt) -> forall st, (forEach f xs st).1.1 = Ok tt.
Proof.
  intros Hf. induction xs as [|x xs IH]; intros st; [reflexivity|].
  cbn [forEach]. specialize (Hf x st).
  destruct (f x st) as [[r s1] o1] eqn:E. cbn in Hf. subst r.
  erewrite bind_result by exact E. apply IH.
Qed.

Lemma cleanUpLobbies_Ok cfg now st : (cleanUpLobbies cfg now st).1.1 = Ok tt.
Proof.
  unfold cleanUpLobbies. erewrite bind_result by reflexivity.
  apply forEach_Ok. intros; apply cleanUpLobby_Ok.
Qed.

Lemma bind_ret_throw {S A} (m : M S A) s e s' out :
  (m ;;; ret tt) s = (Throw e, s', out) -> m s = (Throw e, s', out).
Proof.
  unfold bind, ret. destruct (m s) as [[[a|e0] s1] o1]; intros H; [discriminate H|].
  injection H as -> -> ->. reflexivity.
Qed.

(** X14: a request that the manager rejects has changed nothing and has
    sent nothing. *)
Theorem perform_rejection_unchanged cfg (c : Command) st e st' out :
  perform cfg c st = (Throw e, st', out) -> st' = st /\ out = [].
Proof.
  destruct c as [f client|client lobbyId|client|client|client userId|user invited
                 |f client|client|client|now]; cbn [perform]; intros H.
  - apply bind_ret_throw in H. eapply createLobby_throw_unchanged, H.
  - eapply joinLobby_throw_unchanged, H.
  - eapply leaveLobbyOrThrow_throw_unchanged, H.
  - pose proof (leaveLobby_Ok client st) as Hok. rewrite H in Hok. discriminate.
  - eapply inviteToLobby_throw_unchanged, H.
  - apply bind_ret_throw in H. eapply inviteToLobbyThroughChat_throw_unchanged, H.
  - eapply addPlayerToQueue_throw_unchanged, H.
  - revert H. unfold removePlayerFromQueueOrThrow. erewrite bind_Ok by reflexivity.
    destruct (findIndex _ _); [discriminate|rejected].
  - revert H. unfold removePlayerFromQueue. erewrite bind_Ok by reflexivity.
    destruct (findIndex _ _); discriminate.
  - pose proof (cleanUpLobbies_Ok cfg now st) as Hok. rewrite H in Hok. discriminate.
Qed.

Lemma perform_rejection_unchanged_witness :
  exists e,
    perform Sample.cfg (CallJoinLobby Sample.frank "lobby-1") Sample.state
    = (Throw e, Sample.state, []).
Proof.
  destruct (perform Sample.cfg (CallJoinLobby Sample.frank "lobby-1") Sample.state)
    as [[r st'] out] eqn:H.
  destruct r as [[]|e]; [vm_compute in H; discriminate|].
  destruct (perform_rejection_unchanged _ _ _ _ _ _ H) as [-> ->].
  exists e. reflexivity.
Defined.

(** ** What the events do to seats, queue and back-references *)

Lemma seatsKept_refl l : seatsKept l l.
Proof. repeat split. Qed.

Lemma seatsKept_trans l1 l2 l3 : seatsKept l1 l2 -> seatsKept l2 l3 -> seatsKept l1 l3.
Proof. intros (?&?&?&?) (?&?&?&?). repeat split; congruence. Qed.

Lemma lobbiesKept_refl st : lobbiesKept st st.
Proof.
  repeat split; try reflexivity.
  intros ref. destruct (heap st !! ref); constructor. apply seatsKept_refl.
Qed.

Lemma lobbiesKept_trans st1 st2 st3 :
  lobbiesKept st1 st2 -> lobbiesKept st2 st3 -> lobbiesKept st1 st3.
Proof.
  intros (Q1 & D1 & U1 & S1 & H1) (Q2 & D2 & U2 & S2 & H2).
  repeat split; try congruence.
  - etrans; eassumption.
  - intros ref. specialize (H1 ref). specialize (H2 ref).
    destruct H1 as [l1 l2 H1|]; inversion H2; subst; constructor.
    eapply seatsKept_trans; eassumption.
Qed.

Lemma lobbiesKept_update st ref l l' :
  heap st !! ref = Some l -> seatsKept l l' ->
  lobbiesKept st (set_heap (<[ref := l']> (heap st)) st).
Proof.
  intros Hl Hk. repeat split; try reflexivity. intros r. cbn.
  destruct (decide (r = ref)) as [->|Hne].
  - rewrite lookup_insert_eq, Hl. constructor. exact Hk.
  - rewrite lookup_insert_ne by congruence.
    destruct (heap st !! r); constructor. apply seatsKept_refl.
Qed.

Lemma lobbiesKept_delete st id :
  lobbiesKept st (set_lobbies (filter (fun i => i ≠ id) (lobbies st)) st).
Proof.
  repeat split; try reflexivity.
  - cbn. apply sublist_filter.
  - intros r. cbn. destruct (heap st !! r); constructor. apply seatsKept_refl.
Qed.

Lemma engineOnly_seatsKept l l' out : engineOnly l l' out -> seatsKept l l'.
Proof. unfold engineOnly. intros ->. repeat split. Qed.

#[global] Instance engineOnly_closed : Closed engineOnly.
Proof.
  split.
  - intros l. unfold engineOnly. destruct l; reflexivity.
  - unfold engineOnly. intros l l1 l2 o1 o2 H1 H2. rewrite H2, H1 at 1. reflexivity.
Qed.

Lemma unchanged_engineOnly {A} (c : M Lobby A) :
  (forall l, (c l).1.2 = l) -> within engineOnly c.
Proof. intros Hc l. rewrite Hc. unfold engineOnly. destruct l; reflexivity. Qed.

Lemma modGame_engineOnly f : within engineOnly (modGame f).
Proof. intros l. reflexivity. Qed.
Lemma getGame_engineOnly : within engineOnly getGame.
Proof. apply unchanged_engineOnly. reflexivity. Qed.
Lemma emitToPlayers_engineOnly ev : within engineOnly (emitToPlayers ev).
Proof. apply unchanged_engineOnly. reflexivity. Qed.
Lemma dispatchToLobby_engineOnly ev : within engineOnly (dispatchToLobby ev).
Proof. apply unchanged_engineOnly. reflexivity. Qed.
#[global] Hint Resolve modGame_engineOnly getGame_engineOnly emitToPlayers_engineOnly
  dispatchToLobby_engineOnly : within.

Lemma putObjects_engineOnly o : within engineOnly (putObjects o).
Proof. apply modGame_engineOnly. Qed.
Lemma getObjects_engineOnly : within engineOnly getObjects.
Proof. unfold getObjects. within_solve. Qed.
#[global] Hint Resolve putObjects_engineOnly getObjects_engineOnly : within.

Lemma triggerFinish_engineOnly : within engineOnly triggerFinish.
Proof. unfold triggerFinish. within_solve. Qed.
Lemma expiry_engineOnly : within engineOnly expiry.
Proof. unfold expiry, triggerFinish. within_solve. Qed.

Lemma countDown_engineOnly n : within engineOnly (countDown n).
Proof. unfold countDown. within_solve. Qed.
Lemma countdownInterval_engineOnly n : within engineOnly (countdownInterval n).
Proof. unfold countdownInterval. within_solve. Qed.
#[global] Hint Resolve triggerFinish_engineOnly countDown_engineOnly
  countdownInterval_engineOnly : within.

Lemma afterPause_engineOnly cfg acc : within engineOnly (afterPause cfg acc).
Proof. unfold afterPause, sendGameState. within_solve. Qed.
#[global] Hint Resolve afterPause_engineOnly : within.

Lemma whileIteration_engineOnly cfg users a acc :
  within engineOnly (whileIteration cfg users a acc).
Proof.
  unfold whileIteration, updateGameState, handleCollisions,
    handleScreenBoundsCollision, checkGameFinish, setLoser, getUserById,
    dispatchScore.
  within_solve.
Qed.

Lemma step_engineOnly cfg m act m' out :
  forced act = false ->
  step cfg m act = Some (m', out) ->
  engineOnly (mlobby m) (mlobby m') out.
Proof.
  intros Hact Hstep.
  assert (Hcb : forall c, within engineOnly c ->
                  callback c m = (m', out) -> engineOnly (mlobby m) (mlobby m') out).
  { intros c Hc E. specialize (Hc (mlobby m)). unfold callback in E.
    destruct (c (mlobby m)) as [[[k|e] l] o]; injection E as <- <-; exact Hc. }
  assert (Hex : forall c, within engineOnly c ->
                  external c m = (m', out) -> engineOnly (mlobby m) (mlobby m') out).
  { intros c Hc E. specialize (Hc (mlobby m)). unfold external in E.
    destruct (c (mlobby m)) as [[r l] o]; injection E as <- <-; exact Hc. }
  unfold step in Hstep.
  destruct act as [a| |t|users a|client direction| |client| ]; try discriminate Hact.
  - destruct (control m); try discriminate Hstep. injection Hstep as Hstep.
    eapply Hcb; [|exact Hstep]. unfold triggerStart. within_solve.
  - destruct (control m); try discriminate Hstep; injection Hstep as Hstep;
      (eapply Hcb; [|exact Hstep]).
    + unfold startTick, triggerStart_resume. within_solve.
    + unfold pauseTick. within_solve.
  - destruct (control m); try discriminate Hstep; injection Hstep as Hstep.
    eapply Hcb; [|exact Hstep]. unfold gameLoop. within_solve.
  - destruct (control m); try discriminate Hstep; injection Hstep as Hstep.
    eapply Hcb; [|exact Hstep]. apply whileIteration_engineOnly.
  - destruct (interruptible (control m)); [|discriminate Hstep].
    injection Hstep as Hstep. eapply Hex; [|exact Hstep].
    unfold movePaddle, getPaddle. within_solve.
  - destruct (interruptible (control m)); [|discriminate Hstep].
    injection Hstep as <- <-. reflexivity.
Qed.

#[global] Instance keepsLobbies_closed : Closed keepsLobbies.
Proof.
  split.
  - intros st. apply lobbiesKept_refl.
  - intros st st1 st2 o1 o2. apply lobbiesKept_trans.
Qed.

Lemma onLobby_keepsLobbies {A} ref (c : M Lobby A) :
  (forall l, seatsKept l (c l).1.2) -> within keepsLobbies (onLobby ref c).
Proof.
  intros Hc st. unfold onLobby.
  destruct (heap st !! ref) as [l|] eqn:El; [|apply lobbiesKept_refl].
  specialize (Hc l). destruct (c l) as [[r l1] o]. cbn in *.
  eapply lobbiesKept_update; eassumption.
Qed.

Lemma lobbies_delete_keepsLobbies id : within keepsLobbies (lobbies_delete id).
Proof. intros st. apply lobbiesKept_delete. Qed.

Lemma emit_keepsLobbies out : within keepsLobbies (emit out).
Proof. intros st. apply lobbiesKept_refl. Qed.

Lemma expiry_keepsLobbies ref : within keepsLobbies (onLobby ref expiry).
Proof.
  apply onLobby_keepsLobbies. intros l.
  eapply engineOnly_seatsKept, expiry_engineOnly.
Qed.

Lemma invite_keepsLobbies ref ids :
  within keepsLobbies
    (onLobby ref (modify (fun l => set_invitedPlayers (invitedPlayers l ++ ids) l))).
Proof. apply onLobby_keepsLobbies. intros l. repeat split. Qed.

#[global] Hint Resolve lobbies_delete_keepsLobbies emit_keepsLobbies
  expiry_keepsLobbies invite_keepsLobbies : within.

Lemma forEach_within {A} (R : State -> State -> list Emission -> Prop) `{!Closed R}
    (f : A -> M State unit) (xs : list A) :
  (forall x, within R (f x)) -> within R (forEach f xs).
Proof.
  intros Hf. induction xs as [|x xs IH]; cbn [forEach].
  - apply within_ret; assumption.
  - apply within_bind; [assumption|apply Hf|intros _; exact IH].
Qed.

Lemma cleanUpLobby_keepsLobbies cfg now ref :
  within keepsLobbies (cleanUpLobby cfg now ref).
Proof. unfold cleanUpLobby. within_solve. Qed.

Lemma cleanUpLobbies_keepsLobbies cfg now : within keepsLobbies (cleanUpLobbies cfg now).
Proof.
  unfold cleanUpLobbies. apply within_bind; [typeclasses eauto|within_solve|].
  intros st. apply forEach_within; [typeclasses eauto|].
  intros ref. apply cleanUpLobby_keepsLobbies.
Qed.

Lemma inviteToLobby_keepsLobbies client userId :
  within keepsLobbies (inviteToLobby client userId).
Proof. unfold inviteToLobby. within_solve. Qed.

Lemma inviteToLobbyThroughChat_keepsLobbies user invitedUserId :
  within keepsLobbies (inviteToLobbyThroughChat user invitedUserId).
Proof. unfold inviteToLobbyThroughChat. within_solve. Qed.

Lemma joinLobby_cases client lobbyId st :
  (exists e, joinLobby client lobbyId st = (Throw e, st, []))
  \/ exists lobby,
       dataLobby st !! sock_id client = None
       /\ (client ∉ playerQueue st)
       /\ lobbies_get st lobbyId = Some lobby
       /\ (mode lobby = Custom -> data_id client ∈ invitedPlayers lobby)
       /\ (length (players lobby) < MAX_PLAYERS)%nat
       /\ (sock_id client ∉ sock_id <$> players lobby)
       /\ joinLobby client lobbyId st =
            (Ok tt,
             set_dataLobby (<[sock_id client := lobbyId]> (dataLobby st))
               (set_heap
                  (<[lobbyId := set_players (players lobby ++ [client]) lobby]>
                     (heap st)) st),
             []).
Proof.
  unfold joinLobby. erewrite bind_Ok by reflexivity.
  case_bool_decide as Hseat; [left; eexists; reflexivity|].
  case_bool_decide as Hqueue; [left; eexists; reflexivity|].
  destruct (lobbies_get st lobbyId) as [lobby|] eqn:Eget; [|left; eexists; reflexivity].
  destruct (_ && _) eqn:Einv; [left; eexists; reflexivity|].
  assert (Hinv : mode lobby = Custom -> data_id client ∈ invitedPlayers lobby).
  { intros Hm. apply andb_false_iff in Einv as [Einv|Einv].
    - apply bool_decide_eq_false in Einv. contradiction.
    - apply negb_false_iff, bool_decide_eq_true in Einv. exact Einv. }
  clear Einv.
  destruct (bool_decide (MAX_PLAYERS <= length (players lobby))%nat) eqn:Hfull;
    [left; eexists; reflexivity|].
  apply bool_decide_eq_false in Hfull.
  destruct (players_has _ _) eqn:Ehas; [left; eexists; reflexivity|].
  right. exists lobby.
  split; [destruct (dataLobby st !! sock_id client) eqn:E; [|reflexivity];
          exfalso; apply Hseat; eexists; reflexivity|].
  split; [exact Hqueue|]. split; [reflexivity|]. split; [exact Hinv|].
  split; [lia|]. unfold players_has in Ehas. apply bool_decide_eq_false in Ehas.
  split; [exact Ehas|].
  rewrite (addPlayer_seated _ _ _ _ (lobbies_get_heap _ _ _ Eget)).
  unfold seat. rewrite bool_decide_eq_false_2 by exact Ehas. reflexivity.
Qed.

Lemma leave_cases client st :
  (leaveLobby client st = (Ok tt, st, [])
   /\ exists e, leaveLobbyOrThrow client st = (Throw e, st, []))
  \/ exists ref lobby,
       dataLobby st !! sock_id client = Some ref
       /\ lobbies_get st ref = Some lobby
       /\ players_has lobby (sock_id client) = true
       /\ leaveLobby client st = leaveSeat ref client st
       /\ leaveLobbyOrThrow client st = leaveSeat ref client st.
Proof.
  unfold leaveLobby, leaveLobbyOrThrow. erewrite !bind_Ok by reflexivity.
  destruct (dataLobby st !! sock_id client) as [ref|] eqn:Eref;
    [|left; split; [|eexists]; reflexivity].
  destruct (lobbies_get st ref) as [lobby|] eqn:Eget;
    [|left; split; [|eexists]; reflexivity].
  destruct (players_has _ _) eqn:Ehas; cbn [negb];
    [|left; split; [|eexists]; reflexivity].
  right. exists ref, lobby. repeat split; try assumption.
  - destruct (leaveSeat ref client st) as [[? ?] ?]. cbn. reflexivity.
  - destruct (leaveSeat ref client st) as [[? ?] ?]. cbn. reflexivity.
Qed.

Lemma addPlayerToQueue_cases cfg f client st :
  (exists e, addPlayerToQueue cfg f client st = (Throw e, st, []))
  \/ (dataLobby st !! sock_id client = None
      /\ (client ∉ playerQueue st)
      /\ addPlayerToQueue cfg f client st =
           tryToCreateLobby cfg f (set_playerQueue (playerQueue st ++ [client]) st)).
Proof.
  unfold addPlayerToQueue. erewrite bind_Ok by reflexivity.
  case_bool_decide as Hseat; [left; eexists; reflexivity|].
  case_bool_decide as Hqueue; [left; eexists; reflexivity|].
  right.
  split; [destruct (dataLobby st !! sock_id client) eqn:E; [|reflexivity];
          exfalso; apply Hseat; eexists; reflexivity|].
  split; [exact Hqueue|].
  erewrite bind_Ok by reflexivity.
  destruct (tryToCreateLobby _ _ _) as [[? ?] ?]. reflexivity.
Qed.

Lemma occur_Effect cfg ev cs st :
  (forall c, c ∈ clientsOf ev -> c ∈ cs) ->
  Effect cs st (occur cfg ev st).1.
Proof.
  intros Hcs.
  assert (Hkept : forall (c : M State unit), within keepsLobbies c ->
            Effect cs st (let '(_, st1, out) := c st in (st1, out)).1).
  { intros c Hc. specialize (Hc st). destruct (c st) as [[r st1] o].
    apply effect_kept. exact Hc. }
  destruct ev as [[f client|client lobbyId|client|client|client userId|user invited
                 |f client|client|client|now]|ref k act]; cbn [occur perform].
  - assert (Hin : client ∈ cs) by (apply Hcs; cbn; apply list_elem_of_here).
    destruct (dataLobby st !! sock_id client) as [r|] eqn:Eref.
    { destruct (createLobby_rejected cfg f client st) as (msg & E);
        [left; eexists; exact Eref|].
      erewrite bind_Throw by exact E. apply effect_kept, lobbiesKept_refl. }
    destruct (decide (client ∈ playerQueue st)) as [Hq|Hq].
    { destruct (createLobby_rejected cfg f client st) as (msg & E);
        [right; exact Hq|].
      erewrite bind_Throw by exact E. apply effect_kept, lobbiesKept_refl. }
    erewrite bind_Ok by (apply createLobby_result; assumption).
    cbn. apply effect_created; assumption.
  - assert (Hin : client ∈ cs) by (apply Hcs; cbn; apply list_elem_of_here).
    destruct (joinLobby_cases client lobbyId st)
      as [(e & ->)|(lobby & H1 & H2 & H3 & _ & H5 & _ & ->)].
    + apply effect_kept, lobbiesKept_refl.
    + cbn. apply effect_joined; try assumption. eapply lobbies_get_heap, H3.
  - destruct (leave_cases client st) as [(_ & e & ->)|(r & lobby & H1 & H2 & _ & _ & ->)].
    + apply effect_kept, lobbiesKept_refl.
    + pose proof (lobbies_get_heap _ _ _ H2) as Hh.
      rewrite (leaveSeat_departed _ _ _ _ Hh). cbn. apply effect_left; assumption.
  - destruct (leave_cases client st) as [(-> & _)|(r & lobby & H1 & H2 & _ & -> & _)].
    + apply effect_kept, lobbiesKept_refl.
    + pose proof (lobbies_get_heap _ _ _ H2) as Hh.
      rewrite (leaveSeat_departed _ _ _ _ Hh). cbn. apply effect_left; assumption.
  - apply Hkept, inviteToLobby_keepsLobbies.
  - apply Hkept. apply within_bind; [typeclasses eauto| |intros; within_solve].
    apply inviteToLobbyThroughChat_keepsLobbies.
  - assert (Hin : client ∈ cs) by (apply Hcs; cbn; apply list_elem_of_here).
    destruct (addPlayerToQueue_cases cfg f client st) as [(e & ->)|(H1 & H2 & ->)].
    + apply effect_kept, lobbiesKept_refl.
    + set (st1 := set_playerQueue (playerQueue st ++ [client]) st).
      destruct (decide (length (playerQueue st1) < MAX_PLAYERS)%nat) as [Hlt|Hge].
      * rewrite tryToCreateLobby_short by exact Hlt. cbn.
        apply effect_queued; assumption.
      * rewrite tryToCreateLobby_full by lia. cbn.
        apply (effect_matched cs st cfg f client); [assumption|cbn in Hge; lia].
  - unfold removePlayerFromQueueOrThrow. erewrite bind_Ok by reflexivity.
    destruct (findIndex _ _); cbn.
    + apply effect_dequeued.
    + apply effect_kept, lobbiesKept_refl.
  - unfold removePlayerFromQueue. erewrite bind_Ok by reflexivity.
    destruct (findIndex _ _); cbn.
    + apply effect_dequeued.
    + apply effect_kept, lobbiesKept_refl.
  - apply Hkept, cleanUpLobbies_keepsLobbies.
  - destruct (heap st !! ref) as [l|] eqn:El; [|apply effect_kept, lobbiesKept_refl].
    destruct (forced act) eqn:Eact; [apply effect_kept, lobbiesKept_refl|].
    destruct (step cfg _ act) as [[m out]|] eqn:Estep;
      [|apply effect_kept, lobbiesKept_refl].
    cbn. apply effect_kept. eapply lobbiesKept_update; [exact El|].
    eapply engineOnly_seatsKept.
    apply (step_engineOnly cfg _ act m out Eact Estep).
Qed.

(** ** Invariants of the manager *)

Lemma elem_of_seat p c ps : p ∈ seat c ps -> p = c \/ p ∈ ps.
Proof.
  unfold seat. case_bool_decide.
  - intros Hp. apply list_elem_of_fmap in Hp as (q & -> & Hq).
    case_bool_decide; [left; reflexivity|right; exact Hq].
  - intros Hp. apply elem_of_app in Hp as [Hp|Hp]; [right; exact Hp|left].
    apply list_elem_of_singleton in Hp. exact Hp.
Qed.

Lemma length_seat c ps : (length (seat c ps) <= S (length ps))%nat.
Proof.
  unfold seat. case_bool_decide.
  - rewrite length_fmap. lia.
  - rewrite length_app. cbn. lia.
Qed.

Lemma elem_of_foldl_seat cs : forall ps p,
  p ∈ foldl (fun ps c => seat c ps) ps cs -> p ∈ ps \/ p ∈ cs.
Proof.
  induction cs as [|c cs IH]; intros ps p Hp; cbn in Hp; [left; exact Hp|].
  apply IH in Hp as [Hp|Hp].
  - apply elem_of_seat in Hp as [->|Hp]; [right; apply list_elem_of_here|left; exact Hp].
  - right. apply list_elem_of_further, Hp.
Qed.

Lemma length_foldl_seat cs : forall ps,
  (length (foldl (fun ps c => seat c ps) ps cs) <= length ps + length cs)%nat.
Proof.
  induction cs as [|c cs IH]; intros ps; cbn; [lia|].
  specialize (IH (seat c ps)). pose proof (length_seat c ps). lia.
Qed.

Lemma lookup_foldl_backref cs (v : string) : forall (d : gmap string string) k,
  foldl (fun d c => <[sock_id c := v]> d) d cs !! k =
    if bool_decide (k ∈ sock_id <$> cs) then Some v else d !! k.
Proof.
  induction cs as [|c cs IH]; intros d k; cbn.
  - rewrite bool_decide_eq_false_2 by apply not_elem_of_nil. reflexivity.
  - rewrite IH. destruct (decide (k ∈ sock_id <$> cs)) as [Hin|Hout].
    + rewrite !bool_decide_eq_true_2; [reflexivity| |exact Hin].
      apply list_elem_of_further, Hin.
    + rewrite (bool_decide_eq_false_2 _ Hout).
      destruct (decide (k = sock_id c)) as [->|Hne].
      * rewrite lookup_insert_eq, bool_decide_eq_true_2; [reflexivity|].
        apply list_elem_of_here.
      * rewrite lookup_insert_ne by congruence.
        rewrite bool_decide_eq_false_2; [reflexivity|].
        intros Hin. apply elem_of_cons in Hin as [Hin|Hin]; contradiction.
Qed.

Lemma lobbiesKept_lookup st st' ref l' :
  lobbiesKept st st' -> heap st' !! ref = Some l' ->
  exists l, heap st !! ref = Some l /\ seatsKept l l'.
Proof.
  intros (_ & _ & _ & _ & Hh) Hl'. specialize (Hh ref). rewrite Hl' in Hh.
  inversion Hh; subst. eexists. split; [reflexivity|assumption].
Qed.

Lemma Effect_seatsBounded cs st st' :
  seatsBounded st -> Effect cs st st' -> seatsBounded st'.
Proof.
  intros Hb Heff ref l Hl.
  destruct Heff as [st' Hkept|cfg f m client _ _ _|client r lobby _ _ _ Hlobby Hlen
                   |client r lobby _ Hlobby|client _ _ _|cfg f client _ _|index];
    cbn in Hl.
  - destruct (lobbiesKept_lookup _ _ _ _ Hkept Hl) as (l0 & Hl0 & Hp & _).
    rewrite Hp. eapply Hb, Hl0.
  - destruct (decide (ref = fresh_id f)) as [->|Hne].
    + rewrite lookup_insert_eq in Hl. injection Hl as <-. cbn. unfold MAX_PLAYERS. lia.
    + rewrite lookup_insert_ne in Hl by congruence. eapply Hb, Hl.
  - destruct (decide (ref = r)) as [->|Hne].
    + rewrite lookup_insert_eq in Hl. injection Hl as <-. cbn.
      rewrite length_app. cbn. lia.
    + rewrite lookup_insert_ne in Hl by congruence. eapply Hb, Hl.
  - destruct (decide (ref = r)) as [->|Hne].
    + rewrite lookup_insert_eq in Hl. injection Hl as <-. cbn.
      unfold unseat. etrans; [apply length_filter|]. eapply Hb, Hlobby.
    + rewrite lookup_insert_ne in Hl by congruence. eapply Hb, Hl.
  - eapply Hb, Hl.
  - destruct (decide (ref = fresh_id f)) as [->|Hne].
    + rewrite lookup_insert_eq in Hl. injection Hl as <-. cbn.
      etrans; [apply length_foldl_seat|]. rewrite length_take.
      unfold MAX_PLAYERS. cbn [length]. lia.
    + rewrite lookup_insert_ne in Hl by congruence. eapply Hb, Hl.
  - eapply Hb, Hl.
Qed.

Lemma Effect_queueShort cs st st' :
  queueShort st -> Effect cs st st' -> queueShort st'.
Proof.
  unfold queueShort. intros Hq Heff.
  destruct Heff as [st' Hkept|cfg f m client _ _ _|client r lobby _ _ _ Hlobby Hlen
                   |client r lobby _ Hlobby|client _ _ H|cfg f client _ _|index];
    cbn.
  - destruct Hkept as (-> & _). exact Hq.
  - exact Hq.
  - exact Hq.
  - exact Hq.
  - exact H.
  - rewrite length_drop, length_app. cbn. lia.
  - pose proof (sublist_length _ _ (sublist_delete (playerQueue st) index)). lia.
Qed.

Lemma elem_of_take_inv {A} (x : A) n l : x ∈ take n l -> x ∈ l.
Proof. intros H. apply elem_of_take in H as (i & Hi & _). eapply list_elem_of_lookup_2, Hi. Qed.

Lemma Effect_seatedHere cs st st' :
  seatedHere st -> queuedFree st -> Effect cs st st' -> seatedHere st'.
Proof.
  intros Hs Hq Heff ref l p Hl Hp.
  destruct Heff as [st' Hkept|cfg f m client _ Hfree _|client r lobby _ Hfree _ Hlobby Hlen
                   |client r lobby Href Hlobby|client _ _ _|cfg f client Hfree _|index];
    cbn in Hl |- *.
  - destruct (lobbiesKept_lookup _ _ _ _ Hkept Hl) as (l0 & Hl0 & Hp0 & _).
    destruct Hkept as (_ & -> & _). rewrite Hp0 in Hp. eapply Hs; eassumption.
  - destruct (decide (ref = fresh_id f)) as [->|Hne].
    + rewrite lookup_insert_eq in Hl. injection Hl as <-. cbn in Hp.
      apply list_elem_of_singleton in Hp as ->. apply lookup_insert_eq.
    + rewrite lookup_insert_ne in Hl by congruence.
      pose proof (Hs _ _ _ Hl Hp) as Hb.
      rewrite lookup_insert_ne; [exact Hb|]. intros E. rewrite <- E in Hb. congruence.
  - destruct (decide (ref = r)) as [->|Hne].
    + rewrite lookup_insert_eq in Hl. injection Hl as <-. cbn in Hp.
      apply elem_of_app in Hp as [Hp|Hp].
      * pose proof (Hs _ _ _ Hlobby Hp) as Hb.
        rewrite lookup_insert_ne; [exact Hb|]. intros E. rewrite <- E in Hb. congruence.
      * apply list_elem_of_singleton in Hp as ->. apply lookup_insert_eq.
    + rewrite lookup_insert_ne in Hl by congruence.
      pose proof (Hs _ _ _ Hl Hp) as Hb.
      rewrite lookup_insert_ne; [exact Hb|]. intros E. rewrite <- E in Hb. congruence.
  - destruct (decide (ref = r)) as [->|Hne].
    + rewrite lookup_insert_eq in Hl. injection Hl as <-. cbn in Hp.
      apply list_elem_of_filter in Hp as (Hid & Hp).
      rewrite lookup_delete_ne by congruence. eapply Hs; eassumption.
    + rewrite lookup_insert_ne in Hl by congruence.
      pose proof (Hs _ _ _ Hl Hp) as Hb.
      rewrite lookup_delete_ne; [exact Hb|]. intros E. rewrite <- E in Hb. congruence.
  - eapply Hs; eassumption.
  - rewrite lookup_foldl_backref.
    destruct (decide (ref = fresh_id f)) as [->|Hne].
    + rewrite lookup_insert_eq in Hl. injection Hl as <-. cbn in Hp.
      apply elem_of_foldl_seat in Hp as [Hp|Hp]; [apply elem_of_nil in Hp; contradiction|].
      rewrite bool_decide_eq_true_2; [reflexivity|].
      apply list_elem_of_fmap. exists p. split; [reflexivity|exact Hp].
    + rewrite lookup_insert_ne in Hl by congruence.
      pose proof (Hs _ _ _ Hl Hp) as Hb.
      rewrite bool_decide_eq_false_2; [exact Hb|].
      intros Hin. apply list_elem_of_fmap in Hin as (c & Hc & Hin).
      apply elem_of_take_inv in Hin. rewrite Hc in Hb.
      apply elem_of_app in Hin as [Hin|Hin].
      * rewrite (Hq _ Hin) in Hb. discriminate.
      * apply list_elem_of_singleton in Hin as ->. congruence.
  - eapply Hs; eassumption.
Qed.

Lemma Effect_queuedFree cs st st' :
  identified cs -> queueKnown cs st -> queueShort st -> queuedFree st ->
  Effect cs st st' -> queuedFree st'.
Proof.
  intros Hid Hk Hshort Hq Heff c Hc.
  destruct Heff as [st' Hkept|cfg f m client Hin Hfree Hout|client r lobby Hin Hfree Hout _ _
                   |client r lobby Href Hlobby|client _ Hfree _|cfg f client Hfree _|index];
    cbn in Hc |- *.
  - destruct Hkept as (Eq & -> & _). rewrite Eq in Hc. apply Hq, Hc.
  - rewrite lookup_insert_ne; [apply Hq, Hc|].
    intros E. apply Hout. rewrite (Hid client c Hin (Hk _ Hc) E). exact Hc.
  - rewrite lookup_insert_ne; [apply Hq, Hc|].
    intros E. apply Hout. rewrite (Hid client c Hin (Hk _ Hc) E). exact Hc.
  - destruct (decide (sock_id client = sock_id c)) as [E|E].
    + rewrite E. apply lookup_delete_eq.
    + rewrite lookup_delete_ne by exact E. apply Hq, Hc.
  - apply elem_of_app in Hc as [Hc|Hc]; [apply Hq, Hc|].
    apply list_elem_of_singleton in Hc as ->. exact Hfree.
  - rewrite drop_ge in Hc; [apply elem_of_nil in Hc; contradiction|].
    unfold queueShort, MAX_PLAYERS in *. rewrite length_app. cbn [length]. lia.
  - apply Hq. eapply list_elem_of_delete_inv, Hc.
Qed.

Lemma Effect_queueKnown cs st st' :
  queueShort st -> queueKnown cs st -> Effect cs st st' -> queueKnown cs st'.
Proof.
  intros Hshort Hk Heff c Hc.
  destruct Heff as [st' Hkept|cfg f m client Hin Hfree Hout|client r lobby Hin Hfree Hout _ _
                   |client r lobby Href Hlobby|client Hin Hfree _|cfg f client Hfree _|index];
    cbn in Hc.
  - destruct Hkept as (Eq & _). rewrite Eq in Hc. apply Hk, Hc.
  - apply Hk, Hc.
  - apply Hk, Hc.
  - apply Hk, Hc.
  - apply elem_of_app in Hc as [Hc|Hc]; [apply Hk, Hc|].
    apply list_elem_of_singleton in Hc as ->. exact Hin.
  - rewrite drop_ge in Hc; [apply elem_of_nil in Hc; contradiction|].
    unfold queueShort, MAX_PLAYERS in *. rewrite length_app. cbn [length]. lia.
  - apply Hk. eapply list_elem_of_delete_inv, Hc.
Qed.

Lemma registry_set (ids : list string) id :
  NoDup ids -> NoDup (if bool_decide (id ∈ ids) then ids else ids ++ [id]).
Proof.
  intros Hnd. case_bool_decide as Hin; [exact Hnd|].
  apply NoDup_app. split; [exact Hnd|]. split; [|apply NoDup_singleton].
  intros x Hx Hx'. apply list_elem_of_singleton in Hx' as ->. contradiction.
Qed.

Lemma registry_set_elem (ids : list string) id x :
  x ∈ (if bool_decide (id ∈ ids) then ids else ids ++ [id]) -> x = id \/ x ∈ ids.
Proof.
  case_bool_decide; [right; assumption|]. intros Hx.
  apply elem_of_app in Hx as [Hx|Hx]; [right; exact Hx|left].
  apply list_elem_of_singleton in Hx. exact Hx.
Qed.

Lemma Effect_registryOK cs st st' :
  registryOK st -> Effect cs st st' -> registryOK st'.
Proof.
  intros (Hkey & Hnd & Hreg) Heff.
  destruct Heff as [st' Hkept|cfg f m client Hin Hfree Hout|client r lobby Hin Hfree Hout Hl _
                   |client r lobby Hback Hl|client Hin Hfree _|cfg f client Hfree _|index];
    (split; [|split]); cbn.
  - intros ref l' Hl'.
    destruct (lobbiesKept_lookup _ _ _ _ Hkept Hl') as (l0 & Hl0 & _ & -> & _).
    eapply Hkey, Hl0.
  - destruct Hkept as (_ & _ & _ & Hsub & _). eapply sublist_NoDup; eassumption.
  - intros ref Href. destruct Hkept as (_ & _ & _ & Hsub & Hh).
    assert (Hold : ref ∈ lobbies st) by (eapply elem_of_sublist; eassumption).
    destruct (Hreg _ Hold) as (l & Hl). specialize (Hh ref). rewrite Hl in Hh.
    inversion Hh. eexists; reflexivity.
  - intros ref l Hl. destruct (decide (ref = fresh_id f)) as [->|Hne].
    + rewrite lookup_insert_eq in Hl. injection Hl as <-. reflexivity.
    + rewrite lookup_insert_ne in Hl by congruence. eapply Hkey, Hl.
  - apply registry_set, Hnd.
  - intros ref Href. apply lookup_insert_is_Some'.
    apply registry_set_elem in Href as [->|Href]; [left; reflexivity|right; auto].
  - intros ref l Hl'. destruct (decide (ref = r)) as [->|Hne].
    + rewrite lookup_insert_eq in Hl'. injection Hl' as <-. cbn. eapply Hkey, Hl.
    + rewrite lookup_insert_ne in Hl' by congruence. eapply Hkey, Hl'.
  - exact Hnd.
  - intros ref Href. apply lookup_insert_is_Some'. right. auto.
  - intros ref l Hl'. destruct (decide (ref = r)) as [->|Hne].
    + rewrite lookup_insert_eq in Hl'. injection Hl' as <-. cbn. eapply Hkey, Hl.
    + rewrite lookup_insert_ne in Hl' by congruence. eapply Hkey, Hl'.
  - case_bool_decide; [apply NoDup_filter|]; exact Hnd.
  - intros ref Href. apply lookup_insert_is_Some'. right. apply Hreg.
    case_bool_decide; [|exact Href]. apply list_elem_of_filter in Href as (_ & Href).
    exact Href.
  - exact Hkey.
  - exact Hnd.
  - exact Hreg.
  - intros ref l Hl. destruct (decide (ref = fresh_id f)) as [->|Hne].
    + rewrite lookup_insert_eq in Hl. injection Hl as <-. reflexivity.
    + rewrite lookup_insert_ne in Hl by congruence. eapply Hkey, Hl.
  - apply registry_set, Hnd.
  - intros ref Href. apply lookup_insert_is_Some'.
    apply registry_set_elem in Href as [->|Href]; [left; reflexivity|right; auto].
  - exact Hkey.
  - exact Hnd.
  - exact Hreg.
Qed.

Lemma Effect_Consistent cs st st' :
  identified cs -> Consistent cs st -> Effect cs st st' -> Consistent cs st'.
Proof.
  intros Hid (H1 & H2 & H3 & H4 & H5 & H6) Heff.
  split; [eapply Effect_seatsBounded; eassumption|].
  split; [eapply Effect_queueShort; eassumption|].
  split; [eapply Effect_seatedHere; eassumption|].
  split; [eapply Effect_queuedFree; eassumption|].
  split; [eapply Effect_queueKnown; eassumption|].
  eapply Effect_registryOK; eassumption.
Qed.

Lemma emptyManager_Consistent cs users : Consistent cs (emptyManager users).
Proof.
  split; [|split; [|split; [|split; [|split; [|split; [|split]]]]]].
  - intros ref l Hl. cbn in Hl. rewrite lookup_empty in Hl. discriminate.
  - unfold queueShort, MAX_PLAYERS. cbn. lia.
  - intros ref l p Hl. cbn in Hl. rewrite lookup_empty in Hl. discriminate.
  - intros c Hc. apply elem_of_nil in Hc. contradiction.
  - intros c Hc. apply elem_of_nil in Hc. contradiction.
  - intros ref l Hl. cbn in Hl. rewrite lookup_empty in Hl. discriminate.
  - apply NoDup_nil_2.
  - intros ref Href. apply elem_of_nil in Href. contradiction.
Qed.

Lemma serve_Consistent cfg cs evs : forall st,
  identified cs ->
  (forall ev c, ev ∈ evs -> c ∈ clientsOf ev -> c ∈ cs) ->
  Consistent cs st -> Consistent cs (serve cfg evs st).1.
Proof.
  induction evs as [|ev evs IH]; intros st Hid Hcs Hc; [exact Hc|].
  cbn [serve].
  pose proof (occur_Effect cfg ev cs st
                (fun c Hin => Hcs ev c (list_elem_of_here _ _) Hin)) as Heff.
  destruct (occur cfg ev st) as [st1 out1]. cbn in Heff.
  specialize (IH st1 Hid (fun ev' c Hev => Hcs ev' c (list_elem_of_further _ _ _ Hev))
                (Effect_Consistent _ _ _ Hid Hc Heff)).
  destruct (serve cfg evs st1) as [st2 out2]. exact IH.
Qed.

(** X15: from the manager as it is constructed, whatever requests are served
    and whatever steps the engines take, no lobby ever holds more than
    [MAX_PLAYERS] seated players. *)
Theorem manager_seats_bounded cfg users evs ref l :
  heap (serve cfg evs (emptyManager users)).1 !! ref = Some l ->
  (length (players l) <= MAX_PLAYERS)%nat.
Proof.
  revert ref l. change (seatsBounded (serve cfg evs (emptyManager users)).1).
  assert (H : forall st, seatsBounded st -> seatsBounded (serve cfg evs st).1).
  { induction evs as [|ev evs IH]; intros st Hb; [exact Hb|].
    cbn [serve].
    pose proof (occur_Effect cfg ev (clientsOf ev) st (fun c Hc => Hc)) as Heff.
    destruct (occur cfg ev st) as [st1 out1]. cbn in Heff.
    specialize (IH st1 (Effect_seatsBounded _ _ _ Hb Heff)).
    destruct (serve cfg evs st1) as [st2 out2]. exact IH. }
  apply H. apply (emptyManager_Consistent []).
Qed.

Lemma manager_seats_bounded_witness :
  exists l,
    heap (serve Sample.cfg SampleRun.events (emptyManager SampleRun.users)).1
      !! "lobby-4" = Some l
    /\ players l = [Sample.carol; Sample.frank]
    /\ (length (players l) <= MAX_PLAYERS)%nat.
Proof.
  destruct (heap (serve Sample.cfg SampleRun.events (emptyManager SampleRun.users)).1
              !! "lobby-4") as [l|] eqn:Hl; [|vm_compute in Hl; discriminate].
  exists l. split; [reflexivity|]. split.
  - vm_compute in Hl. injection Hl as <-. reflexivity.
  - exact (manager_seats_bounded Sample.cfg SampleRun.users SampleRun.events
             "lobby-4" l Hl).
Defined.

Lemma serve_queueShort cfg evs : forall st,
  queueShort st -> queueShort (serve cfg evs st).1.
Proof.
  induction evs as [|ev evs IH]; intros st Hb; [exact Hb|].
  cbn [serve].
  pose proof (occur_Effect cfg ev (clientsOf ev) st (fun c Hc => Hc)) as Heff.
  destruct (occur cfg ev st) as [st1 out1]. cbn in Heff.
  specialize (IH st1 (Effect_queueShort _ _ _ Hb Heff)).
  destruct (serve cfg evs st1) as [st2 out2]. exact IH.
Qed.

Lemma seat_ids c ps :
  sock_id <$> seat c ps =
    if bool_decide (sock_id c ∈ sock_id <$> ps) then sock_id <$> ps
    else (sock_id <$> ps) ++ [sock_id c].
Proof.
  unfold seat. case_bool_decide.
  - rewrite <- list_fmap_compose. apply list_fmap_ext. intros i p _. cbn.
    case_bool_decide; congruence.
  - rewrite fmap_app. reflexivity.
Qed.

Lemma foldl_seat_ids cs : forall ps k,
  k ∈ sock_id <$> ps \/ k ∈ sock_id <$> cs ->
  k ∈ sock_id <$> foldl (fun ps c => seat c ps) ps cs.
Proof.
  induction cs as [|c cs IH]; intros ps k H; cbn.
  - destruct H as [H|H]; [exact H|]. apply elem_of_nil in H. contradiction.
  - apply IH. rewrite seat_ids. cbn in H. rewrite elem_of_cons in H.
    case_bool_decide as Hin.
    + destruct H as [H|[->|H]]; auto.
    + rewrite elem_of_app, list_elem_of_singleton. tauto.
Qed.

(** The lobby of a drain seats the socket ids of the connections it takes
    from the queue. *)
Lemma tryToCreateLobby_seats cfg f st p :
  (MAX_PLAYERS <= length (playerQueue st))%nat ->
  p ∈ take MAX_PLAYERS (playerQueue st) ->
  hasSeat (tryToCreateLobby cfg f st).1.2 p.
Proof.
  intros Hfull Hp. rewrite (tryToCreateLobby_full cfg f st Hfull). cbn.
  exists (fresh_id f). eexists. split; [|split].
  - cbn. case_bool_decide as Hin; [exact Hin|].
    apply elem_of_app. right. apply list_elem_of_singleton. reflexivity.
  - cbn. apply lookup_insert_eq.
  - cbn. apply foldl_seat_ids. right. apply list_elem_of_fmap. exists p. auto.
Qed.

Lemma delete_or_found {A} (l : list A) (i : nat) (q p : A) :
  l !! i = Some q -> p ∈ l -> p ∈ delete i l \/ p = q.
Proof.
  intros Hi Hp. rewrite <- (take_drop_middle l i q Hi) in Hp.
  rewrite delete_take_drop.
  rewrite elem_of_app, elem_of_cons in Hp. rewrite elem_of_app. tauto.
Qed.

Lemma findIndex_found client queue index :
  findIndex client queue = Some index ->
  exists q, queue !! index = Some q /\ sock_id q = sock_id client.
Proof.
  unfold findIndex. intros H.
  destruct (list_find _ queue) as [[i q]|] eqn:E; [|discriminate H].
  injection H as <-. apply list_find_Some in E as (Hq & HP & _).
  exists q. split; assumption.
Qed.

(** What an event does to a connection of the queue. *)
Lemma occur_queue cfg ev st p :
  queueShort st ->
  p ∈ playerQueue st ->
  p ∈ playerQueue (occur cfg ev st).1
  \/ hasSeat (occur cfg ev st).1 p
  \/ leavesQueue ev p.
Proof.
  intros Hshort Hp.
  assert (Hkept : forall (c : M State unit), within keepsLobbies c ->
            p ∈ playerQueue (let '(_, st1, out) := c st in (st1, out)).1).
  { intros c Hc. specialize (Hc st). destruct (c st) as [[r st1] o].
    destruct Hc as (Hq & _). cbn in *. rewrite Hq. exact Hp. }
  destruct ev as [[f client|client lobbyId|client|client|client userId|user invited
                 |f client|client|client|now]|ref k act]; cbn [occur perform].
  - left. destruct (dataLobby st !! sock_id client) as [r|] eqn:Eref.
    { destruct (createLobby_rejected cfg f client st) as (msg & E);
        [left; eexists; exact Eref|].
      erewrite bind_Throw by exact E. exact Hp. }
    destruct (decide (client ∈ playerQueue st)) as [Hq|Hq].
    { destruct (createLobby_rejected cfg f client st) as (msg & E);
        [right; exact Hq|].
      erewrite bind_Throw by exact E. exact Hp. }
    erewrite bind_Ok by (apply createLobby_result; assumption). exact Hp.
  - left. destruct (joinLobby_cases client lobbyId st)
      as [(e & ->)|(lobby & _ & _ & _ & _ & _ & _ & ->)]; exact Hp.
  - left. destruct (leave_cases client st)
      as [(_ & e & ->)|(r & lobby & H1 & H2 & _ & _ & ->)]; [exact Hp|].
    rewrite (leaveSeat_departed _ _ _ _ (lobbies_get_heap _ _ _ H2)). exact Hp.
  - left. destruct (leave_cases client st)
      as [(-> & _)|(r & lobby & H1 & H2 & _ & -> & _)]; [exact Hp|].
    rewrite (leaveSeat_departed _ _ _ _ (lobbies_get_heap _ _ _ H2)). exact Hp.
  - left. apply Hkept, inviteToLobby_keepsLobbies.
  - left. apply Hkept. apply within_bind; [typeclasses eauto| |intros; within_solve].
    apply inviteToLobbyThroughChat_keepsLobbies.
  - destruct (addPlayerToQueue_cases cfg f client st) as [(e & ->)|(_ & _ & ->)];
      [left; exact Hp|].
    set (st1 := set_playerQueue (playerQueue st ++ [client]) st).
    destruct (decide (length (playerQueue st1) < MAX_PLAYERS)%nat) as [Hlt|Hge].
    + left. rewrite tryToCreateLobby_short by exact Hlt. cbn.
      apply elem_of_app. left. exact Hp.
    + right. left.
      pose proof (tryToCreateLobby_seats cfg f st1 p) as Hseat.
      assert (Hfull : (MAX_PLAYERS <= length (playerQueue st1))%nat) by lia.
      destruct (tryToCreateLobby cfg f st1) as [[r st2] o]. apply Hseat; [exact Hfull|].
      unfold st1. cbn. rewrite take_ge.
      * apply elem_of_app. left. exact Hp.
      * rewrite length_app. unfold queueShort, MAX_PLAYERS in *. cbn. lia.
  - unfold removePlayerFromQueueOrThrow. erewrite bind_Ok by reflexivity.
    destruct (findIndex client (playerQueue st)) as [index|] eqn:E; cbn;
      [|left; exact Hp].
    destruct (findIndex_found _ _ _ E) as (q & Hq & Hid).
    destruct (delete_or_found _ _ _ _ Hq Hp) as [H| ->]; [left; exact H|].
    right. right. symmetry. exact Hid.
  - unfold removePlayerFromQueue. erewrite bind_Ok by reflexivity.
    destruct (findIndex client (playerQueue st)) as [index|] eqn:E; cbn;
      [|left; exact Hp].
    destruct (findIndex_found _ _ _ E) as (q & Hq & Hid).
    destruct (delete_or_found _ _ _ _ Hq Hp) as [H| ->]; [left; exact H|].
    right. right. symmetry. exact Hid.
  - left. apply Hkept, cleanUpLobbies_keepsLobbies.
  - left. destruct (heap st !! ref) as [l|]; [|exact Hp].
    destruct (forced act); [exact Hp|].
    destruct (step cfg _ act) as [[m out]|]; exact Hp.
Qed.

(** A connection that [addPlayerToQueue] accepted waits in the queue or has
    a seat. *)
Lemma addPlayerToQueue_placed cfg f client st :
  queueShort st ->
  (addPlayerToQueue cfg f client st).1.1 = Ok tt ->
  client ∈ playerQueue (addPlayerToQueue cfg f client st).1.2
  \/ hasSeat (addPlayerToQueue cfg f client st).1.2 client.
Proof.
  intros Hshort Hok.
  destruct (addPlayerToQueue_cases cfg f client st) as [(e & E)|(_ & _ & E)].
  { rewrite E in Hok. discriminate Hok. }
  rewrite E. clear E Hok.
  set (st1 := set_playerQueue (playerQueue st ++ [client]) st).
  destruct (decide (length (playerQueue st1) < MAX_PLAYERS)%nat) as [Hlt|Hge].
  - left. rewrite tryToCreateLobby_short by exact Hlt. cbn.
    apply elem_of_app. right. apply list_elem_of_singleton. reflexivity.
  - right. apply tryToCreateLobby_seats; [lia|].
    unfold st1. cbn. rewrite take_ge.
    + apply elem_of_app. right. apply list_elem_of_singleton. reflexivity.
    + rewrite length_app. unfold queueShort, MAX_PLAYERS in *. cbn. lia.
Qed.

(** X16: the queue is short, and nobody is dropped from it. When fewer than
    [MAX_PLAYERS] connections wait in the queue, this is so again after
    every sequence of requests and steps of engines; and at every further
    event, each connection that waits in the queue waits there afterwards,
    or its socket id holds a seat in a registered lobby (the queue had
    reached [MAX_PLAYERS] connections and [tryToCreateLobby] seated
    them), or the event is the request of this socket id to leave the
    queue; a connection that [addPlayerToQueue] accepts waits in the
    queue afterwards or is seated likewise. *)
Theorem manager_queue_served cfg evs ev st :
  (length (playerQueue st) < MAX_PLAYERS)%nat ->
  let st1 := (serve cfg evs st).1 in
  let st2 := (occur cfg ev st1).1 in
  (length (playerQueue st1) < MAX_PLAYERS)%nat
  /\ (forall p, p ∈ playerQueue st1 ->
        p ∈ playerQueue st2 \/ hasSeat st2 p \/ leavesQueue ev p)
  /\ (forall f client,
        ev = Request (CallAddPlayerToQueue f client) ->
        (addPlayerToQueue cfg f client st1).1.1 = Ok tt ->
        client ∈ playerQueue st2 \/ hasSeat st2 client).
Proof.
  intros Hshort st1 st2.
  assert (Hshort1 : queueShort st1) by (apply serve_queueShort; exact Hshort).
  split; [exact Hshort1|]. split.
  - intros p Hp. apply occur_queue; assumption.
  - intros f client -> Hok. subst st2. cbn [occur perform].
    pose proof (addPlayerToQueue_placed cfg f client st1 Hshort1 Hok) as H.
    destruct (addPlayerToQueue cfg f client st1) as [[r st2] o]. exact H.
Qed.

Lemma manager_queue_served_witness :
  let st1 := (serve Sample.cfg (take 1 SampleRun.events)
                (emptyManager SampleRun.users)).1 in
  let ev := Request (CallAddPlayerToQueue Sample.fresh Sample.erin) in
  (length (playerQueue (emptyManager SampleRun.users)) < MAX_PLAYERS)%nat
  /\ playerQueue st1 = [Sample.dave]
  /\ playerQueue (occur Sample.cfg ev st1).1 = []
  /\ hasSeat (occur Sample.cfg ev st1).1 Sample.dave
  /\ hasSeat (occur Sample.cfg ev st1).1 Sample.erin.
Proof.
  intros st1 ev.
  assert (H : (length (playerQueue (emptyManager SampleRun.users)) < MAX_PLAYERS)%nat)
    by (cbn; unfold MAX_PLAYERS; lia).
  assert (Hq : playerQueue st1 = [Sample.dave]) by (vm_compute; reflexivity).
  assert (Hq2 : playerQueue (occur Sample.cfg ev st1).1 = [])
    by (vm_compute; reflexivity).
  split; [exact H|]. split; [exact Hq|]. split; [exact Hq2|].
  destruct (manager_queue_served Sample.cfg (take 1 SampleRun.events) ev
              (emptyManager SampleRun.users) H) as (_ & Hkeep & Hnew).
  fold st1 in Hkeep, Hnew. split.
  - destruct (Hkeep Sample.dave) as [Hin|[Hseat|Hout]].
    + rewrite Hq. apply list_elem_of_singleton. reflexivity.
    + rewrite Hq2 in Hin. apply elem_of_nil in Hin. contradiction.
    + exact Hseat.
    + contradiction.
  - destruct (Hnew Sample.fresh Sample.erin eq_refl) as [Hin|Hseat].
    + vm_compute. reflexivity.
    + rewrite Hq2 in Hin. apply elem_of_nil in Hin. contradiction.
    + exact Hseat.
Defined.

(** X17: from the manager as it is constructed, when the requests come from
    connections that differ in their socket ids, whatever requests are
    served and whatever steps the engines take: no socket id is seated in
    two lobbies, and no socket id that waits in the queue is seated. *)
Theorem manager_one_seat cfg users evs :
  identified (evs ≫= clientsOf) ->
  oneSeat (serve cfg evs (emptyManager users)).1
  /\ queuedUnseated (serve cfg evs (emptyManager users)).1.
Proof.
  intros Hid.
  pose proof (serve_Consistent cfg (evs ≫= clientsOf) evs (emptyManager users) Hid)
    as Hc.
  destruct Hc as (_ & _ & Hs & Hq & _).
  { intros ev c Hev Hin. apply list_elem_of_bind. exists ev. split; assumption. }
  { apply emptyManager_Consistent. }
  split.
  - intros ref1 l1 p1 ref2 l2 p2 Hl1 Hp1 Hl2 Hp2 E.
    pose proof (Hs _ _ _ Hl1 Hp1) as H1. pose proof (Hs _ _ _ Hl2 Hp2) as H2.
    rewrite E in H1. congruence.
  - intros c ref l p Hc Hl Hp E.
    pose proof (Hs _ _ _ Hl Hp) as H1. pose proof (Hq _ Hc) as H2.
    rewrite E in H1. congruence.
Qed.

Lemma manager_one_seat_witness :
  identified (SampleRun.events ≫= clientsOf)
  /\ oneSeat (serve Sample.cfg SampleRun.events (emptyManager SampleRun.users)).1
  /\ (players <$>
        heap (serve Sample.cfg SampleRun.events (emptyManager SampleRun.users)).1
          !! "lobby-3") = Some [Sample.erin].
Proof.
  assert (Hid : identified (SampleRun.events ≫= clientsOf)).
  { intros c c' Hc Hc' E. vm_compute in Hc, Hc'.
    repeat (apply elem_of_cons in Hc as [->|Hc]);
      try (apply elem_of_nil in Hc; contradiction);
      repeat (apply elem_of_cons in Hc' as [->|Hc']);
      try (apply elem_of_nil in Hc'; contradiction);
      first [reflexivity | discriminate E]. }
  split; [exact Hid|]. split.
  - apply (manager_one_seat Sample.cfg SampleRun.users SampleRun.events Hid).
  - vm_compute. reflexivity.
Defined.

(** ** The sweep of the registry *)

Lemma expiry_expired l : exists out, expiry l = (Ok tt, expired l, out).
Proof. eexists. reflexivity. Qed.

Lemma filter_iff_on {A} (P Q : A -> Prop) `{!forall x, Decision (P x)}
    `{!forall x, Decision (Q x)} (l : list A) :
  (forall x, x ∈ l -> (P x <-> Q x)) -> filter P l = filter Q l.
Proof.
  induction l as [|x l IH]; intros Hpq; [reflexivity|].
  rewrite !filter_cons.
  rewrite IH by (intros y Hy; apply Hpq, list_elem_of_further, Hy).
  pose proof (Hpq x (list_elem_of_here _ _)) as Hx.
  destruct (decide (P x)), (decide (Q x)); tauto.
Qed.

Lemma filter_all {A} (P : A -> Prop) `{!forall x, Decision (P x)} (l : list A) :
  (forall x, x ∈ l -> P x) -> filter P l = l.
Proof.
  induction l as [|x l IH]; intros Hp; [reflexivity|].
  rewrite filter_cons_True by (apply Hp, list_elem_of_here).
  rewrite IH by (intros y Hy; apply Hp, list_elem_of_further, Hy). reflexivity.
Qed.

Lemma cleanUpLobby_step cfg now ref st :
  (forall r l, heap st !! r = Some l -> lobby_id l = r) ->
  let b := bool_decide (ref ∈ lobbies st) && pastLifetime cfg now st ref in
  let st1 := (cleanUpLobby cfg now ref st).1.2 in
  playerQueue st1 = playerQueue st
  /\ dataLobby st1 = dataLobby st
  /\ userTable st1 = userTable st
  /\ lobbies st1 = (if b then filter (fun i => i ≠ ref) (lobbies st) else lobbies st)
  /\ forall r, heap st1 !! r =
       if b && bool_decide (r = ref) then expired <$> heap st !! r else heap st !! r.
Proof.
  intros Hkey b st1. subst b st1. unfold cleanUpLobby, pastLifetime, lobbies_get.
  erewrite bind_state by reflexivity.
  case_bool_decide as Hreg; cbn [andb]; [|repeat split].
  destruct (heap st !! ref) as [l|] eqn:El; [|repeat split].
  destruct (_ >? _); [|repeat split].
  destruct (expiry_expired l) as (out & Hexp).
  erewrite bind_state.
  2:{ unfold onLobby. rewrite El, Hexp. reflexivity. }
  cbn. rewrite (Hkey _ _ El). repeat split.
  intros r. case_bool_decide as Hr.
  - subst r. rewrite lookup_insert_eq, El. reflexivity.
  - rewrite lookup_insert_ne by congruence. reflexivity.
Qed.

Lemma sweep_loop cfg now refs : forall st,
  (forall r l, heap st !! r = Some l -> lobby_id l = r) ->
  let st' := (forEach (cleanUpLobby cfg now) refs st).1.2 in
  playerQueue st' = playerQueue st
  /\ dataLobby st' = dataLobby st
  /\ userTable st' = userTable st
  /\ lobbies st' =
       filter (fun r => ~ (r ∈ refs /\ pastLifetime cfg now st r = true)) (lobbies st)
  /\ forall r, heap st' !! r =
       if bool_decide (r ∈ refs /\ r ∈ lobbies st /\ pastLifetime cfg now st r = true)
       then expired <$> heap st !! r else heap st !! r.
Proof.
  induction refs as [|ref refs IH]; intros st Hkey st'; subst st'.
  - cbn [forEach]. cbn.
    split; [reflexivity|]. split; [reflexivity|]. split; [reflexivity|]. split.
    + symmetry. apply filter_all.
      intros x _ (Hx & _). apply elem_of_nil in Hx. exact Hx.
    + intros r. rewrite bool_decide_eq_false_2; [reflexivity|].
      intros (Hx & _). apply elem_of_nil in Hx. exact Hx.
  - cbn [forEach].
    pose proof (cleanUpLobby_step cfg now ref st Hkey) as (Q1 & D1 & U1 & L1 & H1).
    pose proof (cleanUpLobby_Ok cfg now ref st) as Hok.
    destruct (cleanUpLobby cfg now ref st) as [[r1 st1] o1] eqn:E.
    cbn in Q1, D1, U1, L1, H1, Hok. subst r1.
    erewrite bind_state by exact E.
    assert (Hkey1 : forall r l, heap st1 !! r = Some l -> lobby_id l = r).
    { intros r l Hl. rewrite H1 in Hl. destruct (_ && bool_decide (r = ref)).
      - destruct (heap st !! r) as [l0|] eqn:El0; cbn in Hl; [|discriminate Hl].
        injection Hl as <-. cbn. eapply Hkey, El0.
      - eapply Hkey, Hl. }
    assert (Hpast : forall r, pastLifetime cfg now st1 r = pastLifetime cfg now st r).
    { intros r. unfold pastLifetime. rewrite H1.
      destruct (_ && bool_decide (r = ref)); [|reflexivity].
      destruct (heap st !! r); reflexivity. }
    destruct (IH st1 Hkey1) as (Q2 & D2 & U2 & L2 & H2).
    split; [congruence|]. split; [congruence|]. split; [congruence|]. split.
    + rewrite L2, L1.
      destruct (bool_decide (ref ∈ lobbies st) && pastLifetime cfg now st ref) eqn:Eb.
      * apply andb_true_iff in Eb as (_ & Ep).
        rewrite list_filter_filter. apply list_filter_iff. intros x.
        rewrite Hpast. split.
        -- intros (Hx & Hne) (Hin & Hp). apply elem_of_cons in Hin as [->|Hin]; auto.
        -- intros Hx. split.
           ++ intros (Hin & Hp). apply Hx. split; [apply list_elem_of_further, Hin|exact Hp].
           ++ intros ->. apply Hx. split; [apply list_elem_of_here|exact Ep].
      * apply filter_iff_on. intros x Hx. rewrite Hpast. split.
        -- intros Hn (Hin & Hp). apply elem_of_cons in Hin as [->|Hin]; [|auto].
           apply andb_false_iff in Eb as [Eb|Eb]; [|congruence].
           apply bool_decide_eq_false in Eb. contradiction.
        -- intros Hn (Hin & Hp). apply Hn. split; [apply list_elem_of_further, Hin|exact Hp].
    + intros r. rewrite H2, H1, Hpast, L1.
      destruct (bool_decide (ref ∈ lobbies st) && pastLifetime cfg now st ref) eqn:Eb.
      * apply andb_true_iff in Eb as (Ereg & Ep). apply bool_decide_eq_true in Ereg.
        cbn [andb]. destruct (decide (r = ref)) as [Hr|Hr].
        -- subst r. rewrite (bool_decide_eq_true_2 (ref = ref)) by reflexivity.
           rewrite bool_decide_eq_false_2.
           2:{ intros (_ & Hin & _). apply list_elem_of_filter in Hin as (Hne & _).
               congruence. }
           rewrite bool_decide_eq_true_2; [reflexivity|].
           split; [apply list_elem_of_here|]. split; assumption.
        -- rewrite (bool_decide_eq_false_2 (r = ref)) by exact Hr.
           apply (f_equal (fun b : bool => if b then expired <$> heap st !! r
                                           else heap st !! r)).
           apply bool_decide_ext. split.
           ++ intros (Hin & Hreg & Hp). apply list_elem_of_filter in Hreg as (_ & Hreg).
              split; [apply list_elem_of_further, Hin|]. split; assumption.
           ++ intros (Hin & Hreg & Hp).
              apply elem_of_cons in Hin as [->|Hin]; [congruence|].
              split; [exact Hin|]. split; [|exact Hp].
              apply list_elem_of_filter. split; assumption.
      * cbn [andb].
        apply (f_equal (fun b : bool => if b then expired <$> heap st !! r
                                        else heap st !! r)).
        apply bool_decide_ext. split.
        -- intros (Hin & Hreg & Hp). split; [apply list_elem_of_further, Hin|].
           split; assumption.
        -- intros (Hin & Hreg & Hp).
           apply elem_of_cons in Hin as [->|Hin].
           ++ apply andb_false_iff in Eb as [Eb|Eb]; [|congruence].
              apply bool_decide_eq_false in Eb. contradiction.
           ++ split; [exact Hin|]. split; assumption.
Qed.

Lemma Sample_heapKeyed : heapKeyed Sample.state.
Proof.
  intros ref l Hl. cbn in Hl.
  apply lookup_insert_Some in Hl as [[<- <-]|[_ Hl]]; [reflexivity|].
  apply lookup_insert_Some in Hl as [[<- <-]|[_ Hl]]; [reflexivity|].
  rewrite lookup_empty in Hl. discriminate Hl.
Qed.

(** The registry after a sweep holds the lobbies that are not older than
    [LOBBY_MAX_LIFETIME]; the back-references are as before. *)
Lemma cleanUpLobbies_registry cfg now st :
  heapKeyed st ->
  lobbies (cleanUpLobbies cfg now st).1.2 =
    filter (fun ref => pastLifetime cfg now st ref = false) (lobbies st)
  /\ dataLobby (cleanUpLobbies cfg now st).1.2 = dataLobby st.
Proof.
  intros Hkey. unfold cleanUpLobbies. erewrite bind_state by reflexivity.
  destruct (sweep_loop cfg now (lobbies st) st Hkey) as (_ & D & _ & L & _).
  split; [|exact D].
  rewrite L. apply filter_iff_on. intros r Hr. split.
  - intros Hn. destruct (pastLifetime cfg now st r); [|reflexivity].
    exfalso. apply Hn. split; [exact Hr|reflexivity].
  - intros Hp (_ & Hp'). congruence.
Qed.

(** X18: a sweep never throws; it removes from the registry exactly the
    lobbies that are older than [LOBBY_MAX_LIFETIME], and keeps the others
    in their order; it marks the engine of each lobby that it removes as
    finished and changes nothing else of it; it leaves every other lobby,
    the queue and the back-references of the connections as they were. *)
Theorem cleanUpLobbies_sweep cfg now st :
  heapKeyed st ->
  (cleanUpLobbies cfg now st).1.1 = Ok tt
  /\ lobbies (cleanUpLobbies cfg now st).1.2 =
       filter (fun ref => pastLifetime cfg now st ref = false) (lobbies st)
  /\ (forall ref,
        heap (cleanUpLobbies cfg now st).1.2 !! ref =
          if bool_decide (ref ∈ lobbies st) && pastLifetime cfg now st ref
          then expired <$> heap st !! ref
          else heap st !! ref)
  /\ playerQueue (cleanUpLobbies cfg now st).1.2 = playerQueue st
  /\ dataLobby (cleanUpLobbies cfg now st).1.2 = dataLobby st.
Proof.
  intros Hkey. split; [apply cleanUpLobbies_Ok|].
  unfold cleanUpLobbies. erewrite bind_state by reflexivity.
  destruct (sweep_loop cfg now (lobbies st) st Hkey) as (Q & D & _ & L & H).
  split; [|split; [|split; assumption]].
  - rewrite L. apply filter_iff_on. intros r Hr. split.
    + intros Hn. destruct (pastLifetime cfg now st r); [|reflexivity].
      exfalso. apply Hn. split; [exact Hr|reflexivity].
    + intros Hp (_ & Hp'). congruence.
  - intros r. rewrite H.
    apply (f_equal (fun b : bool => if b then expired <$> heap st !! r
                                    else heap st !! r)).
    destruct (pastLifetime cfg now st r).
    + rewrite andb_true_r. apply bool_decide_ext. tauto.
    + rewrite andb_false_r. apply bool_decide_eq_false_2. intros (_ & _ & Hp).
      discriminate Hp.
Qed.

Lemma cleanUpLobbies_sweep_witness :
  heapKeyed Sample.state
  /\ lobbies (cleanUpLobbies Sample.cfg 3601500 Sample.state).1.2 = ["lobby-2"]
  /\ (hasFinished <$> (instance <$>
        heap (cleanUpLobbies Sample.cfg 3601500 Sample.state).1.2 !! "lobby-1"))
     = Some true
  /\ heap (cleanUpLobbies Sample.cfg 3601500 Sample.state).1.2 !! "lobby-2"
     = Some Sample.customLobby.
Proof.
  split; [exact Sample_heapKeyed|].
  destruct (cleanUpLobbies_sweep Sample.cfg 3601500 Sample.state Sample_heapKeyed)
    as (_ & L & H & _).
  split; [rewrite L; vm_compute; reflexivity|].
  split; rewrite H; vm_compute; reflexivity.
Defined.

(** X19: after a sweep has removed a lobby from the registry, a connection
    whose back-reference points to this lobby cannot leave it:
    [leaveLobbyOrThrow] throws "Lobby not found", [leaveLobby] returns and
    changes nothing, and the connection is still refused when it asks to
    enter the queue. *)
Theorem swept_lobby_cannot_be_left cfg now st client ref :
  heapKeyed st ->
  dataLobby st !! sock_id client = Some ref ->
  ref ∈ lobbies st ->
  pastLifetime cfg now st ref = true ->
  let st' := (cleanUpLobbies cfg now st).1.2 in
  leaveLobbyOrThrow client st' = (Throw (WsException "Lobby not found"), st', [])
  /\ leaveLobby client st' = (Ok tt, st', [])
  /\ forall f,
       addPlayerToQueue cfg f client st' =
         (Throw (WsException "You are already in a lobby, leave it first"), st', []).
Proof.
  intros Hkey Href Hreg Hpast st'.
  destruct (cleanUpLobbies_registry cfg now st Hkey) as (L & D).
  fold st' in L, D.
  assert (Hgone : lobbies_get st' ref = None).
  { unfold lobbies_get. rewrite bool_decide_eq_false_2; [reflexivity|].
    rewrite L. intros Hin. apply list_elem_of_filter in Hin as (Hp & _). congruence. }
  assert (Hback : dataLobby st' !! sock_id client = Some ref) by (rewrite D; exact Href).
  split; [|split].
  - unfold leaveLobbyOrThrow. erewrite bind_Ok by reflexivity.
    rewrite Hback, Hgone. reflexivity.
  - unfold leaveLobby. erewrite bind_Ok by reflexivity.
    rewrite Hback, Hgone. reflexivity.
  - intros f. unfold addPlayerToQueue. erewrite bind_Ok by reflexivity.
    rewrite bool_decide_eq_true_2 by (eexists; exact Hback). reflexivity.
Qed.

Lemma swept_lobby_cannot_be_left_witness :
  heapKeyed Sample.state
  /\ dataLobby Sample.state !! sock_id Sample.alice = Some "lobby-1"
  /\ "lobby-1" ∈ lobbies Sample.state
  /\ pastLifetime Sample.cfg 3601500 Sample.state "lobby-1" = true
  /\ (leaveLobbyOrThrow Sample.alice
        (cleanUpLobbies Sample.cfg 3601500 Sample.state).1.2).1.1
     = Throw (WsException "Lobby not found").
Proof.
  assert (H2 : dataLobby Sample.state !! sock_id Sample.alice = Some "lobby-1")
    by reflexivity.
  assert (H3 : "lobby-1" ∈ lobbies Sample.state) by (cbn; apply list_elem_of_here).
  assert (H4 : pastLifetime Sample.cfg 3601500 Sample.state "lobby-1" = true)
    by reflexivity.
  split; [exact Sample_heapKeyed|]. split; [exact H2|]. split; [exact H3|].
  split; [exact H4|].
  destruct (swept_lobby_cannot_be_left Sample.cfg 3601500 Sample.state Sample.alice
              "lobby-1" Sample_heapKeyed H2 H3 H4) as (-> & _).
  reflexivity.
Defined.

(** ** Creating, inviting and joining *)

Lemma createLobby_Ok_inv cfg f client st ref st1 out :
  createLobby cfg f client st = (Ok ref, st1, out) ->
  dataLobby st !! sock_id client = None /\ client ∉ playerQueue st.
Proof.
  intros H. destruct (dataLobby st !! sock_id client) as [r|] eqn:Eref.
  - destruct (createLobby_rejected cfg f client st) as (msg & E);
      [left; eexists; exact Eref|]. congruence.
  - split; [reflexivity|]. intros Hq.
    destruct (createLobby_rejected cfg f client st) as (msg & E);
      [right; exact Hq|]. congruence.
Qed.

(** X20: a lobby that [createLobby] has just created admits nobody: its
    creator holds the only seat, its invite list is empty, and every call
    of [joinLobby] for it, by any connection, is rejected and changes
    nothing; a connection that is neither seated nor queued is told that it
    is not invited. *)
Theorem createLobby_admits_nobody cfg f client st ref st1 out guest :
  createLobby cfg f client st = (Ok ref, st1, out) ->
  (players <$> lobbies_get st1 ref) = Some [client]
  /\ (invitedPlayers <$> lobbies_get st1 ref) = Some []
  /\ dataLobby st1 !! sock_id client = Some ref
  /\ (exists msg, joinLobby guest ref st1 = (Throw (WsException msg), st1, []))
  /\ (dataLobby st1 !! sock_id guest = None -> guest ∉ playerQueue st1 ->
      joinLobby guest ref st1 =
        (Throw (WsException "You are not invited to this lobby"), st1, [])).
Proof.
  intros Hcreate.
  destruct (createLobby_Ok_inv _ _ _ _ _ _ _ Hcreate) as (Hfree & Hqueue).
  rewrite (createLobby_result cfg f client st Hfree Hqueue) in Hcreate.
  injection Hcreate as <- <- <-.
  match goal with |- context [lobbies_get ?s _] => set (st1 := s) end.
  assert (Hget : lobbies_get st1 (fresh_id f)
                 = Some (set_players [client] (newLobby cfg f Custom))).
  { unfold lobbies_get, st1. cbn [lobbies heap]. rewrite lookup_insert_eq.
    rewrite bool_decide_eq_true_2; [reflexivity|].
    case_bool_decide as Hin; [exact Hin|].
    apply elem_of_app. right. apply list_elem_of_here. }
  assert (Hjoin : dataLobby st1 !! sock_id guest = None -> guest ∉ playerQueue st1 ->
            joinLobby guest (fresh_id f) st1 =
              (Throw (WsException "You are not invited to this lobby"), st1, [])).
  { intros Hg Hq. unfold joinLobby. erewrite bind_Ok by reflexivity.
    rewrite bool_decide_eq_false_2 by (rewrite Hg; apply is_Some_None).
    rewrite bool_decide_eq_false_2 by exact Hq.
    rewrite Hget. cbn [mode invitedPlayers set_players newLobby].
    rewrite bool_decide_eq_true_2 by reflexivity.
    rewrite bool_decide_eq_false_2 by apply not_elem_of_nil. reflexivity. }
  rewrite Hget. split; [reflexivity|]. split; [reflexivity|].
  split; [apply lookup_insert_eq|]. split; [|exact Hjoin].
  destruct (dataLobby st1 !! sock_id guest) as [r|] eqn:Eg.
  - eexists. unfold joinLobby. erewrite bind_Ok by reflexivity.
    rewrite bool_decide_eq_true_2 by (eexists; exact Eg). reflexivity.
  - destruct (decide (guest ∈ playerQueue st1)) as [Hq|Hq].
    + eexists. unfold joinLobby. erewrite bind_Ok by reflexivity.
      rewrite bool_decide_eq_false_2 by (rewrite Eg; apply is_Some_None).
      rewrite bool_decide_eq_true_2 by exact Hq. reflexivity.
    + eexists. apply Hjoin; [reflexivity|exact Hq].
Qed.

Lemma createLobby_admits_nobody_witness :
  exists st1,
    createLobby Sample.cfg Sample.fresh Sample.frank
      (set_playerQueue [Sample.dave] Sample.state) = (Ok "lobby-3", st1, [])
    /\ lobbies st1 = ["lobby-1"; "lobby-2"; "lobby-3"]
    /\ joinLobby (Build_AuthenticatedSocket "socket-g" "grace" "Grace") "lobby-3" st1 =
         (Throw (WsException "You are not invited to this lobby"), st1, []).
Proof.
  destruct (createLobby Sample.cfg Sample.fresh Sample.frank
              (set_playerQueue [Sample.dave] Sample.state))
    as [[r st1] out] eqn:Hcreate.
  assert (Hr : r = Ok "lobby-3" /\ out = []).
  { vm_compute in Hcreate. injection Hcreate as <- _ <-. split; reflexivity. }
  destruct Hr as (-> & ->).
  exists st1. split; [reflexivity|]. split.
  - vm_compute in Hcreate. injection Hcreate as <-. reflexivity.
  - destruct (createLobby_admits_nobody Sample.cfg Sample.fresh Sample.frank _
                "lobby-3" st1 []
                (Build_AuthenticatedSocket "socket-g" "grace" "Grace") Hcreate)
      as (_ & _ & _ & _ & Hjoin).
    apply Hjoin.
    + vm_compute in Hcreate. injection Hcreate as <-. reflexivity.
    + vm_compute in Hcreate. injection Hcreate as <-. cbn.
      intros Hin. apply list_elem_of_singleton in Hin. discriminate Hin.
Defined.

Lemma inviteToLobby_Ok_inv client userId st st1 out :
  inviteToLobby client userId st = (Ok tt, st1, out) ->
  exists ref lobby user,
    dataLobby st !! sock_id client = Some ref
    /\ heap st !! ref = Some lobby
    /\ (length (players lobby) < MAX_PLAYERS)%nat
    /\ userTable st !! userId = Some user
    /\ st1 = set_heap
               (<[ref := set_invitedPlayers (invitedPlayers lobby ++ [user_id user])
                           lobby]> (heap st)) st
    /\ out = [ {| recipients := [user_id user];
                  event := InviteToLobby (data_id client) (lobby_id lobby) |} ].
Proof.
  unfold inviteToLobby.
  case_bool_decide; [discriminate|].
  erewrite bind_Ok by reflexivity.
  destruct (dataLobby st !! sock_id client) as [ref|] eqn:Eref; [|discriminate].
  destruct (heap st !! ref) as [lobby|] eqn:Eheap; [|discriminate].
  cbn [required]. erewrite bind_Ok by reflexivity.
  destruct (bool_decide (MAX_PLAYERS <= length (players lobby))%nat) eqn:Efull;
    [discriminate|].
  apply bool_decide_eq_false in Efull.
  destruct (players_has lobby userId); [discriminate|].
  case_bool_decide; [discriminate|].
  destruct (userTable st !! userId) as [user|] eqn:Euser; [|discriminate].
  destruct (userIdInList _ _); [discriminate|].
  erewrite bind_Ok by (apply onLobby_modify, Eheap).
  cbn. intros Hres. injection Hres as <- <-.
  exists ref, lobby, user.
  split; [reflexivity|]. split; [exact Eheap|]. split; [lia|].
  split; [reflexivity|]. split; reflexivity.
Qed.

(** X21: an invitation opens the lobby to the invited user. After a call
    of [inviteToLobby] that succeeded for a registered lobby, with a user
    table that holds each user under its id, a connection of the invited
    user that is neither seated nor queued joins the lobby: [joinLobby]
    succeeds, the connection takes the next seat and its back-reference
    points to the lobby. *)
Theorem inviteToLobby_then_joinLobby client userId st st1 out ref lobby guest :
  inviteToLobby client userId st = (Ok tt, st1, out) ->
  (forall id u, userTable st !! id = Some u -> user_id u = id) ->
  dataLobby st !! sock_id client = Some ref ->
  lobbies_get st ref = Some lobby ->
  data_id guest = userId ->
  dataLobby st !! sock_id guest = None ->
  guest ∉ playerQueue st ->
  sock_id guest ∉ sock_id <$> players lobby ->
  exists st2 lobby2,
    joinLobby guest ref st1 = (Ok tt, st2, [])
    /\ heap st2 !! ref = Some lobby2
    /\ players lobby2 = players lobby ++ [guest]
    /\ dataLobby st2 !! sock_id guest = Some ref.
Proof.
  intros Hinvite Hkeys Hback Hget Hguest Hfree Hqueue Hseat.
  destruct (inviteToLobby_Ok_inv _ _ _ _ _ Hinvite)
    as (ref' & lobby' & user & Hback' & Hheap & Hlen & Huser & -> & _).
  rewrite Hback in Hback'. injection Hback' as <-.
  rewrite (lobbies_get_heap _ _ _ Hget) in Hheap. injection Hheap as <-.
  pose proof (Hkeys _ _ Huser) as Hid.
  set (lobby1 := set_invitedPlayers (invitedPlayers lobby ++ [user_id user]) lobby).
  set (st1 := set_heap (<[ref := lobby1]> (heap st)) st).
  assert (Hget1 : lobbies_get st1 ref = Some lobby1).
  { unfold lobbies_get in *. cbn [lobbies st1 set_heap heap].
    case_bool_decide; [|discriminate]. apply lookup_insert_eq. }
  eexists. exists (set_players (players lobby ++ [guest]) lobby1).
  split; [|split; [|split]].
  - unfold joinLobby. erewrite bind_Ok by reflexivity.
    cbn [dataLobby st1 set_heap playerQueue].
    rewrite bool_decide_eq_false_2 by (rewrite Hfree; apply is_Some_None).
    rewrite bool_decide_eq_false_2 by exact Hqueue.
    rewrite Hget1.
    replace (bool_decide (mode lobby1 = Custom) && _) with false.
    2:{ symmetry. apply andb_false_iff. right.
        apply negb_false_iff, bool_decide_eq_true_2.
        cbn. apply elem_of_app. right. apply list_elem_of_singleton. congruence. }
    cbn [players lobby1 set_invitedPlayers].
    rewrite bool_decide_eq_false_2 by lia.
    unfold players_has. cbn [players].
    rewrite bool_decide_eq_false_2 by exact Hseat.
    rewrite (addPlayer_seated _ _ _ _ (lobbies_get_heap _ _ _ Hget1)).
    unfold seat. cbn [players lobby1 set_invitedPlayers].
    rewrite bool_decide_eq_false_2 by exact Hseat. reflexivity.
  - cbn. apply lookup_insert_eq.
  - reflexivity.
  - cbn. apply lookup_insert_eq.
Qed.

Lemma inviteToLobby_then_joinLobby_witness :
  exists st1 out st2,
    inviteToLobby Sample.carol "bob" Sample.state = (Ok tt, st1, out)
    /\ joinLobby (Build_AuthenticatedSocket "socket-b2" "bob" "Bob") "lobby-2" st1
       = (Ok tt, st2, [])
    /\ (players <$> heap st2 !! "lobby-2")
       = Some [Sample.carol; Build_AuthenticatedSocket "socket-b2" "bob" "Bob"].
Proof.
  destruct (inviteToLobby Sample.carol "bob" Sample.state) as [[r st1] out] eqn:Hinv.
  assert (Hr : r = Ok tt) by (vm_compute in Hinv; injection Hinv as <- _ _; reflexivity).
  subst r.
  destruct (inviteToLobby_then_joinLobby Sample.carol "bob" Sample.state st1 out
              "lobby-2" Sample.customLobby
              (Build_AuthenticatedSocket "socket-b2" "bob" "Bob") Hinv)
    as (st2 & lobby2 & Hjoin & Hheap & Hplayers & _).
  - intros id u Hu. cbn in Hu.
    repeat (apply lookup_insert_Some in Hu as [[<- <-]|[_ Hu]]; [reflexivity|]).
    rewrite lookup_empty in Hu. discriminate Hu.
  - reflexivity.
  - reflexivity.
  - reflexivity.
  - reflexivity.
  - cbn. intros Hin. repeat (apply elem_of_cons in Hin as [Hin|Hin]; [discriminate Hin|]).
    apply elem_of_nil in Hin. exact Hin.
  - cbn. intros Hin. apply list_elem_of_singleton in Hin. discriminate Hin.
  - exists st1, out, st2. split; [reflexivity|]. split; [exact Hjoin|].
    rewrite Hheap. cbn [fmap option_fmap option_map]. rewrite Hplayers. reflexivity.
Defined.

Lemma findLobbyOfUser_registered st userId ref :
  findLobbyOfUser st userId = Some ref -> ref ∈ lobbies st.
Proof.
  unfold findLobbyOfUser. intros H. apply find_some in H as (Hin & _).
  apply list_elem_of_In. exact Hin.
Qed.

(** X22: an invitation through the chat does not open the lobby to the
    invited user. After a call of [inviteToLobbyThroughChat] that succeeded
    for a lobby in Custom mode, every call of [joinLobby] for this lobby by
    a connection of the invited user is rejected and changes nothing; when
    the connection is neither seated nor queued, the reason is that it is
    not invited. *)
Theorem inviteToLobbyThroughChat_then_joinLobby user invitedUserId st ref st1 out guest :
  inviteToLobbyThroughChat user invitedUserId st = (Ok ref, st1, out) ->
  heapKeyed st ->
  (mode <$> heap st !! ref) = Some Custom ->
  data_id guest = invitedUserId ->
  (exists msg, joinLobby guest ref st1 = (Throw (WsException msg), st1, []))
  /\ (dataLobby st1 !! sock_id guest = None -> guest ∉ playerQueue st1 ->
      joinLobby guest ref st1 =
        (Throw (WsException "You are not invited to this lobby"), st1, [])).
Proof.
  intros Hinvite Hkey Hmode Hguest.
  revert Hinvite. unfold inviteToLobbyThroughChat.
  case_bool_decide as Hself; [discriminate|].
  erewrite bind_Ok by reflexivity.
  destruct (findLobbyOfUser st (user_id user)) as [ref'|] eqn:Efind; [|discriminate].
  pose proof (findLobbyOfUser_registered _ _ _ Efind) as Hreg.
  destruct (heap st !! ref') as [lobby|] eqn:Eheap; [|discriminate].
  cbn [required]. erewrite bind_Ok by reflexivity.
  destruct (bool_decide (MAX_PLAYERS <= length (players lobby))%nat); [discriminate|].
  destruct (players_has lobby invitedUserId); [discriminate|].
  case_bool_decide as Hinvited; [discriminate|].
  destruct (userIdInList _ _); [discriminate|].
  erewrite bind_Ok by (apply onLobby_modify, Eheap).
  intros Hres. cbn in Hres. injection Hres as <- <- <-.
  rewrite (Hkey _ _ Eheap) in *. rewrite Eheap in Hmode. injection Hmode as Hmode.
  set (lobby1 := set_invitedPlayers (invitedPlayers lobby ++ [user_id user]) lobby).
  set (st1 := set_heap (<[ref' := lobby1]> (heap st)) st).
  assert (Hget1 : lobbies_get st1 ref' = Some lobby1).
  { unfold lobbies_get. cbn [lobbies st1 set_heap heap].
    rewrite bool_decide_eq_true_2 by exact Hreg. apply lookup_insert_eq. }
  assert (Hjoin : dataLobby st1 !! sock_id guest = None -> guest ∉ playerQueue st1 ->
            joinLobby guest ref' st1 =
              (Throw (WsException "You are not invited to this lobby"), st1, [])).
  { intros Hg Hq. unfold joinLobby. erewrite bind_Ok by reflexivity.
    rewrite bool_decide_eq_false_2 by (rewrite Hg; apply is_Some_None).
    rewrite bool_decide_eq_false_2 by exact Hq.
    rewrite Hget1. cbn [mode invitedPlayers lobby1 set_invitedPlayers].
    rewrite bool_decide_eq_true_2 by exact Hmode.
    rewrite bool_decide_eq_false_2; [reflexivity|].
    rewrite Hguest. intros Hin. apply elem_of_app in Hin as [Hin|Hin]; [contradiction|].
    apply list_elem_of_singleton in Hin. congruence. }
  split; [|exact Hjoin].
  destruct (dataLobby st1 !! sock_id guest) as [r|] eqn:Eg.
  - eexists. unfold joinLobby. erewrite bind_Ok by reflexivity.
    rewrite bool_decide_eq_true_2 by (eexists; exact Eg). reflexivity.
  - destruct (decide (guest ∈ playerQueue st1)) as [Hq|Hq].
    + eexists. unfold joinLobby. erewrite bind_Ok by reflexivity.
      rewrite bool_decide_eq_false_2 by (rewrite Eg; apply is_Some_None).
      rewrite bool_decide_eq_true_2 by exact Hq. reflexivity.
    + eexists. apply Hjoin; [reflexivity|exact Hq].
Qed.

Lemma inviteToLobbyThroughChat_then_joinLobby_witness :
  exists st1,
    inviteToLobbyThroughChat (Sample.user "carol" []) "bob" Sample.state
      = (Ok "lobby-2", st1, [])
    /\ joinLobby (Build_AuthenticatedSocket "socket-b2" "bob" "Bob") "lobby-2" st1
       = (Throw (WsException "You are not invited to this lobby"), st1, []).
Proof.
  destruct (inviteToLobbyThroughChat (Sample.user "carol" []) "bob" Sample.state)
    as [[r st1] out] eqn:Hinv.
  assert (Hr : r = Ok "lobby-2" /\ out = []).
  { vm_compute in Hinv. injection Hinv as <- _ <-. split; reflexivity. }
  destruct Hr as (-> & ->).
  exists st1. split; [reflexivity|].
  destruct (inviteToLobbyThroughChat_then_joinLobby (Sample.user "carol" []) "bob"
              Sample.state "lobby-2" st1 []
              (Build_AuthenticatedSocket "socket-b2" "bob" "Bob") Hinv
              Sample_heapKeyed eq_refl eq_refl) as (_ & Hjoin).
  apply Hjoin.
  - vm_compute in Hinv. injection Hinv as <-. reflexivity.
  - vm_compute in Hinv. injection Hinv as <-. cbn.
    intros Hin. repeat (apply elem_of_cons in Hin as [Hin|Hin]; [discriminate Hin|]).
    apply elem_of_nil in Hin. exact Hin.
Defined.

(** ** Leaving the queue *)

Lemma findIndex_absent client queue :
  (forall p, p ∈ queue -> sock_id p ≠ sock_id client) ->
  findIndex client queue = None.
Proof.
  intros H. unfold findIndex.
  rewrite (proj2 (list_find_None _ queue)); [reflexivity|].
  apply Forall_forall. exact H.
Qed.

Lemma findIndex_first client pre q post :
  (forall p, p ∈ pre -> sock_id p ≠ sock_id client) ->
  sock_id q = sock_id client ->
  findIndex client (pre ++ q :: post) = Some (length pre).
Proof.
  intros Hpre Hq. unfold findIndex.
  rewrite list_find_app_r
    by (apply list_find_None, Forall_forall; exact Hpre).
  cbn. rewrite decide_True by exact Hq. reflexivity.
Qed.

(** The first connection of the queue that has the socket id of the caller
    is the one that [removePlayerFromQueueOrThrow] takes out. *)
Lemma removePlayerFromQueueOrThrow_found client st pre q post :
  playerQueue st = pre ++ q :: post ->
  (forall p, p ∈ pre -> sock_id p ≠ sock_id client) ->
  sock_id q = sock_id client ->
  removePlayerFromQueueOrThrow client st =
    (Ok tt, set_playerQueue (pre ++ post) st, []).
Proof.
  intros Hqueue Hpre Hq. unfold removePlayerFromQueueOrThrow.
  erewrite !bind_Ok by reflexivity.
  rewrite Hqueue, (findIndex_first _ _ _ _ Hpre Hq).
  unfold modify. rewrite Hqueue, delete_middle. reflexivity.
Qed.

(** X23: [removePlayerFromQueue] and [removePlayerFromQueueOrThrow] take
    out of the queue the first connection that has the socket id of the
    caller, and leave the connections before and after it in their order;
    when no connection of the queue has this socket id, the first returns
    and the second throws "You are not in queue", and both leave the state
    as it was. *)
Theorem removePlayerFromQueue_first client st :
  (forall pre q post,
     playerQueue st = pre ++ q :: post ->
     (forall p, p ∈ pre -> sock_id p ≠ sock_id client) ->
     sock_id q = sock_id client ->
     removePlayerFromQueue client st = (Ok tt, set_playerQueue (pre ++ post) st, [])
     /\ removePlayerFromQueueOrThrow client st =
          (Ok tt, set_playerQueue (pre ++ post) st, []))
  /\ ((forall p, p ∈ playerQueue st -> sock_id p ≠ sock_id client) ->
      removePlayerFromQueue client st = (Ok tt, st, [])
      /\ removePlayerFromQueueOrThrow client st =
           (Throw (WsException "You are not in queue"), st, [])).
Proof.
  split.
  - intros pre q post Hqueue Hpre Hq.
    split; [|exact (removePlayerFromQueueOrThrow_found _ _ _ _ _ Hqueue Hpre Hq)].
    unfold removePlayerFromQueue. erewrite !bind_Ok by reflexivity.
    rewrite Hqueue, (findIndex_first _ _ _ _ Hpre Hq).
    unfold modify. rewrite Hqueue, delete_middle. reflexivity.
  - intros Habsent.
    unfold removePlayerFromQueue, removePlayerFromQueueOrThrow.
    erewrite !bind_Ok by reflexivity.
    rewrite (findIndex_absent _ _ Habsent). split; reflexivity.
Qed.

Lemma removePlayerFromQueue_first_witness :
  removePlayerFromQueue Sample.erin Sample.state =
    (Ok tt, set_playerQueue [Sample.dave; Sample.frank] Sample.state, [])
  /\ removePlayerFromQueueOrThrow Sample.alice Sample.state =
       (Throw (WsException "You are not in queue"), Sample.state, []).
Proof.
  split.
  - destruct (removePlayerFromQueue_first Sample.erin Sample.state) as (Hfirst & _).
    apply (Hfirst [Sample.dave] Sample.erin [Sample.frank]).
    + reflexivity.
    + intros p Hp. apply list_elem_of_singleton in Hp as ->. discriminate.
    + reflexivity.
  - destruct (removePlayerFromQueue_first Sample.alice Sample.state) as (_ & Habsent).
    apply Habsent.
    intros p Hp. cbn in Hp.
    repeat (apply elem_of_cons in Hp as [->|Hp]; [discriminate|]).
    apply elem_of_nil in Hp. contradiction.
Defined.

(** X24: entering the queue and leaving it again restores the state of the
    manager: for a connection that is not seated and whose socket id is not
    in the queue, while the queue stays below [MAX_PLAYERS] connections,
    [addPlayerToQueue] succeeds without sending anything, and
    [removePlayerFromQueueOrThrow] then gives back the state from before. *)
Theorem queue_round_trip cfg f client st :
  dataLobby st !! sock_id client = None ->
  (forall p, p ∈ playerQueue st -> sock_id p ≠ sock_id client) ->
  (length (playerQueue st) + 1 < MAX_PLAYERS)%nat ->
  exists st1,
    addPlayerToQueue cfg f client st = (Ok tt, st1, [])
    /\ playerQueue st1 = playerQueue st ++ [client]
    /\ removePlayerFromQueueOrThrow client st1 = (Ok tt, st, []).
Proof.
  intros Hfree Habsent Hshort.
  exists (set_playerQueue (playerQueue st ++ [client]) st).
  split; [|split; [reflexivity|]].
  - destruct (addPlayerToQueue_cases cfg f client st) as [(e & E)|(_ & _ & ->)].
    + exfalso. revert E. unfold addPlayerToQueue. erewrite bind_Ok by reflexivity.
      rewrite bool_decide_eq_false_2 by (rewrite Hfree; apply is_Some_None).
      rewrite bool_decide_eq_false_2.
      2:{ intros Hin. apply (Habsent _ Hin). reflexivity. }
      erewrite bind_Ok by reflexivity.
      rewrite tryToCreateLobby_short by (cbn; rewrite length_app; cbn; lia).
      discriminate.
    + apply tryToCreateLobby_short. cbn. rewrite length_app. cbn. lia.
  - rewrite (removePlayerFromQueueOrThrow_found client
               (set_playerQueue (playerQueue st ++ [client]) st)
               (playerQueue st) client [] eq_refl Habsent eq_refl).
    rewrite app_nil_r. destruct st; reflexivity.
Qed.

Lemma queue_round_trip_witness :
  exists st1,
    addPlayerToQueue Sample.cfg Sample.fresh Sample.frank
      (set_playerQueue [] Sample.state) = (Ok tt, st1, [])
    /\ playerQueue st1 = [Sample.frank]
    /\ removePlayerFromQueueOrThrow Sample.frank st1
       = (Ok tt, set_playerQueue [] Sample.state, []).
Proof.
  apply (queue_round_trip Sample.cfg Sample.fresh Sample.frank
           (set_playerQueue [] Sample.state)).
  - reflexivity.
  - intros p Hp. apply elem_of_nil in Hp. contradiction.
  - cbn. unfold MAX_PLAYERS. lia.
Defined.
